(** * Spec-number conflict resolution ([fix_spec_conflicts.py])

    A shallow embedding of the script that detects documents of one
    prefix family sharing a token, picks the one to renumber, allocates a
    fresh numeric token and rewrites the references, together with the
    properties of its specification.

    Conventions of the embedding.
    - A Python [str] is a [string]; each [ascii] stands for a code point
      below 256.  On that range [\d] and [[0-9]] coincide, and
      [str.isdigit] coincides with the ASCII test on every token the
      scanner can produce (tokens match [[0-9]+[A-Za-z0-9]*]).
    - Python integers are [N] (token numbers) and [nat] (lengths, counts).
    - A [float] modification time is a [Q]: every finite float is a
      rational and the script only compares them.
    - The [SpecFile] objects are mutable and shared between the lists
      [specs], [scoped] and the groups: the objects live in a store (a
      list) and the derived lists hold positions in it.
    - Printing, the file system and the store are threaded through a
      state-and-exception monad; the state survives an exception. *)

From Stdlib Require Import String Ascii List NArith QArith Lia Bool Permutation Sorted.
From stdpp Require Import base list.

Import ListNotations.
Local Open Scope string_scope.
Local Open Scope list_scope.

(** ** Python built-ins on strings and integers *)

Module Py.

Definition is_ascii_digit (c : ascii) : bool :=
  (48 <=? N_of_ascii c)%N && (N_of_ascii c <=? 57)%N.

Definition is_ascii_alpha (c : ascii) : bool :=
  ((65 <=? N_of_ascii c)%N && (N_of_ascii c <=? 90)%N)
  || ((97 <=? N_of_ascii c)%N && (N_of_ascii c <=? 122)%N).

Definition is_alnum (c : ascii) : bool := is_ascii_digit c || is_ascii_alpha c.

Fixpoint all_chars (p : ascii -> bool) (s : string) : bool :=
  match s with
  | EmptyString => true
  | String c r => p c && all_chars p r
  end.

(** [str.isdigit]: non-empty and made of digits only. *)
Definition isdigit (s : string) : bool :=
  match s with
  | EmptyString => false
  | _ => all_chars is_ascii_digit s
  end.

Definition digit_value (c : ascii) : N := (N_of_ascii c - 48)%N.

Fixpoint int_acc (acc : N) (s : string) : N :=
  match s with
  | EmptyString => acc
  | String c r => int_acc (10 * acc + digit_value c)%N r
  end.

(** [int(s)] for a string of decimal digits. *)
Definition int (s : string) : N := int_acc 0 s.

Definition digit_char (d : N) : ascii := ascii_of_N (48 + d).

(** The decimal digits of [n], most significant first, in front of
    [acc]; [fuel] bounds the number of digits produced. *)
Fixpoint str_digits (fuel : nat) (n : N) (acc : string) : string :=
  match fuel with
  | O => acc
  | S f =>
      let acc' := String (digit_char (n mod 10)) acc in
      if (n / 10 =? 0)%N then acc' else str_digits f (n / 10) acc'
  end.

(** [str(n)] for a non-negative integer: a number has no more decimal
    digits than binary ones. *)
Definition str (n : N) : string := str_digits (N.to_nat (N.size n) + 1) n "".

Fixpoint zeros (k : nat) : string :=
  match k with
  | O => ""
  | S k' => String "0" (zeros k')
  end.

(** [s.zfill(width)]: zeros go after a leading sign. *)
Definition zfill (s : string) (width : nat) : string :=
  let pad := zeros (width - String.length s) in
  match s with
  | String c r =>
      if (Ascii.eqb c "+" || Ascii.eqb c "-")%bool
      then String c (pad ++ r)
      else pad ++ s
  | EmptyString => pad
  end.

(** [s.startswith(p)] *)
Fixpoint startswith (s p : string) {struct p} : bool :=
  match p with
  | EmptyString => true
  | String a p' =>
      match s with
      | EmptyString => false
      | String b s' => Ascii.eqb a b && startswith s' p'
      end
  end.

(** One left-to-right pass of [str.replace] for a non-empty [old]:
    [skip] counts the characters of a match that are still to be
    dropped. *)
Fixpoint replace_go (old new : string) (skip : nat) (s : string) : string :=
  match s with
  | EmptyString => EmptyString
  | String c r =>
      match skip with
      | S k => replace_go old new k r
      | O =>
          if startswith s old
          then new ++ replace_go old new (String.length old - 1) r
          else String c (replace_go old new 0 r)
      end
  end.

Fixpoint interleave (new s : string) : string :=
  match s with
  | EmptyString => new
  | String c r => new ++ String c (interleave new r)
  end.

(** [s.replace(old, new)]. *)
Definition replace (old new s : string) : string :=
  match old with
  | EmptyString => interleave new s
  | _ => replace_go old new 0 s
  end.

(** [old in s]. *)
Fixpoint contains (old s : string) : bool :=
  startswith s old
  || match s with
     | EmptyString => false
     | String _ r => contains old r
     end.

Definition lower_char (c : ascii) : ascii :=
  if ((65 <=? N_of_ascii c)%N && (N_of_ascii c <=? 90)%N)%bool
  then ascii_of_N (N_of_ascii c + 32)
  else c.

(** [s.lower()], on the ASCII letters; the other code points below 256
    never lower to an ASCII letter, which is all the extension test
    looks at. *)
Fixpoint lower (s : string) : string :=
  match s with
  | EmptyString => EmptyString
  | String c r => String (lower_char c) (lower r)
  end.

Fixpoint drop (k : nat) (s : string) : string :=
  match k, s with
  | O, _ => s
  | S k', String _ r => drop k' r
  | S _, EmptyString => EmptyString
  end.

Fixpoint take (k : nat) (s : string) : string :=
  match k, s with
  | S k', String c r => String c (take k' r)
  | _, _ => EmptyString
  end.

Definition endswith (s p : string) : bool :=
  (String.length p <=? String.length s)%nat
  && String.eqb (drop (String.length s - String.length p) s) p.

(** Position of the last occurrence of the character [c], as
    [s.rfind(c)]; [None] stands for -1. *)
Fixpoint rfind_char (c : ascii) (s : string) : option nat :=
  match s with
  | EmptyString => None
  | String a r =>
      match rfind_char c r with
      | Some i => Some (S i)
      | None => if Ascii.eqb a c then Some 0%nat else None
      end
  end.

End Py.


(** ** Calendar dates ([datetime.date]) *)

Module Date.

Record t := mk { year : N; month : N; day : N }.

Definition is_leap (y : N) : bool :=
  ((y mod 4 =? 0) && (negb (y mod 100 =? 0) || (y mod 400 =? 0)))%N.

Definition days_in_month (y m : N) : N :=
  if (m =? 2)%N then (if is_leap y then 29 else 28)%N
  else if ((m =? 4) || (m =? 6) || (m =? 9) || (m =? 11))%N then 30%N
  else 31%N.

(** [date(year, month, day)]; [None] is the [ValueError] of an
    out-of-range field. *)
Definition make (y m d : N) : option t :=
  if ((1 <=? y) && (y <=? 9999) && (1 <=? m) && (m <=? 12)
      && (1 <=? d) && (d <=? days_in_month y m))%N
  then Some (mk y m d)
  else None.

(** [date.min] *)
Definition min : t := mk 1 1 1.

Definition eqb (a b : t) : bool :=
  ((year a =? year b) && (month a =? month b) && (day a =? day b))%N.

Definition gtb (a b : t) : bool :=
  if negb (year a =? year b)%N then (year b <? year a)%N
  else if negb (month a =? month b)%N then (month b <? month a)%N
  else (day b <? day a)%N.

End Date.

(** ** Paths ([pathlib.Path]) *)

(** An absolute path is the list of its components below the root. *)
Definition Path := list string.

Module PurePath.

(** [path.name] *)
Definition name (p : Path) : string := List.last p "".

(** [path.parent] *)
Definition parent (p : Path) : Path := removelast p.

(** [path.with_name(n)] *)
Definition with_name (p : Path) (n : string) : Path := removelast p ++ [n].

(** [path / rel] for a relative path given by its components. *)
Definition join (p rel : Path) : Path := p ++ rel.

(** [path.suffix]: from the last dot of the name, unless that dot is
    the first or the last character. *)
Definition suffix (p : Path) : string :=
  let n := name p in
  match Py.rfind_char "." n with
  | Some i =>
      if ((0 <? i)%nat && (i <? String.length n - 1)%nat)%bool
      then Py.drop i n
      else ""
  | None => ""
  end.

(** [str(path)] *)
Definition to_string (p : Path) : string :=
  match p with
  | [] => "/"
  | _ => String.concat "" (map (fun c => ("/" ++ c)%string) p)
  end.

Fixpoint eqb (p q : Path) : bool :=
  match p, q with
  | [], [] => true
  | a :: p', b :: q' => String.eqb a b && eqb p' q'
  | _, _ => false
  end.

(** The components of [p] below [root], when [p] lies under [root]. *)
Fixpoint relative_to (p root : Path) : option Path :=
  match root, p with
  | [], _ => Some p
  | r :: root', c :: p' => if String.eqb r c then relative_to p' root' else None
  | _ :: _, [] => None
  end.

End PurePath.

(** ** The file system *)

Inductive Exn :=
| FileNotFoundError
| IsADirectoryError
| UnicodeDecodeError.

(** What a regular file holds: text (what [read_text] returns for it), or
    bytes that are not valid UTF-8. *)
Inductive FileData :=
| Text (content : string)
| Undecodable (raw : list Byte.byte).

(** Decoding as UTF-8. *)
Definition decode (d : FileData) : Exn + string :=
  match d with
  | Text s => inr s
  | Undecodable _ => inl UnicodeDecodeError
  end.

Record File := { fpath : Path; fdata : FileData; fmtime : Q }.

(** The directories, the regular files, the time that a write stamps on
    the file it touches, and the modification times of the directories.
    The advance of the clock during a run is outside the model. *)
Record FS := {
  dirs : list Path;
  files : list File;
  clock : Q;
  dir_mtime : Path -> Q
}.

Module Fs.

Definition find_file (fs : FS) (p : Path) : option File :=
  List.find (fun f => PurePath.eqb (fpath f) p) (files fs).

Definition is_dir (fs : FS) (p : Path) : bool :=
  existsb (PurePath.eqb p) (dirs fs).

Definition is_file (fs : FS) (p : Path) : bool :=
  match find_file fs p with Some _ => true | None => false end.

Definition exists_ (fs : FS) (p : Path) : bool := is_dir fs p || is_file fs p.

(** [path.read_text(encoding="utf-8")] *)
Definition read_text (fs : FS) (p : Path) : Exn + string :=
  match find_file fs p with
  | Some f => decode (fdata f)
  | None => if is_dir fs p then inl IsADirectoryError else inl FileNotFoundError
  end.

Definition write_file (now : Q) (p : Path) (s : string) (f : File) : File :=
  if PurePath.eqb (fpath f) p
  then {| fpath := fpath f; fdata := Text s; fmtime := now |}
  else f.

(** [path.write_text(s, encoding="utf-8")] on an existing file; on a
    path that names nothing the file is created. *)
Definition write_text (fs : FS) (p : Path) (s : string) : Exn + FS :=
  if is_file fs p
  then inr {| dirs := dirs fs;
              files := map (write_file (clock fs) p s) (files fs);
              clock := clock fs;
              dir_mtime := dir_mtime fs |}
  else if is_dir fs p then inl IsADirectoryError
  else inr {| dirs := dirs fs;
              files := files fs ++ [{| fpath := p; fdata := Text s; fmtime := clock fs |}];
              clock := clock fs;
              dir_mtime := dir_mtime fs |}.

Definition move_file (src dst : Path) (f : File) : File :=
  if PurePath.eqb (fpath f) src
  then {| fpath := dst; fdata := fdata f; fmtime := fmtime f |}
  else f.

(** [src.rename(dst)] for a regular file [src] (the script renames a
    path it has just read as a file): a file already at [dst] is
    replaced, a directory there is an error. *)
Definition rename (fs : FS) (src dst : Path) : Exn + FS :=
  if negb (is_file fs src) then inl FileNotFoundError
  else if is_dir fs dst then inl IsADirectoryError
  else if PurePath.eqb src dst then inr fs
  else inr {| dirs := dirs fs;
              files := map (move_file src dst)
                         (List.filter (fun f => negb (PurePath.eqb (fpath f) dst)) (files fs));
              clock := clock fs;
              dir_mtime := dir_mtime fs |}.

End Fs.


(** ** The script's constants and records *)

Definition OSS_PREFIX : string := "SPEC".
Definition ENT_PREFIX : string := "SPEC-ENT".
Definition TEXT_EXTENSIONS : list string := [".md"; ".mdx"; ".txt"].
Definition SKIP_DIRS : list string :=
  [".git"; "node_modules"; ".next"; "dist"; "build"; ".turbo"; "coverage"].

Definition str_in (x : string) (l : list string) : bool := existsb (String.eqb x) l.

Record SpecFile := {
  path : Path;
  prefix : string;
  token : string;
  tail : string;
  mtime : Q
}.

Definition base_name (s : SpecFile) : string := PurePath.name (path s).

Definition make_spec_id (pre tok : string) : string := (pre ++ "-" ++ tok)%string.

Definition spec_id (s : SpecFile) : string := make_spec_id (prefix s) (token s).

Definition char_at (i : nat) (s : string) : ascii :=
  match String.get i s with Some c => c | None => "000"%char end.

(** The match of the date pattern at the start of the tail: four
    digits, a dash, two digits, a dash, two digits, a dash; the result
    is the three digit groups. *)
Definition match_date_fragment (t : string) : option (string * string * string) :=
  let y := Py.take 4 t in
  let m := Py.take 2 (Py.drop 5 t) in
  let d := Py.take 2 (Py.drop 8 t) in
  if ((String.length y =? 4)%nat && Py.all_chars Py.is_ascii_digit y
      && Ascii.eqb (char_at 4 t) "-"
      && (String.length m =? 2)%nat && Py.all_chars Py.is_ascii_digit m
      && Ascii.eqb (char_at 7 t) "-"
      && (String.length d =? 2)%nat && Py.all_chars Py.is_ascii_digit d
      && Ascii.eqb (char_at 10 t) "-")%bool
  then Some (y, m, d)
  else None.

Definition dated_key (s : SpecFile) : option Date.t :=
  match match_date_fragment (tail s) with
  | None => None
  | Some (y, m, d) => Date.make (Py.int y) (Py.int m) (Py.int d)
  end.

(** ** Scanning the registry *)

Fixpoint take_while (p : ascii -> bool) (s : string) : string :=
  match s with
  | EmptyString => EmptyString
  | String c r => if p c then String c (take_while p r) else EmptyString
  end.

Definition newline : ascii := "010"%char.

Definition has_newline (s : string) : bool :=
  negb (Py.all_chars (fun c => negb (Ascii.eqb c newline)) s).

(** The rest of the name pattern once the prefix [pre] is chosen: a
    dash, the token (a digit, then letters and digits), a dash, a
    non-empty tail and [.md] at the end.  The token is the whole
    alphanumeric run (a shorter one is not followed by a dash); the dot
    of the tail group does not match a newline and the end anchor also
    matches before a final newline. *)
Definition match_after_prefix (pre n : string) : option (string * string * string) :=
  if Py.startswith n (pre ++ "-") then
    let rest := Py.drop (String.length pre + 1) n in
    let tok := take_while Py.is_alnum rest in
    let after := Py.drop (String.length tok) rest in
    if (Py.is_ascii_digit (char_at 0 tok) && Py.startswith after "-")%bool then
      let t := Py.drop 1 after in
      let core := if Py.endswith t (String newline "")
                  then Py.take (String.length t - 1) t else t in
      let tl := Py.take (String.length core - 3) core in
      if (Py.endswith core ".md" && (1 <=? String.length tl)%nat
          && negb (has_newline tl))%bool
      then Some (pre, tok, tl)
      else None
    else None
  else None.

(** [name_pattern.match(name)]: the prefix group is [SPEC] with an
    optional [-ENT], and the optional part is tried first. *)
Definition match_name (n : string) : option (string * string * string) :=
  match match_after_prefix "SPEC-ENT" n with
  | Some r => Some r
  | None => match_after_prefix "SPEC" n
  end.

(** What a walk of the file system meets: a path, and the modification
    time that [path.stat()] gives for it. *)
Record Entry := { epath : Path; emtime : Q }.

Definition file_entry (f : File) : Entry := {| epath := fpath f; emtime := fmtime f |}.

Definition dir_entry (fs : FS) (d : Path) : Entry :=
  {| epath := d; emtime := dir_mtime fs d |}.

(** The regular files and the directories, in the order in which the
    file system lists them (the files of the table, then its
    directories). *)
Definition entries (fs : FS) : list Entry :=
  map file_entry (files fs) ++ map (dir_entry fs) (dirs fs).

(** What [specs_root.rglob("*.md")] yields: the entries strictly below
    the root whose name ends in [.md], regular files and directories
    alike. *)
Definition rglob_md (fs : FS) (specs_root : Path) : list Entry :=
  List.filter
    (fun e =>
       match PurePath.relative_to (epath e) specs_root with
       | Some (_ :: _) => Py.endswith (PurePath.name (epath e)) ".md"
       | _ => false
       end)
    (entries fs).

Definition iter_spec_files (fs : FS) (specs_root : Path) : list SpecFile :=
  flat_map
    (fun e =>
       if String.eqb (PurePath.name (PurePath.parent (epath e))) "analysis" then []
       else match match_name (PurePath.name (epath e)) with
            | None => []
            | Some (pre, tok, tl) =>
                [{| path := epath e; prefix := pre; token := tok; tail := tl;
                    mtime := emtime e |}]
            end)
    (rglob_md fs specs_root).

(** The two candidate roots of [find_specs_root]. *)
Definition candidate_roots (repo_root : Path) : list Path :=
  [PurePath.join repo_root [".ai"; "specs"]; PurePath.join repo_root ["ai"; "specs"]].

Definition find_specs_root (fs : FS) (repo_root : Path) : list Path :=
  List.filter (fun p => Fs.exists_ fs p && Fs.is_dir fs p) (candidate_roots repo_root).


(** ** Token allocation *)

(** The loop of [next_numeric_token]: the largest value among the
    all-digit tokens seen so far. *)
Definition max_number_step (max_number : N) (spec : SpecFile) : N :=
  if Py.isdigit (token spec) then N.max max_number (Py.int (token spec))
  else max_number.

Definition next_numeric_token (specs : list SpecFile) (min_width : nat) : string :=
  let max_number := fold_left max_number_step specs 0%N in
  let next_number := (max_number + 1)%N in
  let width := Nat.max min_width (String.length (Py.str next_number)) in
  Py.zfill (Py.str next_number) width.

(** [max((len(s.token) for s in scoped if s.token.isdigit()), default=3)] *)
Definition family_width (scoped : list SpecFile) : nat :=
  match List.filter (fun s => Py.isdigit (token s)) scoped with
  | [] => 3%nat
  | s :: rest =>
      fold_left (fun w s' => Nat.max w (String.length (token s'))) rest
        (String.length (token s))
  end.

(** ** The tie-break *)

(** The key of [max]: date presence, the date (or [date.min]), the
    modification time. *)
Definition Key := (bool * Date.t * Q)%type.

Definition sort_key (item : SpecFile) : Key :=
  (match dated_key item with Some _ => true | None => false end,
   match dated_key item with Some d => d | None => Date.min end,
   mtime item).

Definition Qgtb (a b : Q) : bool :=
  match Qcompare a b with Gt => true | _ => false end.

(** Tuple comparison [a > b]: the first pair of unequal components
    decides. *)
Definition key_gt (a b : Key) : bool :=
  match a, b with
  | (pa, da, ma), (pb, db, mb) =>
      if negb (Bool.eqb pa pb) then pa && negb pb
      else if negb (Date.eqb da db) then Date.gtb da db
      else Qgtb ma mb
  end.

(** ** The store of [SpecFile] objects *)

#[global] Instance SpecFile_inhabited : Inhabited SpecFile :=
  populate {| path := []; prefix := ""; token := ""; tail := ""; mtime := 0%Q |}.

(** The object behind a reference. *)
Definition obj (store : list SpecFile) (r : nat) : SpecFile := store !!! r.

(** The current objects of a list of references. *)
Definition view (store : list SpecFile) (refs : list nat) : list SpecFile :=
  map (obj store) refs.

Definition set_token (r : nat) (tok : string) (store : list SpecFile) : list SpecFile :=
  let s := obj store r in
  <[r := {| path := path s; prefix := prefix s; token := tok; tail := tail s;
            mtime := mtime s |}]> store.

Definition set_path (r : nat) (p : Path) (store : list SpecFile) : list SpecFile :=
  let s := obj store r in
  <[r := {| path := p; prefix := prefix s; token := token s; tail := tail s;
            mtime := mtime s |}]> store.

(** [max(dupes, key=...)]: the first of the items with the largest key. *)
Fixpoint max_by_key (store : list SpecFile) (best : nat) (rest : list nat) : nat :=
  match rest with
  | [] => best
  | r :: rest' =>
      max_by_key store
        (if key_gt (sort_key (obj store r)) (sort_key (obj store best)) then r else best)
        rest'
  end.

(** ** Grouping *)

(** [scoped = [s for s in specs if s.prefix == prefix]], as references. *)
Definition scoped_refs (store : list SpecFile) (pre : string) : list nat :=
  List.filter (fun r => String.eqb (prefix (obj store r)) pre) (seq 0 (length store)).

(** [groups.setdefault(token, []).append(spec)] on a dictionary kept in
    insertion order. *)
Fixpoint setdefault_append (groups : list (string * list nat)) (tok : string) (r : nat)
  : list (string * list nat) :=
  match groups with
  | [] => [(tok, [r])]
  | (k, l) :: groups' =>
      if String.eqb k tok then (k, l ++ [r]) :: groups'
      else (k, l) :: setdefault_append groups' tok r
  end.

Definition group_by_token (store : list SpecFile) (scoped : list nat)
  : list (string * list nat) :=
  fold_left (fun groups r => setdefault_append groups (token (obj store r)) r) scoped [].

(** [sorted(groups.items())]: the keys of a dictionary are distinct, so
    the comparison of two items is decided by the tokens. *)
Definition item_lt (a b : string * list nat) : bool := String.ltb (fst a) (fst b).

Fixpoint insert_sorted (x : string * list nat) (l : list (string * list nat))
  : list (string * list nat) :=
  match l with
  | [] => [x]
  | y :: l' => if item_lt x y then x :: l else y :: insert_sorted x l'
  end.

Definition sorted (l : list (string * list nat)) : list (string * list nat) :=
  fold_left (fun acc x => insert_sorted x acc) l [].


(** ** State and exceptions *)

(** What a run can read and change: the [SpecFile] objects of the list
    [specs], the file system, and the lines printed so far. *)
Record World := { heap : list SpecFile; disk : FS; out : list string }.

Definition M (A : Type) : Type := World -> World * (Exn + A).

Definition ret {A} (a : A) : M A := fun w => (w, inr a).

Definition bind {A B} (m : M A) (k : A -> M B) : M B :=
  fun w =>
    match m w with
    | (w', inr a) => k a w'
    | (w', inl e) => (w', inl e)
    end.

Declare Scope io_scope.
Delimit Scope io_scope with io.
Notation "x <- m ;; k" := (bind m (fun x => k))
  (at level 100, m at next level, right associativity) : io_scope.
Notation "m ;; k" := (bind m (fun _ => k))
  (at level 100, right associativity) : io_scope.
Local Open Scope io_scope.

Definition print (line : string) : M unit :=
  fun w => ({| heap := heap w; disk := disk w; out := out w ++ [line] |}, inr tt).

Definition get_heap : M (list SpecFile) := fun w => (w, inr (heap w)).

Definition modify_heap (f : list SpecFile -> list SpecFile) : M unit :=
  fun w => ({| heap := f (heap w); disk := disk w; out := out w |}, inr tt).

Definition get_disk : M FS := fun w => (w, inr (disk w)).

Definition put_disk (fs : FS) : M unit :=
  fun w => ({| heap := heap w; disk := fs; out := out w |}, inr tt).

(** A file-system call: its result or its exception. *)
Definition io {A} (call : FS -> Exn + A) : M A := fun w => (w, call (disk w)).

Definition when (b : bool) (m : M unit) : M unit := if b then m else ret tt.

(** A [for] loop that carries the local variable [acc]. *)
Fixpoint for_each {A S} (l : list A) (acc : S) (body : S -> A -> M S) : M S :=
  match l with
  | [] => ret acc
  | x :: l' => acc' <- body acc x ;; for_each l' acc' body
  end.

(** ** Rewriting references *)

(** The files that [os.walk(repo_root)] reaches: those below the root
    with no directory of [SKIP_DIRS] on the way down. *)
Definition walked (repo_root : Path) (f : File) : bool :=
  match PurePath.relative_to (fpath f) repo_root with
  | Some (c :: rel) =>
      forallb (fun d => negb (str_in d SKIP_DIRS)) (removelast (c :: rel))
  | _ => false
  end.

(** The body of the inner loop of [replace_in_text_files] for one file
    (each path names one file, so reading the path reads this entry). *)
Definition visit_file (old_base_name new_base_name : string) (dry_run : bool)
    (now : Q) (f : File) (changed : nat) : File * nat :=
  if negb (str_in (Py.lower (PurePath.suffix (fpath f))) TEXT_EXTENSIONS)
  then (f, changed)
  else
    match decode (fdata f) with
    | inl _ => (f, changed)
    | inr content =>
        let updated := Py.replace old_base_name new_base_name content in
        if String.eqb updated content then (f, changed)
        else (if dry_run then f
              else {| fpath := fpath f; fdata := Text updated; fmtime := now |},
              S changed)
    end.

Fixpoint walk_files (repo_root : Path) (old_base_name new_base_name : string)
    (dry_run : bool) (now : Q) (fl : list File) (changed : nat) : list File * nat :=
  match fl with
  | [] => ([], changed)
  | f :: rest =>
      let '(f', changed') :=
        if walked repo_root f
        then visit_file old_base_name new_base_name dry_run now f changed
        else (f, changed) in
      let '(rest', n) :=
        walk_files repo_root old_base_name new_base_name dry_run now rest changed' in
      (f' :: rest', n)
  end.

Definition replace_in_text_files (repo_root : Path)
    (old_base_name new_base_name : string) (dry_run : bool) : M nat :=
  fs <- get_disk ;;
  let '(fl, changed) :=
    walk_files repo_root old_base_name new_base_name dry_run (clock fs) (files fs) 0 in
  put_disk {| dirs := dirs fs; files := fl; clock := clock fs;
              dir_mtime := dir_mtime fs |} ;;
  ret changed.

Definition read_text (p : Path) : M string := io (fun fs => Fs.read_text fs p).

Definition write_text (p : Path) (s : string) : M unit :=
  fs' <- io (fun fs => Fs.write_text fs p s) ;; put_disk fs'.

Definition rename (src dst : Path) : M unit :=
  fs' <- io (fun fs => Fs.rename fs src dst) ;; put_disk fs'.

Definition replace_in_file (p : Path) (old new : string) (dry_run : bool) : M bool :=
  content <- read_text p ;;
  let updated := Py.replace old new content in
  if String.eqb updated content then ret false
  else
    when (negb dry_run) (write_text p updated) ;;
    ret true.

(** ** Resolving the conflicts of one prefix family *)

Definition make_file_name (pre tok tl : string) : string :=
  (pre ++ "-" ++ tok ++ "-" ++ tl ++ ".md")%string.

Definition conflict_line (pre tok old_base new_file_name : string) : string :=
  ("Conflict " ++ pre ++ "-" ++ tok ++ ": move newest " ++ old_base ++ " -> "
     ++ new_file_name)%string.

Definition ref_updates_line (ref_updates : nat) : string :=
  ("  Updated filename references in " ++ Py.str (N.of_nat ref_updates)
     ++ " text file(s)")%string.

Definition spec_id_line (old_spec_id new_spec_id : string) : string :=
  ("  Updated in-file spec id " ++ old_spec_id ++ " -> " ++ new_spec_id)%string.

(** The body of the loop over the sorted groups; [scoped] and [width]
    were computed before the loop, the objects are read when the body
    runs. *)
Definition resolve_group (repo_root : Path) (pre : string) (dry_run : bool)
    (scoped : list nat) (width : nat)
    (conflict_count : nat) (item : string * list nat) : M nat :=
  let '(tok, dupes) := item in
  match dupes with
  | first :: (_ :: _) as others =>
      let conflict_count := S conflict_count in
      store <- get_heap ;;
      let newest_ref := max_by_key store first others in
      let newest := obj store newest_ref in
      let new_token := next_numeric_token (view store scoped) width in
      let new_file_name := make_file_name (prefix newest) new_token (tail newest) in
      let new_path := PurePath.with_name (path newest) new_file_name in
      print (conflict_line pre tok (base_name newest) new_file_name) ;;
      ref_updates <-
        replace_in_text_files repo_root (base_name newest) new_file_name dry_run ;;
      print (ref_updates_line ref_updates) ;;
      let old_spec_id := spec_id newest in
      let new_spec_id := make_spec_id (prefix newest) new_token in
      id_updated <- replace_in_file (path newest) old_spec_id new_spec_id dry_run ;;
      when id_updated (print (spec_id_line old_spec_id new_spec_id)) ;;
      when (negb dry_run) (rename (path newest) new_path) ;;
      modify_heap (set_token newest_ref new_token) ;;
      modify_heap (set_path newest_ref new_path) ;;
      ret conflict_count
  | _ => ret conflict_count
  end.

(** The list [specs] of the source is the store itself. *)
Definition resolve_conflicts_for_prefix (repo_root : Path) (pre : string)
    (dry_run : bool) : M nat :=
  store <- get_heap ;;
  let scoped := scoped_refs store pre in
  let groups := group_by_token store scoped in
  let width := family_width (view store scoped) in
  for_each (sorted groups) 0%nat (resolve_group repo_root pre dry_run scoped width).

(** ** The command *)

Definition no_roots_line : string := "No specs roots found (.ai/specs or ai/specs).".

Definition no_specs_line (specs_root : Path) : string :=
  ("No specs found in " ++ PurePath.to_string specs_root)%string.

Definition scanning_line (specs_root : Path) : string :=
  ("Scanning " ++ PurePath.to_string specs_root)%string.

Definition no_conflicts_line : string := "No spec number conflicts found.".

Definition resolved_line (total_conflicts : nat) (dry_run : bool) : string :=
  ("Resolved " ++ Py.str (N.of_nat total_conflicts) ++ " conflict(s) in "
     ++ (if dry_run then "dry-run" else "apply") ++ " mode.")%string.

(** The body of the loop over the registry roots. *)
Definition scan_root (repo_root : Path) (dry_run : bool)
    (total_conflicts : nat) (specs_root : Path) : M nat :=
  fs <- get_disk ;;
  let specs := iter_spec_files fs specs_root in
  modify_heap (fun _ => specs) ;;
  match specs with
  | [] => print (no_specs_line specs_root) ;; ret total_conflicts
  | _ =>
      print (scanning_line specs_root) ;;
      oss <- resolve_conflicts_for_prefix repo_root OSS_PREFIX dry_run ;;
      let total_conflicts := (total_conflicts + oss)%nat in
      ent <- resolve_conflicts_for_prefix repo_root ENT_PREFIX dry_run ;;
      ret (total_conflicts + ent)%nat
  end.

(** [main] on the parsed arguments: [apply] is the [--apply] flag and
    [repo_root] the resolved [--root]; the result is the exit status. *)
Definition main (repo_root : Path) (apply : bool) : M nat :=
  let dry_run := negb apply in
  fs <- get_disk ;;
  let specs_roots := find_specs_root fs repo_root in
  match specs_roots with
  | [] => print no_roots_line ;; ret 1%nat
  | _ =>
      total_conflicts <- for_each specs_roots 0%nat (scan_root repo_root dry_run) ;;
      (if (total_conflicts =? 0)%nat then print no_conflicts_line
       else print (resolved_line total_conflicts dry_run)) ;;
      ret 0%nat
  end.

(** A run of the command on a file system. *)
Definition run (fs : FS) (repo_root : Path) (apply : bool) : World * (Exn + nat) :=
  main repo_root apply {| heap := []; disk := fs; out := [] |}.


(** ** The allocator as the specification words it *)

(** The purely numeric tokens in use. *)
Definition numeric_tokens (specs : list SpecFile) : list string :=
  List.filter Py.isdigit (map token specs).

(** The largest integer among them, zero when there is none. *)
Definition max_used_number (specs : list SpecFile) : N :=
  fold_right N.max 0%N (map Py.int (numeric_tokens specs)).

Definition allocated_number (specs : list SpecFile) : N := (max_used_number specs + 1)%N.

(** A numeral padded with zeros on the left up to [width] characters. *)
Definition pad_to (width : nat) (numeral : string) : string :=
  (Py.zeros (width - String.length numeral) ++ numeral)%string.

(** The longest numeric token, 3 when no token is numeric. *)
Definition minimum_width (specs : list SpecFile) : nat :=
  match numeric_tokens specs with
  | [] => 3%nat
  | l => fold_right Nat.max 0%nat (map String.length l)
  end.

(** ** The effect of a run on the records *)

(** What one pass of the loop body does to the objects when it runs to
    its end: nothing for a group of fewer than two, and otherwise the
    two assignments to [newest]. *)
Definition renumber_group (scoped : list nat) (width : nat)
    (store : list SpecFile) (item : string * list nat) : list SpecFile :=
  match snd item with
  | first :: (_ :: _) as others =>
      let newest_ref := max_by_key store first others in
      let newest := obj store newest_ref in
      let new_token := next_numeric_token (view store scoped) width in
      let new_path :=
        PurePath.with_name (path newest)
          (make_file_name (prefix newest) new_token (tail newest)) in
      set_path newest_ref new_path (set_token newest_ref new_token store)
  | _ => store
  end.

(** The line that announces the conflict of a group, if it is one. *)
Definition announce_group (pre : string) (scoped : list nat) (width : nat)
    (store : list SpecFile) (item : string * list nat) : list string :=
  match snd item with
  | first :: (_ :: _) as others =>
      let newest := obj store (max_by_key store first others) in
      let new_token := next_numeric_token (view store scoped) width in
      [conflict_line pre (fst item) (base_name newest)
         (make_file_name (prefix newest) new_token (tail newest))]
  | _ => []
  end.

Definition is_conflict (item : string * list nat) : bool :=
  match snd item with
  | _ :: _ :: _ => true
  | _ => false
  end.

(** The two kinds of line that report what was found on the disk: the
    count of files with references and the in-file identifier. *)
Definition is_updated_line (line : string) : bool := Py.startswith line "  Updated ".

(** The output without those lines. *)
Definition report_lines (lines : list string) : list string :=
  List.filter (fun line => negb (is_updated_line line)) lines.

(** The records after the loop has gone through [items]. *)
Definition renumber_all (scoped : list nat) (width : nat)
    (items : list (string * list nat)) (store : list SpecFile) : list SpecFile :=
  fold_left (renumber_group scoped width) items store.

(** The conflict lines of a loop that goes through [items]. *)
Fixpoint announce_all (pre : string) (scoped : list nat) (width : nat)
    (items : list (string * list nat)) (store : list SpecFile) : list string :=
  match items with
  | [] => []
  | item :: rest =>
      announce_group pre scoped width store item
        ++ announce_all pre scoped width rest (renumber_group scoped width store item)
  end.

Definition count_conflicts (items : list (string * list nat)) : nat :=
  length (List.filter is_conflict items).

(** The groups of a family in the order in which the loop takes them. *)
Definition family_items (store : list SpecFile) (pre : string) : list (string * list nat) :=
  sorted (group_by_token store (scoped_refs store pre)).

(** The records after a completed pass over the family [pre]. *)
Definition renumber_family (pre : string) (store : list SpecFile) : list SpecFile :=
  renumber_all (scoped_refs store pre)
    (family_width (view store (scoped_refs store pre)))
    (family_items store pre) store.

(** The conflict lines of a completed pass over the family [pre]. *)
Definition announce_family (pre : string) (store : list SpecFile) : list string :=
  announce_all pre (scoped_refs store pre)
    (family_width (view store (scoped_refs store pre)))
    (family_items store pre) store.

(** ** Groups and their sizes *)

(** The references of [l] whose token, read through [tokf], is [t]. *)
Definition members (tokf : nat -> string) (t : string) (l : list nat) : list nat :=
  List.filter (fun r => String.eqb (tokf r) t) l.

(** The number of records among [scoped] that carry the token [t]. *)
Definition group_count (scoped : list nat) (store : list SpecFile) (t : string) : nat :=
  length (members (fun r => token (obj store r)) t scoped).

(** What the dictionary of groups built from the references [seen]
    looks like: one entry per token, holding the references with that
    token in the order of [seen]. *)
Definition groups_of (tokf : nat -> string) (seen : list nat)
    (groups : list (string * list nat)) : Prop :=
  List.NoDup (map fst groups)
  /\ (forall t d, List.In (t, d) groups -> d = members tokf t seen /\ d <> [])
  /\ (forall r, List.In r seen -> List.In (tokf r) (map fst groups)).


(** What holds of the records while the loop is under way, [remaining]
    being the groups still to come: a record is as it was at the start
    or carries a token that nobody had and nobody else has; the groups
    to come are intact; the groups gone through have lost one member if
    they had two or more. *)
Definition loop_inv (store0 : list SpecFile) (scoped : list nat)
    (store : list SpecFile) (remaining : list (string * list nat)) : Prop :=
  length store = length store0
  /\ (forall r,
        obj store r = obj store0 r
        \/ (List.In r scoped
            /\ prefix (obj store r) = prefix (obj store0 r)
            /\ tail (obj store r) = tail (obj store0 r)
            /\ mtime (obj store r) = mtime (obj store0 r)
            /\ token (obj store r) <> token (obj store0 r)
            /\ group_count scoped store0 (token (obj store r)) = 0%nat
            /\ group_count scoped store (token (obj store r)) = 1%nat))
  /\ List.NoDup (map fst remaining)
  /\ (forall t d, List.In (t, d) remaining ->
        d = List.filter (fun r => String.eqb (token (obj store r)) t) scoped
        /\ d <> []
        /\ group_count scoped store t = group_count scoped store0 t)
  /\ (forall t, ~ List.In t (map fst remaining) ->
        ((2 <= group_count scoped store0 t)%nat ->
         group_count scoped store t = (group_count scoped store0 t - 1)%nat)
        /\ (group_count scoped store0 t = 1%nat -> group_count scoped store t = 1%nat)
        /\ (group_count scoped store0 t = 0%nat -> (group_count scoped store t <= 1)%nat)).

(** The tokens of the records of a family, one per record. *)
Definition family_tokens (store : list SpecFile) (pre : string) : list string :=
  map token (view store (scoped_refs store pre)).

(** The number of records that carry the token [t]. *)
Definition group_size (toks : list string) (t : string) : nat :=
  count_occ string_dec toks t.

(** The size of the largest group, 0 for an empty family. *)
Definition max_group_size (toks : list string) : nat :=
  list_max (map (group_size toks) toks).

(** ** Repeated runs *)

(** A pass in apply mode that returns, seen on the records. *)
Definition completed_apply_pass (pre : string) (before after : list SpecFile) : Prop :=
  exists root w w' n,
    heap w = before
    /\ resolve_conflicts_for_prefix root pre false w = (w', inr n)
    /\ heap w' = after.

(** [k] passes in apply mode, each made because some group still had
    two members or more.  The next run scans the renamed files again:
    it finds the prefix and the token that each record was left with,
    in some order and with the modification times of the moment. *)
Inductive apply_passes (pre : string) : nat -> list SpecFile -> list SpecFile -> Prop :=
| passes_none (store : list SpecFile) : apply_passes pre 0 store store
| passes_more (k : nat) (store after rescanned final : list SpecFile) :
    (2 <= max_group_size (family_tokens store pre))%nat ->
    completed_apply_pass pre store after ->
    Permutation (family_tokens after pre) (family_tokens rescanned pre) ->
    apply_passes pre k rescanned final ->
    apply_passes pre (S k) store final.

(** A computation that leaves the file system as it found it, whether it
    returns or raises. *)
Definition keeps_disk {A} (m : M A) : Prop := forall w, disk (fst (m w)) = disk w.

(** ** Example repositories *)

(** A repository whose [.ai/specs] is a regular file and not a
    directory. *)
Definition specs_is_a_file : FS :=
  {| dirs := [["repo"]; ["repo"; ".ai"]];
     files := [ {| fpath := ["repo"; ".ai"; "specs"]; fdata := Text "notes"; fmtime := 1 |} ];
     clock := 5;
     dir_mtime := fun _ => 1%Q |}.

(** Two documents with the token 003: one with a date in its tail and
    the older modification time, one without a date and the newer
    modification time. *)
Definition dated_and_undated : FS :=
  {| dirs := [["repo"]; ["repo"; ".ai"]; ["repo"; ".ai"; "specs"]];
     files :=
       [ {| fpath := ["repo"; ".ai"; "specs"; "SPEC-003-2024-01-05-intro.md"];
            fdata := Text "intro"; fmtime := 1 |};
         {| fpath := ["repo"; ".ai"; "specs"; "SPEC-003-foo.md"];
            fdata := Text "foo"; fmtime := 2 |} ];
     clock := 5;
     dir_mtime := fun _ => 1%Q |}.

(** What the walk of [replace_in_text_files] does to one file. *)
Definition walk_one (repo_root : Path) (old_base_name new_base_name : string)
    (dry_run : bool) (now : Q) (f : File) : File :=
  if walked repo_root f
  then fst (visit_file old_base_name new_base_name dry_run now f 0)
  else f.

(** ** The two substitutions of one resolved conflict, one after the
    other *)

(** The text documents that the walk of the repository reaches. *)
Definition is_scanned_text (repo_root : Path) (f : File) : bool :=
  walked repo_root f && str_in (Py.lower (PurePath.suffix (fpath f))) TEXT_EXTENSIONS.

(** Every occurrence of [old] replaced by [new] in a text; bytes that do
    not decode stay as they are. *)
Definition substitute (old new : string) (d : FileData) : FileData :=
  match d with
  | Text c => Text (Py.replace old new c)
  | Undecodable raw => Undecodable raw
  end.

(** Filename reference propagation, on one file. *)
Definition propagate_file_name (repo_root : Path) (old_base new_base : string)
    (f : File) : FileData :=
  if is_scanned_text repo_root f then substitute old_base new_base (fdata f)
  else fdata f.

(** Where a file is and what it holds once the conflict is resolved:
    first the file names are propagated everywhere; then, in the renamed
    file only, the identifier is replaced in the text that the first
    substitution has left there (the new file names that it has written
    included); and that file moves to its new path. *)
Definition resolved_file (repo_root renamed new_path : Path)
    (old_base new_base old_id new_id : string) (f : File) : Path * FileData :=
  let d := propagate_file_name repo_root old_base new_base f in
  if PurePath.eqb (fpath f) renamed then (new_path, substitute old_id new_id d)
  else (fpath f, d).

Definition path_and_data (f : File) : Path * FileData := (fpath f, fdata f).

(** A document that mentions its own file name, and an older document
    with the same token. *)
Definition self_reference : FS :=
  {| dirs := [["repo"]; ["repo"; ".ai"]; ["repo"; ".ai"; "specs"]];
     files :=
       [ {| fpath := ["repo"; ".ai"; "specs"; "SPEC-003-a.md"];
            fdata := Text "alpha"; fmtime := 1 |};
         {| fpath := ["repo"; ".ai"; "specs"; "SPEC-003-b.md"];
            fdata := Text "# SPEC-003-b.md"; fmtime := 2 |} ];
     clock := 5;
     dir_mtime := fun _ => 1%Q |}.

(** Tokens of one digit: the new token 10 starts with the old token 1,
    and the newer document mentions its own file name. *)
Definition one_digit_tokens : FS :=
  {| dirs := [["repo"]; ["repo"; ".ai"]; ["repo"; ".ai"; "specs"]];
     files :=
       [ {| fpath := ["repo"; ".ai"; "specs"; "SPEC-1-a.md"];
            fdata := Text "a"; fmtime := 1 |};
         {| fpath := ["repo"; ".ai"; "specs"; "SPEC-1-b.md"];
            fdata := Text "# SPEC-1-b.md"; fmtime := 2 |};
         {| fpath := ["repo"; ".ai"; "specs"; "SPEC-9-c.md"];
            fdata := Text "c"; fmtime := 1 |} ];
     clock := 5;
     dir_mtime := fun _ => 1%Q |}.

(** A document whose tail holds its own identifier, and that mentions
    its own file name. *)
Definition identifier_in_tail : FS :=
  {| dirs := [["repo"]; ["repo"; ".ai"]; ["repo"; ".ai"; "specs"]];
     files :=
       [ {| fpath := ["repo"; ".ai"; "specs"; "SPEC-003-a.md"];
            fdata := Text "a"; fmtime := 1 |};
         {| fpath := ["repo"; ".ai"; "specs"; "SPEC-003-replaces-SPEC-003-a.md"];
            fdata := Text "# SPEC-003-replaces-SPEC-003-a.md"; fmtime := 2 |} ];
     clock := 5;
     dir_mtime := fun _ => 1%Q |}.

(** The last line that [main] prints after its loop. *)
Definition summary_line (total_conflicts : nat) (dry_run : bool) : string :=
  if (total_conflicts =? 0)%nat then no_conflicts_line
  else resolved_line total_conflicts dry_run.

(** Two conflicts in one family. *)
Definition two_conflicts : FS :=
  {| dirs := [["repo"]; ["repo"; ".ai"]; ["repo"; ".ai"; "specs"]];
     files :=
       [ {| fpath := ["repo"; ".ai"; "specs"; "SPEC-001-a.md"];
            fdata := Text "a"; fmtime := 1 |};
         {| fpath := ["repo"; ".ai"; "specs"; "SPEC-001-b.md"];
            fdata := Text "b"; fmtime := 2 |};
         {| fpath := ["repo"; ".ai"; "specs"; "SPEC-002-c.md"];
            fdata := Text "c"; fmtime := 1 |};
         {| fpath := ["repo"; ".ai"; "specs"; "SPEC-002-d.md"];
            fdata := Text "d"; fmtime := 2 |} ];
     clock := 5;
     dir_mtime := fun _ => 1%Q |}.

(** The newer of two documents with the token 003 does not decode. *)
Definition undecodable_spec : FS :=
  {| dirs := [["repo"]; ["repo"; ".ai"]; ["repo"; ".ai"; "specs"]];
     files :=
       [ {| fpath := ["repo"; ".ai"; "specs"; "SPEC-003-a.md"];
            fdata := Text "alpha"; fmtime := 1 |};
         {| fpath := ["repo"; ".ai"; "specs"; "SPEC-003-b.md"];
            fdata := Undecodable [Byte.xff; Byte.xfe]; fmtime := 2 |} ];
     clock := 5;
     dir_mtime := fun _ => 1%Q |}.

(** The file name of the second conflict contains the file name of the
    first, and a note refers to it. *)
Definition nested_file_names : FS :=
  {| dirs := [["repo"]; ["repo"; ".ai"]; ["repo"; ".ai"; "specs"]];
     files :=
       [ {| fpath := ["repo"; ".ai"; "specs"; "SPEC-003-a.md"];
            fdata := Text "a"; fmtime := 1 |};
         {| fpath := ["repo"; ".ai"; "specs"; "SPEC-003-b.md"];
            fdata := Text "b"; fmtime := 2 |};
         {| fpath := ["repo"; ".ai"; "specs"; "SPEC-005-c.md"];
            fdata := Text "c"; fmtime := 1 |};
         {| fpath := ["repo"; ".ai"; "specs"; "SPEC-005-SPEC-003-b.md"];
            fdata := Text "d"; fmtime := 2 |};
         {| fpath := ["repo"; "notes.txt"];
            fdata := Text "see SPEC-005-SPEC-003-b.md"; fmtime := 1 |} ];
     clock := 5;
     dir_mtime := fun _ => 1%Q |}.

(** Two registry roots; a document of the second refers to a document
    that is renamed in the first. *)
Definition two_roots : FS :=
  {| dirs := [["repo"]; ["repo"; ".ai"]; ["repo"; ".ai"; "specs"];
              ["repo"; "ai"]; ["repo"; "ai"; "specs"]];
     files :=
       [ {| fpath := ["repo"; ".ai"; "specs"; "SPEC-003-a.md"];
            fdata := Text "a"; fmtime := 1 |};
         {| fpath := ["repo"; ".ai"; "specs"; "SPEC-003-b.md"];
            fdata := Text "b"; fmtime := 2 |};
         {| fpath := ["repo"; "ai"; "specs"; "SPEC-001-x.md"];
            fdata := Text "see SPEC-003-b.md"; fmtime := 1 |};
         {| fpath := ["repo"; "ai"; "specs"; "SPEC-001-y.md"];
            fdata := Text "y"; fmtime := 2 |} ];
     clock := 5;
     dir_mtime := fun _ => 1%Q |}.

(** The world of [main] once it has scanned [specs_root]. *)
Definition scanned (fs : FS) (specs_root : Path) : World :=
  {| heap := iter_spec_files fs specs_root; disk := fs; out := [] |}.

Definition the_specs_root : Path := ["repo"; ".ai"; "specs"].

(** ** Records and files in step *)

(** What a scan reads off the place and the name of a file. *)
Definition record_key (s : SpecFile) : Path * string * string * string :=
  (path s, prefix s, token s, tail s).

(** The key that [iter_spec_files] makes of a file at [p], if it makes
    a record of it. *)
Definition scan_path (specs_root p : Path) : list (Path * string * string * string) :=
  match PurePath.relative_to p specs_root with
  | Some (_ :: _) =>
      if Py.endswith (PurePath.name p) ".md" then
        if String.eqb (PurePath.name (PurePath.parent p)) "analysis" then []
        else match match_name (PurePath.name p) with
             | None => []
             | Some (pre, tok, tl) => [(p, pre, tok, tl)]
             end
      else []
  | _ => []
  end.

(** A file system that names each file once and in which no directory
    is named like a document. *)
Definition wf_disk (fs : FS) : Prop :=
  List.NoDup (map fpath (files fs))
  /\ forall d, List.In d (dirs fs) -> Py.endswith (PurePath.name d) ".md" = false.

(** The records are those that a scan of the disk would find now. *)
Definition in_sync (specs_root : Path) (w : World) : Prop :=
  map record_key (iter_spec_files (disk w) specs_root) = map record_key (heap w).

(** Every file that scans as a spec document decodes. *)
Definition specs_text (specs_root : Path) (fs : FS) : Prop :=
  forall f, List.In f (files fs) -> scan_path specs_root (fpath f) <> [] ->
            exists c, fdata f = Text c.

(** No directory scans as a spec document: the records of the registry
    stand for regular files. *)
Definition specs_are_files (specs_root : Path) (fs : FS) : Prop :=
  forall d, List.In d (dirs fs) -> scan_path specs_root d = [].

(** Two registry roots that never claim the same path. *)
Definition apart (r1 r2 : Path) : Prop :=
  forall p, scan_path r1 p <> [] -> scan_path r2 p = [].

(** What the work on the registry [specs_root] in apply mode keeps from
    a world [w] to a later one [w']: the disk stays well formed, the
    records and the files of the registry are in step, the directories
    are the same, documents that decoded still do, and a registry apart
    from this one finds what it found. *)
Definition evolves (specs_root : Path) (w w' : World) : Prop :=
  wf_disk (disk w') /\ in_sync specs_root w'
  /\ dirs (disk w') = dirs (disk w)
  /\ (forall r, specs_text r (disk w) -> specs_text r (disk w'))
  /\ (forall r, apart r specs_root ->
        flat_map (scan_path r) (map fpath (files (disk w')))
        = flat_map (scan_path r) (map fpath (files (disk w)))).

(** ** Runs on the disk *)

(** Between two scans of a family: every group of two or more has lost
    one member, a group of one is as it was, and a token that nobody
    carried is carried by one record at most. *)
Definition one_less (before after : list string) : Prop :=
  forall t,
    ((2 <= group_size before t)%nat ->
     group_size after t = (group_size before t - 1)%nat)
    /\ (group_size before t = 1%nat -> group_size after t = 1%nat)
    /\ (group_size before t = 0%nat -> (group_size after t <= 1)%nat).

(** The disk that a run of the command with [--apply] leaves. *)
Definition apply_run (repo_root : Path) (fs : FS) : FS :=
  disk (fst (run fs repo_root true)).

Fixpoint apply_runs (repo_root : Path) (k : nat) (fs : FS) : FS :=
  match k with
  | O => fs
  | S k' => apply_runs repo_root k' (apply_run repo_root fs)
  end.


(** ** Notions for the further properties *)

(** The token group of the name pattern: a digit, then letters and
    digits. *)
Definition token_shape (tok : string) : bool :=
  Py.is_ascii_digit (char_at 0 tok) && Py.all_chars Py.is_alnum tok.

(** The files that [replace_in_text_files] counts: the text documents
    that the walk reaches, that decode and that the substitution
    changes. *)
Definition rewritten (repo_root : Path) (old new : string) (f : File) : bool :=
  is_scanned_text repo_root f
  && match fdata f with
     | Text c => negb (String.eqb (Py.replace old new c) c)
     | Undecodable _ => false
     end.

(** Such a file once it is written again. *)
Definition rewrite_file (old new : string) (now : Q) (f : File) : File :=
  {| fpath := fpath f; fdata := substitute old new (fdata f); fmtime := now |}.

(** The lines that announce a conflict. *)
Definition is_conflict_line (line : string) : bool := Py.startswith line "Conflict ".

(** The line that [main] prints when it comes to a registry. *)
Definition registry_line (fs : FS) (specs_root : Path) : string :=
  match iter_spec_files fs specs_root with
  | [] => no_specs_line specs_root
  | _ => scanning_line specs_root
  end.

(** A registry with a directory that is named like a document and has
    the token of a document. *)
Definition document_directory : FS :=
  {| dirs := [["repo"]; ["repo"; ".ai"]; ["repo"; ".ai"; "specs"];
              ["repo"; ".ai"; "specs"; "SPEC-003-z.md"]];
     files :=
       [ {| fpath := ["repo"; ".ai"; "specs"; "SPEC-003-a.md"];
            fdata := Text "a"; fmtime := 1 |} ];
     clock := 5;
     dir_mtime := fun _ => 3%Q |}.

(** A registry in which no two documents share a token. *)
Definition clean_registry : FS :=
  {| dirs := [["repo"]; ["repo"; ".ai"]; ["repo"; ".ai"; "specs"]];
     files :=
       [ {| fpath := ["repo"; ".ai"; "specs"; "SPEC-001-a.md"];
            fdata := Text "a"; fmtime := 1 |};
         {| fpath := ["repo"; ".ai"; "specs"; "SPEC-ENT-001-b.md"];
            fdata := Text "b"; fmtime := 2 |} ];
     clock := 5;
     dir_mtime := fun _ => 1%Q |}.


(** ** Naming of command and event identifiers ([validate_naming.py]) *)

(** The character class of the three parts of an identifier: lower-case
    letters, digits and the dash. *)
Definition is_id_char (c : ascii) : bool :=
  ((97 <=? N_of_ascii c)%N && (N_of_ascii c <=? 122)%N)
  || Py.is_ascii_digit c || Ascii.eqb c "-".

(** The word characters of the pattern language among the code points
    below 256: the ASCII letters and digits, the underscore, and the
    letters, superscript digits and fractions of the upper half. *)
Definition is_word_char (c : ascii) : bool :=
  let n := N_of_ascii c in
  (Py.is_alnum c || Ascii.eqb c "_"
   || (n =? 170) || (n =? 178) || (n =? 179) || (n =? 181) || (n =? 185) || (n =? 186)
   || ((188 <=? n) && (n <=? 190))
   || ((192 <=? n) && (n <=? 214))
   || ((216 <=? n) && (n <=? 246))
   || (248 <=? n))%N.

Definition is_word (c : option ascii) : bool :=
  match c with
  | Some a => is_word_char a
  | None => false
  end.

(** The word boundary between two neighbours; [None] is an end of the
    text. *)
Definition boundary (prev next : option ascii) : bool :=
  xorb (is_word prev) (is_word next).

Definition head (s : string) : option ascii :=
  match s with
  | EmptyString => None
  | String c _ => Some c
  end.

(** The longest way into [run], a stretch of identifier characters that
    comes after [prev] and before [after], that ends at a word boundary:
    the number of characters taken. *)
Fixpoint last_boundary (prev : ascii) (run : string) (after : option ascii) : option nat :=
  match run with
  | EmptyString => if boundary (Some prev) after then Some 0%nat else None
  | String c r =>
      match last_boundary c r after with
      | Some k => Some (S k)
      | None => if boundary (Some prev) (Some c) then Some 0%nat else None
      end
  end.

(** One attempt of the pattern at the start of [s], the character
    before being [prev]: the three groups and the length of the match.
    The first two groups are whole stretches of identifier characters
    (a shorter one is not followed by a dot); the third one gives
    characters back until it ends at a word boundary. *)
Definition match_id (prev : option ascii) (s : string)
  : option ((string * string * string) * nat) :=
  if boundary prev (head s) then
    let g1 := take_while is_id_char s in
    let s1 := Py.drop (String.length g1) s in
    match g1, s1 with
    | String _ _, String "." s1' =>
        let g2 := take_while is_id_char s1' in
        let s2 := Py.drop (String.length g2) s1' in
        match g2, s2 with
        | String _ _, String "." s2' =>
            match take_while is_id_char s2' with
            | String c r =>
                match last_boundary c r
                        (head (Py.drop (S (String.length r)) s2')) with
                | Some k =>
                    Some ((g1, g2, String c (Py.take k r)),
                          (String.length g1 + 1 + String.length g2 + 1 + S k)%nat)
                | None => None
                end
            | EmptyString => None
            end
        | _, _ => None
        end
    | _, _ => None
    end
  else None.

(** [id_pattern.findall(content)]: the matches from left to right, the
    search going on where a match ends; [skip] counts the characters of
    a match that are still to be passed. *)
Fixpoint findall_ids (prev : option ascii) (skip : nat) (s : string)
  : list (string * string * string) :=
  match s with
  | EmptyString => []
  | String c r =>
      match skip with
      | S k => findall_ids (Some c) k r
      | O =>
          match match_id prev s with
          | Some (groups, len) => groups :: findall_ids (Some c) (len - 1) r
          | None => findall_ids (Some c) 0 r
          end
      end
  end.

Definition common_singular_s : list string :=
  ["status"; "address"; "access"; "process"; "business"; "analysis"; "class"; "mass";
   "pass"].

(** The loop over the matches. *)
Definition naming_violations (content : string) : list string :=
  flat_map
    (fun '(module, entity, action) =>
       if Py.endswith entity "s" && negb (str_in entity common_singular_s)
       then [(module ++ "." ++ entity ++ "." ++ action)%string]
       else [])
    (findall_ids None 0 content).

Definition file_not_found_line (p : Path) : string :=
  ("Error: File not found at " ++ PurePath.to_string p)%string.

(** The two lines that start with a pictograph hold it as the three
    bytes of its UTF-8 form (the cross mark and the check mark lie
    beyond the code points of [string]). *)
Definition violations_header : string :=
  String "226" (String "157" (String "140"
    " Naming violations found (plural entities in IDs):")).

Definition no_violations_line : string :=
  String "226" (String "156" (String "133"
    " No plural entity naming violations found.")).

Definition violation_line (v : string) : string := ("  - " ++ v)%string.

Definition usage_line : string := "Usage: validate_naming.py <spec_file_path>".

(** [validate_naming] on the resolved path; the encoding of the locale,
    with which the file is read, is taken to be UTF-8. *)
Definition validate_naming (p : Path) : M bool :=
  fs <- get_disk ;;
  if negb (Fs.exists_ fs p) then
    print (file_not_found_line p) ;; ret false
  else
    content <- read_text p ;;
    match naming_violations content with
    | [] => print no_violations_line ;; ret true
    | violations =>
        print violations_header ;;
        for_each violations tt (fun _ v => print (violation_line v)) ;;
        ret false
    end.

(** The script run on its arguments; [arg] is the first argument, if
    there is one, as a resolved path; the result is the exit status. *)
Definition validate_naming_main (arg : option Path) : M nat :=
  match arg with
  | None => print usage_line ;; ret 1%nat
  | Some p =>
      ok <- validate_naming p ;;
      ret (if ok then 0 else 1)%nat
  end.

(** The characters of a part written without a dash. *)
Definition is_plain_char (c : ascii) : bool :=
  ((97 <=? N_of_ascii c)%N && (N_of_ascii c <=? 122)%N) || Py.is_ascii_digit c.

(** What sets an identifier off from the text before it: a character
    that is no word character, no dash and no dot. *)
Definition is_separator (c : ascii) : bool :=
  negb (is_word_char c) && negb (is_id_char c) && negb (Ascii.eqb c ".").

(** The characters that a match of the pattern is made of. *)
Definition id_or_dot (c : ascii) : bool := is_id_char c || Ascii.eqb c ".".

(** A document with one plural entity, and one without. *)
Definition naming_examples : FS :=
  {| dirs := [["repo"]];
     files :=
       [ {| fpath := ["repo"; "good.md"];
            fdata := Text "Emits `sales.order.created` and `sales.status.changed`.";
            fmtime := 1 |};
         {| fpath := ["repo"; "bad.md"];
            fdata := Text "Emits `sales.orders.created`.";
            fmtime := 1 |} ];
     clock := 5;
     dir_mtime := fun _ => 1%Q |}.

(** * Properties *)

(** ** Strings *)

Lemma string_app_assoc (a b c : string) : ((a ++ b) ++ c = a ++ (b ++ c))%string.
Proof. induction a as [|x a IH]; simpl; [reflexivity|now rewrite IH]. Qed.

Lemma string_length_app (a b : string) :
  String.length (a ++ b) = (String.length a + String.length b)%nat.
Proof. induction a as [|x a IH]; simpl; [reflexivity|now rewrite IH]. Qed.

(** ** Decimal numerals *)

Section Numerals.

Local Open Scope N_scope.

Lemma digit_value_char (d : N) : d < 10 -> Py.digit_value (Py.digit_char d) = d.
Proof.
  intros H. unfold Py.digit_value, Py.digit_char.
  rewrite N_ascii_embedding by lia. lia.
Qed.

Lemma digit_char_is_digit (d : N) : d < 10 -> Py.is_ascii_digit (Py.digit_char d) = true.
Proof.
  intros H. unfold Py.is_ascii_digit, Py.digit_char.
  rewrite N_ascii_embedding by lia.
  apply andb_true_iff. split; apply N.leb_le; lia.
Qed.

Lemma int_acc_app (s1 s2 : string) (a : N) :
  Py.int_acc a (s1 ++ s2) = Py.int_acc (Py.int_acc a s1) s2.
Proof. revert a. induction s1 as [|c s1 IH]; intros a; simpl; [reflexivity|apply IH]. Qed.

Lemma str_digits_app (f : nat) (n : N) (acc : string) :
  Py.str_digits f n acc = (Py.str_digits f n "" ++ acc)%string.
Proof.
  revert n acc. induction f as [|f IH]; intros n acc; simpl; [reflexivity|].
  destruct (n / 10 =? 0); [reflexivity|].
  rewrite IH. rewrite (IH _ (String _ "")).
  rewrite string_app_assoc. reflexivity.
Qed.

Lemma int_str_digits (f : nat) (n : N) :
  n < 10 ^ N.of_nat f -> Py.int (Py.str_digits f n "") = n.
Proof.
  revert n. induction f as [|f IH]; intros n Hn.
  - simpl in Hn. assert (n = 0) by lia. subst. reflexivity.
  - simpl Py.str_digits. destruct (n / 10 =? 0) eqn:E.
    + apply N.eqb_eq in E. unfold Py.int. simpl.
      rewrite digit_value_char by (apply N.mod_lt; lia).
      pose proof (N.div_mod n 10 ltac:(lia)). lia.
    + rewrite str_digits_app. unfold Py.int. rewrite int_acc_app.
      fold (Py.int (Py.str_digits f (n / 10) "")).
      rewrite IH.
      * simpl. rewrite digit_value_char by (apply N.mod_lt; lia).
        pose proof (N.div_mod n 10 ltac:(lia)). lia.
      * apply N.Div0.div_lt_upper_bound.
        replace (N.of_nat (S f)) with (N.succ (N.of_nat f)) in Hn by lia.
        rewrite N.pow_succ_r' in Hn. lia.
Qed.

Lemma fuel_enough (n : N) : n < 10 ^ N.of_nat (N.to_nat (N.size n) + 1).
Proof.
  replace (N.of_nat (N.to_nat (N.size n) + 1)) with (N.succ (N.size n)) by lia.
  pose proof (N.size_gt n) as H.
  assert (2 ^ N.size n <= 10 ^ N.size n) by (apply N.pow_le_mono_l; lia).
  rewrite N.pow_succ_r'. lia.
Qed.

(** [int(str(n)) == n] *)
Lemma int_str (n : N) : Py.int (Py.str n) = n.
Proof. unfold Py.str. apply int_str_digits, fuel_enough. Qed.

Lemma str_digits_all_digit (f : nat) (n : N) (acc : string) :
  Py.all_chars Py.is_ascii_digit acc = true ->
  Py.all_chars Py.is_ascii_digit (Py.str_digits f n acc) = true.
Proof.
  revert n acc. induction f as [|f IH]; intros n acc Hacc; simpl; [exact Hacc|].
  assert (Py.all_chars Py.is_ascii_digit (String (Py.digit_char (n mod 10)) acc) = true) as H.
  { simpl. rewrite digit_char_is_digit by (apply N.mod_lt; lia). exact Hacc. }
  destruct (n / 10 =? 0); [exact H|]. apply IH, H.
Qed.

Lemma str_digits_nonempty (f : nat) (n : N) (acc : string) :
  Py.str_digits (S f) n acc <> "".
Proof.
  rewrite str_digits_app. simpl Py.str_digits at 1.
  destruct (n / 10 =? 0).
  - simpl. discriminate.
  - rewrite str_digits_app. destruct (Py.str_digits f (n / 10) ""); simpl; discriminate.
Qed.

Lemma str_nonempty (n : N) : Py.str n <> "".
Proof.
  unfold Py.str. replace (N.to_nat (N.size n) + 1)%nat with (S (N.to_nat (N.size n))) by lia.
  apply str_digits_nonempty.
Qed.

Lemma str_all_digit (n : N) : Py.all_chars Py.is_ascii_digit (Py.str n) = true.
Proof. unfold Py.str. apply str_digits_all_digit. reflexivity. Qed.

End Numerals.

(** ** The allocator *)

Lemma zeros_length (k : nat) : String.length (Py.zeros k) = k.
Proof. induction k as [|k IH]; simpl; [reflexivity|now rewrite IH]. Qed.

Lemma int_zeros_app (k : nat) (s : string) : Py.int (Py.zeros k ++ s) = Py.int s.
Proof.
  unfold Py.int. induction k as [|k IH]; simpl; [reflexivity|].
  exact IH.
Qed.

Lemma all_digit_zeros_app (k : nat) (s : string) :
  Py.all_chars Py.is_ascii_digit s = true ->
  Py.all_chars Py.is_ascii_digit (Py.zeros k ++ s) = true.
Proof. intros H. induction k as [|k IH]; simpl; [exact H|exact IH]. Qed.

Lemma isdigit_all_digit (s : string) :
  s <> "" -> Py.all_chars Py.is_ascii_digit s = true -> Py.isdigit s = true.
Proof. destruct s; [congruence|]. intros _ H. exact H. Qed.

Lemma isdigit_pad (w : nat) (n : N) : Py.isdigit (pad_to w (Py.str n)) = true.
Proof.
  apply isdigit_all_digit.
  - unfold pad_to. pose proof (str_nonempty n) as Hne.
    destruct (Py.zeros _); simpl; [exact Hne|discriminate].
  - apply all_digit_zeros_app, str_all_digit.
Qed.

Lemma zfill_str (n : N) (w : nat) : Py.zfill (Py.str n) w = pad_to w (Py.str n).
Proof.
  unfold Py.zfill, pad_to.
  pose proof (str_nonempty n) as Hne. pose proof (str_all_digit n) as Hd.
  destruct (Py.str n) as [|c r]; [congruence|].
  simpl in Hd. apply andb_true_iff in Hd as [Hc _].
  destruct (Ascii.eqb c "+") eqn:E1.
  { apply Ascii.eqb_eq in E1. subst c. discriminate Hc. }
  destruct (Ascii.eqb c "-") eqn:E2.
  { apply Ascii.eqb_eq in E2. subst c. discriminate Hc. }
  reflexivity.
Qed.

Lemma fold_max_number (specs : list SpecFile) (a : N) :
  fold_left max_number_step specs a = N.max a (max_used_number specs).
Proof.
  revert a. induction specs as [|s specs IH]; intros a.
  - unfold max_used_number. simpl. lia.
  - simpl. rewrite IH. unfold max_number_step, max_used_number, numeric_tokens.
    simpl. destruct (Py.isdigit (token s)); simpl; lia.
Qed.

Lemma next_numeric_token_pad (specs : list SpecFile) (min_width : nat) :
  next_numeric_token specs min_width =
  pad_to (Nat.max min_width (String.length (Py.str (allocated_number specs))))
    (Py.str (allocated_number specs)).
Proof.
  unfold next_numeric_token. rewrite fold_max_number, zfill_str.
  unfold allocated_number. rewrite N.max_r by lia. reflexivity.
Qed.

Lemma int_next_numeric_token (specs : list SpecFile) (min_width : nat) :
  Py.int (next_numeric_token specs min_width) = allocated_number specs.
Proof.
  rewrite next_numeric_token_pad. unfold pad_to. rewrite int_zeros_app. apply int_str.
Qed.

Lemma isdigit_next_numeric_token (specs : list SpecFile) (min_width : nat) :
  Py.isdigit (next_numeric_token specs min_width) = true.
Proof. rewrite next_numeric_token_pad. apply isdigit_pad. Qed.

Lemma numeric_tokens_filter (specs : list SpecFile) :
  numeric_tokens (List.filter (fun s => Py.isdigit (token s)) specs) = numeric_tokens specs.
Proof.
  unfold numeric_tokens. induction specs as [|s specs IH]; simpl; [reflexivity|].
  destruct (Py.isdigit (token s)) eqn:E; simpl; rewrite ?E, IH; reflexivity.
Qed.

Lemma fold_width (l : list SpecFile) (w : nat) :
  fold_left (fun w s' => Nat.max w (String.length (token s'))) l w =
  Nat.max w (fold_right Nat.max 0%nat (map String.length (map token l))).
Proof.
  revert w. induction l as [|s l IH]; intros w; simpl; [lia|].
  rewrite IH. lia.
Qed.

Lemma family_width_minimum (specs : list SpecFile) :
  family_width specs = minimum_width specs.
Proof.
  unfold family_width, minimum_width, numeric_tokens.
  assert (map token (List.filter (fun s => Py.isdigit (token s)) specs)
          = List.filter Py.isdigit (map token specs)) as <-.
  { induction specs as [|s specs IH]; simpl; [reflexivity|].
    destruct (Py.isdigit (token s)); simpl; now rewrite IH. }
  destruct (List.filter _ specs) as [|s rest]; [reflexivity|].
  simpl. rewrite fold_width. lia.
Qed.

(** C5. The allocator returns the decimal numeral of one plus the
    largest purely numeric token (of one when there is none), padded
    with zeros to the larger of the minimum width and the numeral's own
    length; tokens that are not purely numeric play no part; and the
    minimum width that [resolve_conflicts_for_prefix] computes before
    its loop is the length of the longest numeric token, 3 when there
    is none. *)
Theorem next_numeric_token_spec (specs : list SpecFile) (min_width : nat) :
  let n := allocated_number specs in
  let tok := next_numeric_token specs min_width in
  tok = pad_to (Nat.max min_width (String.length (Py.str n))) (Py.str n)
  /\ String.length tok = Nat.max min_width (String.length (Py.str n))
  /\ Py.isdigit tok = true
  /\ Py.int tok = n
  /\ (numeric_tokens specs = [] -> n = 1%N)
  /\ next_numeric_token (List.filter (fun s => Py.isdigit (token s)) specs) min_width = tok
  /\ family_width specs = minimum_width specs.
Proof.
  cbv zeta. repeat split.
  - apply next_numeric_token_pad.
  - rewrite next_numeric_token_pad. unfold pad_to.
    rewrite string_length_app, zeros_length. lia.
  - apply isdigit_next_numeric_token.
  - apply int_next_numeric_token.
  - intros H. unfold allocated_number, max_used_number. rewrite H. reflexivity.
  - rewrite !next_numeric_token_pad. unfold allocated_number, max_used_number.
    rewrite numeric_tokens_filter. reflexivity.
  - apply family_width_minimum.
Qed.

(** ** One pass of the loop body *)

Lemma visit_file_dry (old new : string) (now : Q) (f : File) (c : nat) :
  fst (visit_file old new true now f c) = f.
Proof.
  unfold visit_file.
  destruct (negb _); [reflexivity|].
  destruct (decode _); [reflexivity|].
  destruct (String.eqb _ _); reflexivity.
Qed.

Lemma walk_files_dry (root : Path) (old new : string) (now : Q) (fl : list File) (c : nat) :
  fst (walk_files root old new true now fl c) = fl.
Proof.
  revert c. induction fl as [|f fl IH]; intros c; simpl; [reflexivity|].
  assert (fst (if walked root f then visit_file old new true now f c else (f, c)) = f) as H.
  { destruct (walked root f); [apply visit_file_dry|reflexivity]. }
  destruct (if walked root f then _ else _) as [f' c'].
  simpl in H. subst f'.
  specialize (IH c'). destruct (walk_files root old new true now fl c') as [rest n].
  simpl in *. now subst.
Qed.

Lemma replace_in_text_files_run (root : Path) (old new : string) (dry : bool) (w : World) :
  replace_in_text_files root old new dry w =
  ({| heap := heap w;
      disk := {| dirs := dirs (disk w);
                 files := fst (walk_files root old new dry (clock (disk w))
                                 (files (disk w)) 0);
                 clock := clock (disk w);
                 dir_mtime := dir_mtime (disk w) |};
      out := out w |},
   inr (snd (walk_files root old new dry (clock (disk w)) (files (disk w)) 0))).
Proof.
  unfold replace_in_text_files, bind, get_disk, put_disk, ret.
  destruct (walk_files _ _ _ _ _ _ _) as [fl n]. reflexivity.
Qed.

Lemma fs_eta (fs : FS) : {| dirs := dirs fs; files := files fs; clock := clock fs;
                            dir_mtime := dir_mtime fs |} = fs.
Proof. destruct fs; reflexivity. Qed.

Lemma world_eta (w : World) : {| heap := heap w; disk := disk w; out := out w |} = w.
Proof. destruct w; reflexivity. Qed.

(** [replace_in_file] either raises and leaves the world alone, or
    returns and leaves the records and the output alone (and, in a dry
    run, the disk). *)
Lemma replace_in_file_cases (p : Path) (old new : string) (dry : bool) (w : World) :
  (exists e, replace_in_file p old new dry w = (w, inl e))
  \/ (exists b d, replace_in_file p old new dry w =
                  ({| heap := heap w; disk := d; out := out w |}, inr b)
                  /\ (dry = true -> d = disk w)).
Proof.
  unfold replace_in_file, bind, read_text, io.
  destruct (Fs.read_text (disk w) p) as [e|content] eqn:R; [left; eauto|].
  right. destruct (String.eqb _ content).
  - exists false, (disk w). rewrite world_eta. split; reflexivity.
  - destruct dry; simpl.
    + exists true, (disk w). rewrite world_eta. split; reflexivity.
    + unfold write_text, bind, io, put_disk, ret.
      destruct (Fs.write_text (disk w) p _) as [e|fs'] eqn:E.
      * exfalso. unfold Fs.write_text, Fs.is_file in E. unfold Fs.read_text in R.
        destruct (Fs.find_file (disk w) p); [discriminate E|].
        destruct (Fs.is_dir (disk w) p); discriminate R.
      * exists true, fs'. split; [reflexivity|discriminate].
Qed.

Lemma rename_cases (src dst : Path) (w : World) :
  (exists e, rename src dst w = (w, inl e))
  \/ (exists d, rename src dst w = ({| heap := heap w; disk := d; out := out w |}, inr tt)).
Proof.
  unfold rename, bind, io, put_disk.
  destruct (Fs.rename (disk w) src dst) as [e|fs']; [left|right]; eauto.
Qed.

Lemma out_app_assoc (w : World) (l1 l2 : list string) :
  (out w ++ l1) ++ l2 = out w ++ l1 ++ l2.
Proof. now rewrite <- app_assoc. Qed.

(** The outcome of the loop body on a group of two or more: the records
    are renumbered exactly when the body returns; the conflict line and
    the reference count are printed in any case. *)
Lemma resolve_group_conflict (root : Path) (pre : string) (dry : bool)
    (scoped : list nat) (width cc : nat) (tok : string) (first second : nat)
    (rest : list nat) (w : World) :
  let item := (tok, first :: second :: rest) in
  let newest := obj (heap w) (max_by_key (heap w) first (second :: rest)) in
  let new_name :=
    make_file_name (prefix newest)
      (next_numeric_token (view (heap w) scoped) width) (tail newest) in
  exists d' extra res,
    resolve_group root pre dry scoped width cc item w =
    ({| heap := match res with
                | inr _ => renumber_group scoped width (heap w) item
                | inl _ => heap w
                end;
        disk := d';
        out := out w ++ announce_group pre scoped width (heap w) item
                 ++ ref_updates_line
                      (snd (walk_files root (base_name newest) new_name dry
                              (clock (disk w)) (files (disk w)) 0))
                 :: extra |}, res)
    /\ (extra = [] \/ exists a b, extra = [spec_id_line a b])
    /\ (res = inr (S cc) \/ exists e, res = inl e)
    /\ (dry = true -> d' = disk w).
Proof.
  intros item newest new_name.
  unfold resolve_group, item. unfold bind at 1. unfold get_heap at 1.
  fold newest. fold new_name.
  unfold bind at 1. unfold print at 1.
  unfold bind at 1. rewrite replace_in_text_files_run. cbn [heap disk out].
  set (wk := walk_files root (base_name newest) new_name dry _ _ _).
  unfold bind at 1. unfold print at 1. cbn [heap disk out].
  set (d1 := {| dirs := dirs (disk w); files := fst wk; clock := clock (disk w);
                dir_mtime := dir_mtime (disk w) |}).
  assert (dry = true -> d1 = disk w) as Hd1.
  { intros ->. unfold d1, wk. rewrite walk_files_dry. apply fs_eta. }
  set (w3 := {| heap := heap w; disk := d1; out := _ |}).
  assert (out w3 = out w ++ announce_group pre scoped width (heap w) item
                     ++ [ref_updates_line (snd wk)]) as Hout3.
  { unfold w3. cbn [out]. rewrite out_app_assoc. reflexivity. }
  unfold bind at 1.
  destruct (replace_in_file_cases (path newest) (spec_id newest)
              (make_spec_id (prefix newest)
                 (next_numeric_token (view (heap w) scoped) width)) dry w3)
    as [[e E]|(b & d4 & E & Hd4)]; rewrite E.
  { exists d1, [], (inl e). repeat split; eauto.
    unfold w3. cbn [heap disk out]. rewrite out_app_assoc. reflexivity. }
  set (w4 := {| heap := heap w3; disk := d4; out := out w3 |}).
  unfold bind at 1.
  set (extra := if b then [spec_id_line (spec_id newest)
                             (make_spec_id (prefix newest)
                                (next_numeric_token (view (heap w) scoped) width))]
                else []).
  assert (exists w5, when b (print (spec_id_line (spec_id newest)
                             (make_spec_id (prefix newest)
                                (next_numeric_token (view (heap w) scoped) width)))) w4
                     = (w5, inr tt)
                     /\ heap w5 = heap w /\ disk w5 = d4 /\ out w5 = out w3 ++ extra)
    as (w5 & E5 & Hh5 & Hd5 & Ho5).
  { destruct b; simpl; eexists; (split; [reflexivity|]); cbn; auto using app_nil_r. }
  rewrite E5. unfold bind at 1.
  assert (extra = [] \/ exists a b, extra = [spec_id_line a b]) as Hextra.
  { unfold extra. destruct b; eauto. }
  destruct dry; cbn [negb when].
  - unfold ret at 1. unfold bind at 1. unfold modify_heap at 1.
    unfold bind at 1. unfold modify_heap at 1. unfold ret. cbn [heap disk out].
    exists d4, extra, (inr (S cc)). repeat split; eauto.
    + rewrite Hh5, Hd5, Ho5, Hout3. unfold renumber_group. cbn [snd].
      fold newest. fold new_name. rewrite <- !app_assoc. reflexivity.
    + intros _. rewrite Hd4 by reflexivity. apply Hd1. reflexivity.
  - destruct (rename_cases (path newest) (PurePath.with_name (path newest) new_name) w5)
      as [[e E6]|[d6 E6]]; rewrite E6.
    + exists d4, extra, (inl e). repeat split; eauto; try discriminate.
      destruct w5. cbn in *. subst. rewrite Hout3, <- !app_assoc. reflexivity.
    + unfold bind at 1. unfold modify_heap at 1.
      unfold bind at 1. unfold modify_heap at 1. unfold ret. cbn [heap disk out].
      exists d6, extra, (inr (S cc)). repeat split; eauto; try discriminate.
      rewrite Hh5, Ho5, Hout3. unfold renumber_group. cbn [snd].
      fold newest. fold new_name. rewrite <- !app_assoc. reflexivity.
Qed.

Lemma resolve_group_skip (root : Path) (pre : string) (dry : bool)
    (scoped : list nat) (width cc : nat) (item : string * list nat) (w : World) :
  is_conflict item = false ->
  resolve_group root pre dry scoped width cc item w = (w, inr cc)
  /\ renumber_group scoped width (heap w) item = heap w
  /\ announce_group pre scoped width (heap w) item = [].
Proof.
  destruct item as [tok dupes]. unfold is_conflict, resolve_group, renumber_group,
    announce_group. cbn [snd].
  destruct dupes as [|a [|b rest]]; try discriminate; auto.
Qed.

Lemma report_lines_app (l1 l2 : list string) :
  report_lines (l1 ++ l2) = report_lines l1 ++ report_lines l2.
Proof. apply List.filter_app. Qed.

Lemma conflict_lines_of_group (pre : string) (scoped : list nat) (width : nat)
    (store : list SpecFile) (item : string * list nat) (n : nat) (extra : list string) :
  (extra = [] \/ exists a b, extra = [spec_id_line a b]) ->
  report_lines
    (announce_group pre scoped width store item ++ ref_updates_line n :: extra)
  = announce_group pre scoped width store item.
Proof.
  intros Hextra.
  assert (report_lines (ref_updates_line n :: extra) = []) as H.
  { destruct Hextra as [->|(a & b & ->)]; reflexivity. }
  rewrite report_lines_app, H, app_nil_r.
  unfold announce_group. destruct (snd item) as [|x [|y r]]; reflexivity.
Qed.

(** The loop of [resolve_conflicts_for_prefix]: it goes through the
    first [k] groups, all of them when it returns, and the records and
    the conflict lines are those of [renumber_all] and [announce_all]
    whatever the mode and the file system. *)
Lemma for_each_resolve_group (root : Path) (pre : string) (dry : bool)
    (scoped : list nat) (width : nat) (items : list (string * list nat))
    (cc : nat) (w : World) :
  exists k j w' res,
    for_each items cc (resolve_group root pre dry scoped width) w = (w', res)
    /\ (k <= length items)%nat /\ (j <= length items)%nat
    /\ heap w' = renumber_all scoped width (firstn k items) (heap w)
    /\ report_lines (out w')
       = report_lines (out w)
           ++ announce_all pre scoped width (firstn j items) (heap w)
    /\ ((res = inr (cc + count_conflicts items)%nat
         /\ k = length items /\ j = length items)
        \/ exists e, res = inl e)
    /\ (dry = true -> disk w' = disk w).
Proof.
  revert cc w. induction items as [|item items IH]; intros cc w.
  - exists 0%nat, 0%nat, w, (inr cc). cbn. rewrite app_nil_r, Nat.add_0_r.
    repeat split; auto.
  - cbn [for_each]. unfold bind at 1.
    destruct (is_conflict item) eqn:Hc.
    + destruct item as [tok dupes]. unfold is_conflict in Hc. cbn [snd] in Hc.
      destruct dupes as [|first [|second rest]]; try discriminate.
      destruct (resolve_group_conflict root pre dry scoped width cc tok first second rest w)
        as (d' & extra & res & E & Hextra & Hres & Hdry).
      rewrite E. clear E.
      set (item := (tok, first :: second :: rest)) in *.
      destruct Hres as [->|[e ->]].
      * match goal with |- context [for_each items (S cc) _ ?w1] =>
          destruct (IH (S cc) w1) as (k & j & w' & res & E & Hk & Hj & Hh & Ho & Hr & Hd)
        end.
        exists (S k), (S j), w', res. rewrite E. cbn [heap disk out] in *.
        repeat split; try (cbn [length]; lia).
        -- rewrite Hh. reflexivity.
        -- rewrite Ho. rewrite report_lines_app, conflict_lines_of_group by exact Hextra.
           cbn [firstn announce_all]. rewrite <- app_assoc. reflexivity.
        -- destruct Hr as [(-> & -> & ->)|[e ->]]; [left|right; eauto].
           unfold count_conflicts. cbn [List.filter is_conflict snd item length].
           repeat split. f_equal. lia.
        -- intros Hdr. rewrite Hd by exact Hdr. apply Hdry, Hdr.
      * exists 0%nat, 1%nat. eexists. exists (inl e). split; [reflexivity|].
        cbn [heap disk out firstn length announce_all renumber_all fold_left].
        repeat split; try lia; eauto.
        rewrite report_lines_app, conflict_lines_of_group by exact Hextra.
        rewrite app_nil_r. reflexivity.
    + destruct (resolve_group_skip root pre dry scoped width cc item w Hc)
        as (E & Hre & Han). rewrite E.
      destruct (IH cc w) as (k & j & w' & res & E' & Hk & Hj & Hh & Ho & Hr & Hd).
      exists (S k), (S j), w', res. rewrite E'.
      repeat split; try (cbn [length]; lia); auto.
      * rewrite Hh. cbn [firstn renumber_all fold_left]. rewrite Hre. reflexivity.
      * rewrite Ho. cbn [firstn announce_all]. rewrite Han, Hre. reflexivity.
      * destruct Hr as [(-> & -> & ->)|[e ->]]; [left|right; eauto].
        unfold count_conflicts. cbn [List.filter]. rewrite Hc. auto.
Qed.

(** ** A pass over one family *)

Lemma resolve_returns (root : Path) (pre : string) (dry : bool) (w w' : World) (n : nat) :
  resolve_conflicts_for_prefix root pre dry w = (w', inr n) ->
  heap w' = renumber_family pre (heap w)
  /\ n = count_conflicts (family_items (heap w) pre)
  /\ report_lines (out w') = report_lines (out w) ++ announce_family pre (heap w)
  /\ (dry = true -> disk w' = disk w).
Proof.
  unfold resolve_conflicts_for_prefix, bind at 1, get_heap at 1. intros E.
  destruct (for_each_resolve_group root pre dry (scoped_refs (heap w) pre)
              (family_width (view (heap w) (scoped_refs (heap w) pre)))
              (family_items (heap w) pre) 0%nat w)
    as (k & j & w1 & res & E1 & _ & _ & Hh & Ho & Hr & Hd).
  unfold family_items in E1. rewrite E1 in E. injection E as -> ->.
  destruct Hr as [(Hn & -> & ->)|[e He]]; [|discriminate He].
  injection Hn as ->. rewrite !firstn_all in *.
  repeat split; assumption.
Qed.

(** In either mode the world keeps the disk of a dry run and the
    records move along [renumber_all], also when the pass is cut short
    by an exception. *)
Lemma resolve_any (root : Path) (pre : string) (dry : bool) (w : World) :
  exists k,
    heap (fst (resolve_conflicts_for_prefix root pre dry w))
    = renumber_all (scoped_refs (heap w) pre)
        (family_width (view (heap w) (scoped_refs (heap w) pre)))
        (firstn k (family_items (heap w) pre)) (heap w)
    /\ (dry = true -> disk (fst (resolve_conflicts_for_prefix root pre dry w)) = disk w).
Proof.
  assert (resolve_conflicts_for_prefix root pre dry w
          = for_each (family_items (heap w) pre) 0%nat
              (resolve_group root pre dry (scoped_refs (heap w) pre)
                 (family_width (view (heap w) (scoped_refs (heap w) pre)))) w) as ->
    by reflexivity.
  destruct (for_each_resolve_group root pre dry (scoped_refs (heap w) pre)
              (family_width (view (heap w) (scoped_refs (heap w) pre)))
              (family_items (heap w) pre) 0%nat w)
    as (k & j & w1 & res & E1 & _ & _ & Hh & Ho & Hr & Hd).
  rewrite E1. exists k. split; assumption.
Qed.

(** ** The objects of the store *)

Lemma set_token_length (r : nat) (t : string) (store : list SpecFile) :
  length (set_token r t store) = length store.
Proof. apply length_insert. Qed.

Lemma set_path_length (r : nat) (p : Path) (store : list SpecFile) :
  length (set_path r p store) = length store.
Proof. apply length_insert. Qed.

Lemma obj_renumbered_other (r r' : nat) (t : string) (p : Path) (store : list SpecFile) :
  r <> r' -> obj (set_path r p (set_token r t store)) r' = obj store r'.
Proof.
  intros H. unfold obj, set_path, set_token.
  rewrite !list_lookup_total_insert_ne by exact H. reflexivity.
Qed.

Lemma obj_renumbered (r : nat) (t : string) (p : Path) (store : list SpecFile) :
  (r < length store)%nat ->
  obj (set_path r p (set_token r t store)) r =
  {| path := p; prefix := prefix (obj store r); token := t;
     tail := tail (obj store r); mtime := mtime (obj store r) |}.
Proof.
  intros H. unfold obj, set_path.
  rewrite list_lookup_total_insert_eq by (rewrite set_token_length; exact H).
  unfold obj, set_token. rewrite list_lookup_total_insert_eq by exact H. reflexivity.
Qed.

Lemma max_by_key_in (store : list SpecFile) (best : nat) (rest : list nat) :
  List.In (max_by_key store best rest) (best :: rest).
Proof.
  revert best. induction rest as [|r rest IH]; intros best; [left; reflexivity|].
  cbn [max_by_key].
  set (b := if key_gt (sort_key (obj store r)) (sort_key (obj store best)) then r else best).
  assert (b = r \/ b = best) as Hb by (unfold b; destruct (key_gt _ _); auto).
  destruct (IH b) as [H|H]; [|right; right; exact H].
  rewrite <- H. destruct Hb as [->| ->]; [right; left|left]; reflexivity.
Qed.

(** A pass of the body on a conflicting group renumbers one member of
    the group and touches no other object. *)
Lemma renumber_group_conflict (scoped : list nat) (width : nat)
    (store : list SpecFile) (item : string * list nat) :
  is_conflict item = true ->
  exists nr,
    List.In nr (snd item)
    /\ length (renumber_group scoped width store item) = length store
    /\ (forall r, r <> nr -> obj (renumber_group scoped width store item) r = obj store r)
    /\ ((nr < length store)%nat ->
        token (obj (renumber_group scoped width store item) nr)
        = next_numeric_token (view store scoped) width
        /\ prefix (obj (renumber_group scoped width store item) nr) = prefix (obj store nr)
        /\ tail (obj (renumber_group scoped width store item) nr) = tail (obj store nr)
        /\ mtime (obj (renumber_group scoped width store item) nr) = mtime (obj store nr)).
Proof.
  destruct item as [tok dupes]. unfold is_conflict, renumber_group. cbn [snd].
  destruct dupes as [|first [|second rest]]; try discriminate. intros _.
  exists (max_by_key store first (second :: rest)).
  split; [apply max_by_key_in|].
  split; [now rewrite set_path_length, set_token_length|].
  split; [intros r Hr; apply obj_renumbered_other; congruence|].
  intros Hlt. rewrite obj_renumbered by exact Hlt. cbn. auto.
Qed.

Lemma renumber_group_skip (scoped : list nat) (width : nat)
    (store : list SpecFile) (item : string * list nat) :
  is_conflict item = false -> renumber_group scoped width store item = store.
Proof.
  destruct item as [tok dupes]. unfold is_conflict, renumber_group. cbn [snd].
  destruct dupes as [|first [|second rest]]; try discriminate; reflexivity.
Qed.

(** ** Fresh tokens *)

Lemma max_used_number_ge (specs : list SpecFile) (s : SpecFile) :
  List.In s specs -> Py.isdigit (token s) = true ->
  (Py.int (token s) <= max_used_number specs)%N.
Proof.
  unfold max_used_number, numeric_tokens.
  induction specs as [|x specs IH]; intros Hin Hd; [destruct Hin|].
  simpl. destruct Hin as [->|Hin].
  - rewrite Hd. simpl. lia.
  - specialize (IH Hin Hd). destruct (Py.isdigit (token x)); simpl; lia.
Qed.

(** The allocated token differs from every token in the list it was
    computed from. *)
Lemma next_numeric_token_fresh (specs : list SpecFile) (width : nat) (s : SpecFile) :
  List.In s specs -> token s <> next_numeric_token specs width.
Proof.
  intros Hin Heq.
  pose proof (isdigit_next_numeric_token specs width) as Hd.
  pose proof (int_next_numeric_token specs width) as Hi.
  rewrite <- Heq in Hd, Hi.
  pose proof (max_used_number_ge specs s Hin Hd). unfold allocated_number in Hi. lia.
Qed.

(** ** The groups *)

Lemma scoped_refs_NoDup (store : list SpecFile) (pre : string) :
  List.NoDup (scoped_refs store pre).
Proof. apply List.NoDup_filter, List.seq_NoDup. Qed.

Lemma scoped_refs_in (store : list SpecFile) (pre : string) (r : nat) :
  List.In r (scoped_refs store pre) <->
  (r < length store)%nat /\ prefix (obj store r) = pre.
Proof.
  unfold scoped_refs. rewrite List.filter_In, List.in_seq, String.eqb_eq. intuition lia.
Qed.

Section Grouping.

Variable tokf : nat -> string.


Lemma setdefault_append_new (groups : list (string * list nat)) (t : string) (r : nat) :
  ~ List.In t (map fst groups) -> setdefault_append groups t r = groups ++ [(t, [r])].
Proof.
  induction groups as [|[k l] groups IH]; intros H; simpl; [reflexivity|].
  simpl in H. destruct (String.eqb k t) eqn:E.
  - apply String.eqb_eq in E. tauto.
  - rewrite IH by tauto. reflexivity.
Qed.

Lemma setdefault_append_old (groups : list (string * list nat)) (t : string) (r : nat) :
  List.In t (map fst groups) ->
  exists g1 d g2,
    groups = g1 ++ (t, d) :: g2
    /\ ~ List.In t (map fst g1)
    /\ setdefault_append groups t r = g1 ++ (t, d ++ [r]) :: g2.
Proof.
  induction groups as [|[k l] groups IH]; intros H; [destruct H|].
  simpl. destruct (String.eqb k t) eqn:E.
  - apply String.eqb_eq in E. subst k. exists [], l, groups. simpl. auto.
  - apply String.eqb_neq in E. destruct H as [H|H]; [simpl in H; congruence|].
    destruct (IH H) as (g1 & d & g2 & -> & Hn & ->).
    exists ((k, l) :: g1), d, g2. simpl. intuition congruence.
Qed.

Lemma members_app (t : string) (l1 l2 : list nat) :
  members tokf t (l1 ++ l2) = members tokf t l1 ++ members tokf t l2.
Proof. apply List.filter_app. Qed.

Lemma members_nil (t : string) (l : list nat) :
  (forall r, List.In r l -> tokf r <> t) -> members tokf t l = [].
Proof.
  induction l as [|x l IH]; intros H; [reflexivity|]. unfold members in *. simpl.
  destruct (String.eqb (tokf x) t) eqn:E.
  - apply String.eqb_eq in E. exfalso. apply (H x); simpl; auto.
  - apply IH. intros r Hr. apply H. right. exact Hr.
Qed.

Lemma groups_of_step (seen : list nat) (groups : list (string * list nat)) (r : nat) :
  groups_of tokf seen groups -> groups_of tokf (seen ++ [r]) (setdefault_append groups (tokf r) r).
Proof.
  intros (Hnd & Hm & Hk). unfold groups_of.
  destruct (List.in_dec string_dec (tokf r) (map fst groups)) as [Hin|Hnin].
  - destruct (setdefault_append_old groups (tokf r) r Hin)
      as (g1 & d & g2 & Hg & Hn1 & ->).
    subst groups. rewrite map_app in *. cbn [map fst] in *.
    split; [exact Hnd|]. split.
    + intros t d' Hd'. apply List.in_app_or in Hd'.
      assert (forall t0 d0, List.In (t0, d0) (g1 ++ (tokf r, d) :: g2) -> t0 <> tokf r ->
                            d0 = members tokf t0 (seen ++ [r]) /\ d0 <> []) as Hother.
      { intros t0 d0 H0 Hne. destruct (Hm t0 d0 H0) as [-> Hne0]. split; [|exact Hne0].
        rewrite members_app. unfold members at 3. simpl.
        destruct (String.eqb (tokf r) t0) eqn:E;
          [apply String.eqb_eq in E; congruence|]. now rewrite app_nil_r. }
      destruct Hd' as [Hd'|[Hd'|Hd']].
      * apply Hother; [apply List.in_or_app; auto|].
        intros ->. apply Hn1. apply (List.in_map fst) in Hd'. exact Hd'.
      * injection Hd' as <- <-.
        destruct (Hm (tokf r) d) as [-> _]; [apply List.in_or_app; simpl; auto|].
        split; [|now destruct (members tokf (tokf r) seen)].
        rewrite members_app. unfold members at 3. simpl.
        now rewrite String.eqb_refl.
      * apply Hother; [apply List.in_or_app; simpl; auto|].
        intros ->. apply List.NoDup_remove_2 in Hnd. apply Hnd.
        apply List.in_or_app. right. apply (List.in_map fst) in Hd'. exact Hd'.
    + intros r' Hr'. apply List.in_app_or in Hr' as [Hr'|[<-|[]]]; [apply Hk, Hr'|].
      apply List.in_or_app. simpl. auto.
  - rewrite setdefault_append_new by exact Hnin. rewrite map_app. cbn [map fst].
    split; [|split].
    + apply List.NoDup_app_remove_l with (l := []). simpl.
      rewrite <- (rev_involutive (map fst groups ++ [tokf r])).
      apply List.NoDup_rev. rewrite rev_app_distr. simpl.
      constructor; [rewrite <- List.in_rev; exact Hnin|apply List.NoDup_rev, Hnd].
    + intros t d Hd. apply List.in_app_or in Hd as [Hd|[Hd|[]]].
      * destruct (Hm t d Hd) as [-> Hne]. split; [|exact Hne].
        rewrite members_app. unfold members at 3. simpl.
        destruct (String.eqb (tokf r) t) eqn:E; [|now rewrite app_nil_r].
        apply String.eqb_eq in E. subst t. exfalso. apply Hnin.
        apply (List.in_map fst) in Hd. exact Hd.
      * injection Hd as <- <-. split; [|discriminate].
        rewrite members_app, members_nil.
        -- unfold members. simpl. now rewrite String.eqb_refl.
        -- intros r' Hr' Heq. apply Hnin. rewrite <- Heq. apply Hk, Hr'.
    + intros r' Hr'. apply List.in_or_app.
      apply List.in_app_or in Hr' as [Hr'|[<-|[]]]; [left; apply Hk, Hr'|right; simpl; auto].
Qed.

Lemma groups_of_fold (rest seen : list nat) (groups : list (string * list nat)) :
  groups_of tokf seen groups -> groups_of tokf (seen ++ rest)
    (fold_left (fun g r => setdefault_append g (tokf r) r) rest groups).
Proof.
  revert seen groups. induction rest as [|r rest IH]; intros seen groups H; simpl.
  - now rewrite app_nil_r.
  - replace (seen ++ r :: rest) with ((seen ++ [r]) ++ rest)
      by (rewrite <- app_assoc; reflexivity).
    apply IH, groups_of_step, H.
Qed.

End Grouping.

Lemma insert_sorted_perm (x : string * list nat) (l : list (string * list nat)) :
  Permutation (insert_sorted x l) (x :: l).
Proof.
  induction l as [|y l IH]; simpl; [reflexivity|].
  destruct (item_lt x y); [reflexivity|].
  rewrite IH. apply perm_swap.
Qed.

Lemma sorted_perm (l : list (string * list nat)) : Permutation (sorted l) l.
Proof.
  unfold sorted.
  assert (forall acc, Permutation (fold_left (fun acc x => insert_sorted x acc) l acc)
                        (l ++ acc)) as H.
  { induction l as [|x l IH]; intros acc; simpl; [reflexivity|].
    rewrite IH, insert_sorted_perm. symmetry. apply Permutation_middle. }
  rewrite H, app_nil_r. reflexivity.
Qed.

Lemma group_by_token_groups (store : list SpecFile) (scoped : list nat) :
  groups_of (fun r => token (obj store r)) scoped (group_by_token store scoped).
Proof.
  unfold group_by_token.
  apply (groups_of_fold (fun r => token (obj store r)) scoped [] []).
  split; [constructor|]. split; intros ? ?; simpl; tauto.
Qed.

Lemma family_items_groups (store : list SpecFile) (pre : string) :
  groups_of (fun r => token (obj store r)) (scoped_refs store pre) (family_items store pre).
Proof.
  destruct (group_by_token_groups store (scoped_refs store pre)) as (Hnd & Hm & Hk).
  pose proof (sorted_perm (group_by_token store (scoped_refs store pre))) as Hp.
  unfold family_items. split; [|split].
  - eapply Permutation_NoDup; [|exact Hnd].
    apply Permutation_map, Permutation_sym, Hp.
  - intros t d Hd. apply Hm. eapply Permutation_in; [exact Hp|exact Hd].
  - intros r Hr. eapply Permutation_in; [|apply Hk, Hr].
    apply Permutation_map, Permutation_sym, Hp.
Qed.

(** ** Counting the members of a group *)

Lemma count_same (l : list nat) (f g : nat -> string) (u : string) :
  (forall r, List.In r l -> g r = f r) ->
  List.filter (fun r => String.eqb (g r) u) l = List.filter (fun r => String.eqb (f r) u) l.
Proof.
  intros H. apply List.filter_ext_in. intros r Hr. now rewrite H.
Qed.

Lemma count_update (l : list nat) (f g : nat -> string) (nr : nat) (u : string) :
  List.NoDup l -> List.In nr l -> (forall r, r <> nr -> g r = f r) ->
  (length (List.filter (fun r => String.eqb (g r) u) l)
   + (if String.eqb (f nr) u then 1 else 0)
   = length (List.filter (fun r => String.eqb (f r) u) l)
     + (if String.eqb (g nr) u then 1 else 0))%nat.
Proof.
  intros Hnd Hin Hg. induction l as [|x l IH]; [destruct Hin|].
  apply List.NoDup_cons_iff in Hnd as [Hx Hnd]. simpl.
  destruct Hin as [->|Hin].
  - rewrite (count_same l f g u) by (intros r Hr; apply Hg; congruence).
    destruct (String.eqb (g nr) u), (String.eqb (f nr) u); simpl; lia.
  - specialize (IH Hnd Hin). rewrite (Hg x) by congruence.
    destruct (String.eqb (f x) u); simpl; lia.
Qed.

(** ** The loop invariant *)

Section LoopInvariant.

Variables (store0 : list SpecFile) (scoped : list nat) (width : nat).
Hypothesis scoped_NoDup : List.NoDup scoped.
Hypothesis scoped_range : forall r, List.In r scoped -> (r < length store0)%nat.

Lemma group_count_pos (store : list SpecFile) (r : nat) :
  List.In r scoped -> (1 <= group_count scoped store (token (obj store r)))%nat.
Proof.
  intros Hr. unfold group_count, members.
  assert (List.In r (List.filter (fun r' => String.eqb (token (obj store r'))
                                             (token (obj store r))) scoped)) as H.
  { apply List.filter_In. split; [exact Hr|apply String.eqb_refl]. }
  destruct (List.filter _ scoped); [destruct H|simpl; lia].
Qed.

Lemma group_count_zero (store : list SpecFile) (t : string) :
  (forall r, List.In r scoped -> token (obj store r) <> t) ->
  group_count scoped store t = 0%nat.
Proof.
  intros H. unfold group_count, members.
  pose proof (members_nil (fun r => token (obj store r)) t scoped H) as E.
  unfold members in E. rewrite E. reflexivity.
Qed.

Lemma loop_inv_start (remaining : list (string * list nat)) :
  groups_of (fun r => token (obj store0 r)) scoped remaining ->
  loop_inv store0 scoped store0 remaining.
Proof.
  intros (Hnd & Hm & Hk). unfold loop_inv.
  split; [reflexivity|]. split; [auto|]. split; [exact Hnd|]. split.
  - intros t d Hd. destruct (Hm t d Hd) as [-> Hne]. auto.
  - intros t Ht.
    assert (group_count scoped store0 t = 0%nat) as Hz.
    { apply group_count_zero. intros r Hr <-. apply Ht, Hk, Hr. }
    rewrite Hz. repeat split; lia.
Qed.

Lemma loop_inv_skip (store : list SpecFile) (item : string * list nat)
    (rest : list (string * list nat)) :
  is_conflict item = false ->
  loop_inv store0 scoped store (item :: rest) ->
  loop_inv store0 scoped store rest.
Proof.
  intros Hc (Hlen & Hobj & Hnd & Hm & Hdone). unfold loop_inv.
  cbn [map] in Hnd. apply List.NoDup_cons_iff in Hnd as [Hk Hnd].
  split; [exact Hlen|]. split; [exact Hobj|]. split; [exact Hnd|]. split.
  - intros t d Hd. apply Hm. right. exact Hd.
  - intros t Ht. destruct (string_dec t (fst item)) as [->|Hne].
    + destruct item as [t d]. cbn [fst] in *.
      destruct (Hm t d (or_introl eq_refl)) as (Hd & Hne & Hgc).
      assert (group_count scoped store t = length d) as Hl
          by (unfold group_count, members; now rewrite <- Hd).
      unfold is_conflict in Hc. cbn [snd] in Hc.
      destruct d as [|a [|b d]]; try discriminate; try congruence.
      simpl in Hl. rewrite <- Hgc, Hl. repeat split; lia.
    + apply Hdone. cbn [map]. intros [H|H]; [congruence|tauto].
Qed.

Lemma loop_inv_conflict (store : list SpecFile) (item : string * list nat)
    (rest : list (string * list nat)) :
  is_conflict item = true ->
  loop_inv store0 scoped store (item :: rest) ->
  loop_inv store0 scoped (renumber_group scoped width store item) rest.
Proof.
  intros Hc (Hlen & Hobj & Hnd & Hm & Hdone).
  destruct (renumber_group_conflict scoped width store item Hc)
    as (nr & Hnr & Hlen' & Hother & Hself).
  set (store' := renumber_group scoped width store item) in *.
  set (fresh := next_numeric_token (view store scoped) width) in *.
  destruct item as [t d]. cbn [snd fst] in *.
  cbn [map] in Hnd. apply List.NoDup_cons_iff in Hnd as [Hk Hnd].
  destruct (Hm t d (or_introl eq_refl)) as (Hd & Hdne & Hgc).
  assert (List.In nr scoped /\ token (obj store nr) = t) as [Hnrs Hnrt].
  { rewrite Hd in Hnr. apply List.filter_In in Hnr as [? E].
    apply String.eqb_eq in E. auto. }
  assert (nr < length store)%nat as Hlt by (rewrite Hlen; apply scoped_range, Hnrs).
  destruct (Hself Hlt) as (Htok & Hpre & Htail & Hmt). clear Hself.
  assert (forall r, List.In r scoped -> token (obj store r) <> fresh) as Hfresh.
  { intros r Hr. apply next_numeric_token_fresh. unfold view.
    apply List.in_map. exact Hr. }
  assert (t <> fresh) as Htf by (rewrite <- Hnrt; apply Hfresh, Hnrs).
  assert (group_count scoped store fresh = 0%nat) as Hgf
      by (apply group_count_zero, Hfresh).
  assert (forall u, (group_count scoped store' u + (if String.eqb t u then 1 else 0)
                     = group_count scoped store u
                       + (if String.eqb fresh u then 1 else 0))%nat) as Hupd.
  { intros u. unfold group_count, members.
    pose proof (count_update scoped (fun r => token (obj store r))
                  (fun r => token (obj store' r)) nr u scoped_NoDup Hnrs) as H.
    cbv beta in H. rewrite Hnrt, Htok in H. apply H.
    intros r Hr. now rewrite Hother. }
  assert (forall u, u <> t -> u <> fresh ->
                    group_count scoped store' u = group_count scoped store u) as Hsame.
  { intros u H1 H2. specialize (Hupd u).
    destruct (String.eqb_spec t u), (String.eqb_spec fresh u); try congruence. lia. }
  assert (group_count scoped store' fresh = 1%nat) as Hgf'.
  { specialize (Hupd fresh). rewrite String.eqb_refl in Hupd.
    destruct (String.eqb_spec t fresh); [congruence|]. lia. }
  assert ((group_count scoped store' t + 1 = group_count scoped store t)%nat) as Hgt'.
  { specialize (Hupd t). rewrite String.eqb_refl in Hupd.
    destruct (String.eqb_spec fresh t); [congruence|]. lia. }
  assert (group_count scoped store0 fresh = 0%nat) as Hgf0.
  { destruct (List.in_dec string_dec fresh (map fst rest)) as [Hin|Hnin].
    - apply List.in_map_iff in Hin as ([u du] & Hu & Hin). cbn in Hu. subst u.
      destruct (Hm fresh du (or_intror Hin)) as (_ & _ & <-). exact Hgf.
    - destruct (Hdone fresh) as (H2 & H1 & _).
      { cbn [map fst]. intros [H|H]; [congruence|tauto]. }
      destruct (group_count scoped store0 fresh) as [|[|k]]; [reflexivity| |].
      + specialize (H1 eq_refl). lia.
      + specialize (H2 ltac:(lia)). lia. }
  assert (length d = group_count scoped store t) as Hdl
      by (unfold group_count, members; now rewrite <- Hd).
  assert (2 <= length d)%nat as Hd2.
  { unfold is_conflict in Hc. cbn [snd] in Hc.
    destruct d as [|a [|b d]]; try discriminate. simpl. lia. }
  unfold loop_inv. split; [congruence|]. split; [|split; [exact Hnd|split]].
  - intros r. destruct (Nat.eq_dec r nr) as [->|Hne].
    + right. rewrite Htok, Hpre, Htail, Hmt, Hgf0, Hgf'.
      assert (prefix (obj store nr) = prefix (obj store0 nr)
              /\ tail (obj store nr) = tail (obj store0 nr)
              /\ mtime (obj store nr) = mtime (obj store0 nr)) as (-> & -> & ->).
      { destruct (Hobj nr) as [->|(_ & ? & ? & ? & _)]; auto. }
      repeat split; auto.
      intros Heq. pose proof (group_count_pos store0 nr Hnrs) as Hp.
      rewrite <- Heq, Hgf0 in Hp. lia.
    + rewrite (Hother r Hne). destruct (Hobj r) as [H|(Hr & H1 & H2 & H3 & H4 & H5 & H6)];
        [left; exact H|right].
      repeat split; auto.
      rewrite Hsame; [exact H6| |apply Hfresh, Hr].
      intros Heq. rewrite Heq, <- Hgc in H5. lia.
  - intros u du Hu.
    destruct (Hm u du (or_intror Hu)) as (Hdu & Hdune & Hgcu).
    assert (u <> t) as Hut.
    { intros ->. apply Hk. apply (List.in_map fst) in Hu. exact Hu. }
    assert (u <> fresh) as Huf.
    { intros ->. assert (group_count scoped store fresh = length du) as Hl
          by (unfold group_count, members; now rewrite <- Hdu).
      destruct du; [congruence|]. simpl in Hl. lia. }
    split; [|split; [exact Hdune|]].
    + rewrite Hdu. apply List.filter_ext_in. intros r Hr.
      destruct (Nat.eq_dec r nr) as [->|Hne]; [|now rewrite Hother].
      rewrite Htok, Hnrt.
      destruct (String.eqb_spec fresh u), (String.eqb_spec t u); congruence.
    + rewrite Hsame by assumption. exact Hgcu.
  - intros u Hu. destruct (string_dec u t) as [->|Hut].
    + rewrite <- Hgc. repeat split; lia.
    + destruct (Hdone u) as (H2 & H1 & H0).
      { cbn [map fst]. intros [H|H]; [congruence|tauto]. }
      destruct (string_dec u fresh) as [->|Huf].
      * rewrite Hgf', Hgf0. repeat split; lia.
      * rewrite Hsame by assumption. auto.
Qed.

Lemma loop_inv_renumber_all (items rest : list (string * list nat))
    (store : list SpecFile) :
  loop_inv store0 scoped store (items ++ rest) ->
  loop_inv store0 scoped (renumber_all scoped width items store) rest.
Proof.
  revert store. induction items as [|item items IH]; intros store H; [exact H|].
  cbn [renumber_all fold_left]. apply IH.
  destruct (is_conflict item) eqn:Hc.
  - apply loop_inv_conflict; assumption.
  - rewrite renumber_group_skip by exact Hc.
    eapply loop_inv_skip; [exact Hc|exact H].
Qed.

End LoopInvariant.

(** ** The records after a pass *)

Lemma group_count_two (scoped : list nat) (store : list SpecFile) (r1 r2 : nat) :
  List.In r1 scoped -> List.In r2 scoped -> r1 <> r2 ->
  token (obj store r1) = token (obj store r2) ->
  (2 <= group_count scoped store (token (obj store r1)))%nat.
Proof.
  intros H1 H2 Hne Heq. unfold group_count, members.
  change 2%nat with (length [r1; r2]).
  apply List.NoDup_incl_length.
  - constructor; [simpl; intuition congruence|]. constructor; [simpl; tauto|constructor].
  - intros r [<-|[<-|[]]]; apply List.filter_In; split; auto.
    + apply String.eqb_refl.
    + rewrite Heq. apply String.eqb_refl.
Qed.

(** The invariant holds of the records that a pass leaves behind,
    whether it returned or raised. *)
Lemma resolve_loop_inv (root : Path) (pre : string) (dry : bool) (w : World) :
  exists remaining,
    loop_inv (heap w) (scoped_refs (heap w) pre)
      (heap (fst (resolve_conflicts_for_prefix root pre dry w))) remaining.
Proof.
  destruct (resolve_any root pre dry w) as (k & -> & _).
  exists (skipn k (family_items (heap w) pre)).
  apply loop_inv_renumber_all.
  - apply scoped_refs_NoDup.
  - intros r Hr. apply scoped_refs_in in Hr. tauto.
  - rewrite firstn_skipn. apply loop_inv_start, family_items_groups.
Qed.

(** C2. In one pass over a family, in either mode and whether the pass
    returns or is cut short, the tokens given to the renumbered records
    are pairwise distinct, and none of them is a token that a record of
    the family carried before the pass, numeric or not. *)
Theorem new_tokens_collision_free (root : Path) (pre : string) (dry : bool) (w : World) :
  let before := heap w in
  let after := heap (fst (resolve_conflicts_for_prefix root pre dry w)) in
  (forall r1 r2,
      r1 <> r2 ->
      token (obj after r1) <> token (obj before r1) ->
      token (obj after r2) <> token (obj before r2) ->
      token (obj after r1) <> token (obj after r2))
  /\ (forall r r0,
        token (obj after r) <> token (obj before r) ->
        List.In r0 (scoped_refs before pre) ->
        token (obj after r) <> token (obj before r0)).
Proof.
  cbv zeta. destruct (resolve_loop_inv root pre dry w) as (remaining & Hinv).
  destruct Hinv as (_ & Hobj & _). split.
  - intros r1 r2 Hne H1 H2 Heq.
    destruct (Hobj r1) as [E|(Hs1 & _ & _ & _ & _ & _ & Hc1)]; [now rewrite E in H1|].
    destruct (Hobj r2) as [E|(Hs2 & _)]; [now rewrite E in H2|].
    pose proof (group_count_two _ _ r1 r2 Hs1 Hs2 Hne Heq). lia.
  - intros r r0 H Hr0 Heq.
    destruct (Hobj r) as [E|(_ & _ & _ & _ & _ & Hc0 & _)]; [now rewrite E in H|].
    pose proof (group_count_pos (scoped_refs (heap w) pre) (heap w) r0 Hr0) as Hp.
    rewrite <- Heq, Hc0 in Hp. lia.
Qed.

(** ** Group sizes *)

Lemma group_count_occ (l : list nat) (store : list SpecFile) (t : string) :
  group_count l store t = group_size (map token (view store l)) t.
Proof.
  unfold group_count, members, group_size, view. induction l as [|r l IH]; [reflexivity|].
  cbn [List.filter map count_occ].
  destruct (String.eqb_spec (token (obj store r)) t) as [E|E];
    destruct (string_dec (token (obj store r)) t); try congruence; simpl; now rewrite IH.
Qed.

Lemma scoped_refs_same (store store' : list SpecFile) (pre : string) :
  length store' = length store ->
  (forall r, prefix (obj store' r) = prefix (obj store r)) ->
  scoped_refs store' pre = scoped_refs store pre.
Proof.
  intros Hl Hp. unfold scoped_refs. rewrite Hl.
  apply List.filter_ext. intros r. now rewrite Hp.
Qed.

Lemma loop_inv_scoped (store0 store : list SpecFile) (pre : string)
    (remaining : list (string * list nat)) :
  loop_inv store0 (scoped_refs store0 pre) store remaining ->
  scoped_refs store pre = scoped_refs store0 pre.
Proof.
  intros (Hlen & Hobj & _). apply scoped_refs_same; [exact Hlen|].
  intros r. destruct (Hobj r) as [->|(_ & H & _)]; auto.
Qed.

Lemma list_max_attained (l : list nat) : l <> [] -> List.In (list_max l) l.
Proof.
  induction l as [|x l IH]; [congruence|]. intros _. simpl.
  destruct l as [|y l]; [simpl; lia|].
  specialize (IH ltac:(discriminate)).
  destruct (Nat.max_spec x (list_max (y :: l))) as [[_ E]|[_ E]]; rewrite E; auto.
Qed.

Lemma group_size_le_max (toks : list string) (t : string) :
  (group_size toks t <= max_group_size toks)%nat.
Proof.
  unfold max_group_size.
  destruct (List.in_dec string_dec t toks) as [Hin|Hnin].
  - pose proof (proj1 (list_max_le (map (group_size toks) toks) _) (Nat.le_refl _)) as H.
    rewrite List.Forall_forall in H. apply H. apply List.in_map, Hin.
  - apply (count_occ_not_In string_dec) in Hnin. unfold group_size. lia.
Qed.

Lemma max_group_size_attained (toks : list string) :
  toks <> [] -> exists t, List.In t toks /\ group_size toks t = max_group_size toks.
Proof.
  intros Hne. unfold max_group_size.
  assert (map (group_size toks) toks <> []) as H by (destruct toks; [congruence|discriminate]).
  apply list_max_attained in H. apply List.in_map_iff in H as (t & E & Hin). eauto.
Qed.

(** One member less in every group of two or more, and no new group of
    two or more: the largest group shrinks by one. *)
Lemma max_group_size_shrinks (toks toks' : list string) :
  (forall t, (2 <= group_size toks t -> group_size toks' t = group_size toks t - 1)
             /\ (group_size toks t <= 1 -> group_size toks' t <= 1))%nat ->
  (2 <= max_group_size toks)%nat ->
  max_group_size toks' = (max_group_size toks - 1)%nat.
Proof.
  intros H Hm. apply Nat.le_antisymm.
  - unfold max_group_size at 1. apply list_max_le, List.Forall_forall.
    intros n Hn. apply List.in_map_iff in Hn as (t & <- & _).
    pose proof (group_size_le_max toks t). destruct (H t) as [H2 H1].
    destruct (Nat.le_gt_cases 2 (group_size toks t)) as [Hc|Hc].
    + rewrite H2 by exact Hc. lia.
    + specialize (H1 ltac:(lia)). lia.
  - destruct (max_group_size_attained toks) as (t & Hin & E).
    { intros ->. unfold max_group_size in Hm. simpl in Hm. lia. }
    destruct (H t) as [H2 _]. rewrite <- E in Hm. specialize (H2 Hm).
    rewrite <- E, <- H2. apply group_size_le_max.
Qed.

Lemma max_group_size_perm (toks toks' : list string) :
  Permutation toks toks' -> max_group_size toks = max_group_size toks'.
Proof.
  intros Hp. unfold max_group_size.
  rewrite (Permutation_list_max (Permutation_map (group_size toks) Hp)).
  f_equal. apply List.map_ext. intros t. unfold group_size.
  now apply (Permutation_count_occ string_dec).
Qed.

Lemma is_conflict_length (t : string) (d : list nat) :
  is_conflict (t, d) = true <-> (2 <= length d)%nat.
Proof.
  unfold is_conflict. cbn [snd]. destruct d as [|a [|b d]]; simpl; split;
    intros H; try discriminate; try lia; reflexivity.
Qed.

Lemma count_conflicts_zero (items : list (string * list nat)) :
  count_conflicts items = 0%nat <->
  (forall item, List.In item items -> is_conflict item = false).
Proof.
  unfold count_conflicts. induction items as [|x items IH]; simpl.
  - split; [intros _ ? []|reflexivity].
  - destruct (is_conflict x) eqn:E; simpl.
    + split; [discriminate|]. intros H. specialize (H x (or_introl eq_refl)). congruence.
    + rewrite IH. split.
      * intros H item [<-|Hi]; auto.
      * intros H item Hi. apply H. auto.
Qed.

(** No group of two or more exactly when the family has no conflict. *)
Lemma no_conflict_iff (store : list SpecFile) (pre : string) :
  count_conflicts (family_items store pre) = 0%nat <->
  (max_group_size (family_tokens store pre) <= 1)%nat.
Proof.
  destruct (family_items_groups store pre) as (_ & Hm & Hk).
  rewrite count_conflicts_zero. unfold family_tokens. split.
  - intros H. unfold max_group_size. apply list_max_le, List.Forall_forall.
    intros n Hn. apply List.in_map_iff in Hn as (t & <- & Ht).
    apply List.in_map_iff in Ht as (s & <- & Hs). unfold view in Hs.
    apply List.in_map_iff in Hs as (r & <- & Hr).
    specialize (Hk r Hr). apply List.in_map_iff in Hk as ([t d] & Et & Hd).
    cbn [fst] in Et. subst t.
    destruct (Hm _ d Hd) as [Ed _]. specialize (H _ Hd).
    rewrite <- group_count_occ. unfold group_count. rewrite <- Ed.
    destruct (Nat.le_gt_cases 2 (length d)) as [Hc|Hc]; [|lia].
    apply (is_conflict_length (token (obj store r)) d) in Hc. congruence.
  - intros H [t d] Hd. destruct (Hm t d Hd) as [Ed _].
    destruct (is_conflict (t, d)) eqn:E; [|reflexivity].
    apply is_conflict_length in E.
    pose proof (group_size_le_max (map token (view store (scoped_refs store pre))) t) as Hle.
    rewrite <- group_count_occ in Hle. unfold group_count in Hle.
    rewrite <- Ed in Hle. lia.
Qed.

Lemma for_each_no_conflict (root : Path) (pre : string) (dry : bool)
    (scoped : list nat) (width : nat) (items : list (string * list nat))
    (cc : nat) (w : World) :
  (forall item, List.In item items -> is_conflict item = false) ->
  for_each items cc (resolve_group root pre dry scoped width) w = (w, inr cc).
Proof.
  induction items as [|item items IH]; intros H; [reflexivity|].
  cbn [for_each]. unfold bind.
  destruct (resolve_group_skip root pre dry scoped width cc item w) as (-> & _).
  { apply H. left. reflexivity. }
  apply IH. intros i Hi. apply H. right. exact Hi.
Qed.

(** A pass over a family without conflict prints nothing, touches
    nothing and returns zero. *)
Lemma resolve_no_conflict (root : Path) (pre : string) (dry : bool) (w : World) :
  (max_group_size (family_tokens (heap w) pre) <= 1)%nat ->
  resolve_conflicts_for_prefix root pre dry w = (w, inr 0%nat).
Proof.
  intros H. apply no_conflict_iff in H.
  unfold resolve_conflicts_for_prefix, bind, get_heap.
  apply for_each_no_conflict. apply (proj1 (count_conflicts_zero _) H).
Qed.

Lemma renumber_family_inv (pre : string) (store : list SpecFile) :
  loop_inv store (scoped_refs store pre) (renumber_family pre store) [].
Proof.
  unfold renumber_family. apply loop_inv_renumber_all.
  - apply scoped_refs_NoDup.
  - intros r Hr. apply scoped_refs_in in Hr. tauto.
  - rewrite app_nil_r. apply loop_inv_start, family_items_groups.
Qed.

Lemma renumber_family_one_less (pre : string) (store : list SpecFile) :
  one_less (family_tokens store pre) (family_tokens (renumber_family pre store) pre).
Proof.
  intros t. pose proof (renumber_family_inv pre store) as Hinv.
  pose proof (loop_inv_scoped _ _ _ _ Hinv) as Hs.
  destruct Hinv as (_ & _ & _ & _ & Hdone).
  unfold family_tokens. rewrite Hs, <- !group_count_occ.
  apply Hdone. simpl. tauto.
Qed.

(** A pass that returns takes one member out of every group of two or
    more, leaves the groups of one as they are and creates groups of
    one only. *)
Lemma completed_pass_groups (root : Path) (pre : string) (dry : bool)
    (w w' : World) (n : nat) :
  resolve_conflicts_for_prefix root pre dry w = (w', inr n) ->
  forall t,
    ((2 <= group_size (family_tokens (heap w) pre) t)%nat ->
     group_size (family_tokens (heap w') pre) t
     = (group_size (family_tokens (heap w) pre) t - 1)%nat)
    /\ (group_size (family_tokens (heap w) pre) t = 1%nat ->
        group_size (family_tokens (heap w') pre) t = 1%nat)
    /\ (group_size (family_tokens (heap w) pre) t = 0%nat ->
        (group_size (family_tokens (heap w') pre) t <= 1)%nat).
Proof.
  intros E. apply resolve_returns in E as (Hh & _). rewrite Hh.
  apply renumber_family_one_less.
Qed.

Lemma completed_pass_max (pre : string) (before after : list SpecFile) :
  completed_apply_pass pre before after ->
  (2 <= max_group_size (family_tokens before pre))%nat ->
  max_group_size (family_tokens after pre)
  = (max_group_size (family_tokens before pre) - 1)%nat.
Proof.
  intros (root & w & w' & n & <- & E & <-) Hm.
  apply max_group_size_shrinks; [|exact Hm].
  intros t. destruct (completed_pass_groups root pre false w w' n E t) as (H2 & H1 & H0).
  split; [exact H2|]. intros Hle.
  destruct (group_size (family_tokens (heap w) pre) t) as [|[|k]]; [| |lia].
  - now apply H0.
  - now rewrite H1.
Qed.

(** ** Preview and apply, on the records *)

(** C9. The two assignments to [newest] are made in preview mode as in
    apply mode: from the same records, two passes over a family that
    both return, one in each mode and on whatever disks, leave the same
    records (tokens and paths), count the same conflicts and announce
    the same renames in the same order; what they leave is the mode-free
    [renumber_family]. *)
Theorem preview_renumbers_like_apply (root : Path) (pre : string)
    (w_dry w_app w1 w2 : World) (n1 n2 : nat) :
  heap w_dry = heap w_app ->
  resolve_conflicts_for_prefix root pre true w_dry = (w1, inr n1) ->
  resolve_conflicts_for_prefix root pre false w_app = (w2, inr n2) ->
  heap w1 = heap w2
  /\ map token (heap w1) = map token (heap w2)
  /\ map path (heap w1) = map path (heap w2)
  /\ n1 = n2
  /\ heap w1 = renumber_family pre (heap w_dry)
  /\ (exists announced,
        report_lines (out w1) = report_lines (out w_dry) ++ announced
        /\ report_lines (out w2) = report_lines (out w_app) ++ announced).
Proof.
  intros Hh E1 E2.
  apply resolve_returns in E1 as (H1 & N1 & O1 & _).
  apply resolve_returns in E2 as (H2 & N2 & O2 & _).
  rewrite <- Hh in H2, N2, O2.
  assert (heap w1 = heap w2) as E by congruence.
  repeat split; try congruence.
  exists (announce_family pre (heap w_dry)). split; assumption.
Qed.

(** ** Preview mode and the disk *)

Lemma keeps_disk_ret {A} (a : A) : keeps_disk (ret a).
Proof. intros w. reflexivity. Qed.

Lemma keeps_disk_bind {A B} (m : M A) (k : A -> M B) :
  keeps_disk m -> (forall a, keeps_disk (k a)) -> keeps_disk (bind m k).
Proof.
  intros Hm Hk w. unfold bind. specialize (Hm w).
  destruct (m w) as [w' [e|a]]; simpl in *; [exact Hm|].
  rewrite (Hk a w'). exact Hm.
Qed.

Lemma keeps_disk_print (line : string) : keeps_disk (print line).
Proof. intros w. reflexivity. Qed.

Lemma keeps_disk_get_disk : keeps_disk get_disk.
Proof. intros w. reflexivity. Qed.

Lemma keeps_disk_modify_heap (f : list SpecFile -> list SpecFile) :
  keeps_disk (modify_heap f).
Proof. intros w. reflexivity. Qed.

Lemma keeps_disk_resolve (root : Path) (pre : string) :
  keeps_disk (resolve_conflicts_for_prefix root pre true).
Proof.
  intros w. destruct (resolve_any root pre true w) as (k & _ & H). now apply H.
Qed.

Lemma keeps_disk_for_each {A S} (l : list A) (body : S -> A -> M S) (acc : S) :
  (forall acc x, keeps_disk (body acc x)) -> keeps_disk (for_each l acc body).
Proof.
  intros H. revert acc. induction l as [|x l IH]; intros acc; simpl.
  - apply keeps_disk_ret.
  - apply keeps_disk_bind; [apply H|]. intros a. apply IH.
Qed.

Lemma keeps_disk_scan_root (root : Path) (total : nat) (specs_root : Path) :
  keeps_disk (scan_root root true total specs_root).
Proof.
  unfold scan_root. apply keeps_disk_bind; [apply keeps_disk_get_disk|]. intros fs.
  apply keeps_disk_bind; [apply keeps_disk_modify_heap|]. intros _.
  destruct (iter_spec_files fs specs_root).
  - apply keeps_disk_bind; [apply keeps_disk_print|]. intros _. apply keeps_disk_ret.
  - apply keeps_disk_bind; [apply keeps_disk_print|]. intros _.
    apply keeps_disk_bind; [apply keeps_disk_resolve|]. intros oss.
    apply keeps_disk_bind; [apply keeps_disk_resolve|]. intros ent.
    apply keeps_disk_ret.
Qed.

Lemma keeps_disk_main (root : Path) : keeps_disk (main root false).
Proof.
  unfold main. cbn [negb].
  apply keeps_disk_bind; [apply keeps_disk_get_disk|]. intros fs.
  destruct (find_specs_root fs root).
  - apply keeps_disk_bind; [apply keeps_disk_print|]. intros _. apply keeps_disk_ret.
  - apply keeps_disk_bind.
    + apply keeps_disk_for_each. intros acc x. apply keeps_disk_scan_root.
    + intros total. apply keeps_disk_bind; [|intros _; apply keeps_disk_ret].
      destruct (total =? 0)%nat; apply keeps_disk_print.
Qed.

(** C7. A run in preview mode, on any file system and whether it
    completes or is cut short by an exception, leaves the file system
    as it was: the same directories, the same files under the same
    paths, with the same content and the same modification times. *)
Theorem preview_leaves_disk_unchanged (fs : FS) (repo_root : Path) :
  disk (fst (run fs repo_root false)) = fs
  /\ map fpath (files (disk (fst (run fs repo_root false)))) = map fpath (files fs)
  /\ map fdata (files (disk (fst (run fs repo_root false)))) = map fdata (files fs).
Proof.
  assert (disk (fst (run fs repo_root false)) = fs) as H.
  { unfold run. rewrite keeps_disk_main. reflexivity. }
  rewrite H. auto.
Qed.

(** ** The exit status *)

(** C8, as stated, fails: a candidate root path can exist without being
    a directory; the run then exits with status 1 although one of the
    two paths exists. *)
Lemma exit_status_one_although_path_exists :
  Fs.exists_ specs_is_a_file ["repo"; ".ai"; "specs"] = true
  /\ snd (run specs_is_a_file ["repo"] false) = inr 1%nat
  /\ snd (run specs_is_a_file ["repo"] true) = inr 1%nat.
Proof. repeat split; reflexivity. Qed.

Lemma find_specs_root_nil (fs : FS) (repo_root : Path) :
  find_specs_root fs repo_root = [] <->
  forall p, List.In p (candidate_roots repo_root) -> Fs.is_dir fs p = false.
Proof.
  unfold find_specs_root, candidate_roots. cbn [List.filter].
  split.
  - intros H p [<-|[<-|[]]];
      destruct (Fs.is_dir fs (PurePath.join repo_root [".ai"; "specs"])) eqn:E1;
      destruct (Fs.is_dir fs (PurePath.join repo_root ["ai"; "specs"])) eqn:E2;
      try reflexivity; unfold Fs.exists_ in H; rewrite ?E1, ?E2 in H; simpl in H;
      try discriminate H;
      destruct (Fs.is_file fs (PurePath.join repo_root [".ai"; "specs"]));
      simpl in H; discriminate H.
  - intros H. rewrite (H (PurePath.join repo_root [".ai"; "specs"])) by (simpl; auto).
    rewrite (H (PurePath.join repo_root ["ai"; "specs"])) by (simpl; auto).
    rewrite !andb_false_r. reflexivity.
Qed.

(** C8, amended. The exit status is 1 exactly when neither candidate
    root is an existing directory, and then the run prints one line and
    does nothing else; every other run that completes exits with 0,
    also when it finds no spec file or no conflict. *)
Theorem exit_status (fs : FS) (repo_root : Path) (apply : bool) :
  ((forall p, List.In p (candidate_roots repo_root) -> Fs.is_dir fs p = false) ->
   run fs repo_root apply = ({| heap := []; disk := fs; out := [no_roots_line] |}, inr 1%nat))
  /\ (forall w status,
        run fs repo_root apply = (w, inr status) ->
        (status = 1%nat <->
         forall p, List.In p (candidate_roots repo_root) -> Fs.is_dir fs p = false)
        /\ (status = 0%nat <->
            exists p, List.In p (candidate_roots repo_root) /\ Fs.is_dir fs p = true)).
Proof.
  split.
  - intros H. apply find_specs_root_nil in H.
    unfold run, main, bind, get_disk. cbn [disk]. rewrite H. reflexivity.
  - intros w status E.
    pose proof (find_specs_root_nil fs repo_root) as Hnil.
    unfold run, main in E. unfold bind at 1 in E. unfold get_disk at 1 in E. cbn [disk] in E.
    destruct (find_specs_root fs repo_root) as [|r roots] eqn:Er.
    + cbn in E. injection E as _ <-.
      split; [split; [intros _; now apply Hnil|reflexivity]|].
      split; [discriminate|]. intros (p & Hp & Hd).
      rewrite (proj1 Hnil eq_refl p Hp) in Hd. discriminate.
    + assert (status = 0%nat) as ->.
      { unfold bind at 1 in E.
        destruct (for_each (r :: roots) 0%nat (scan_root repo_root (negb apply)) _)
          as [w1 [e|total]]; [discriminate|].
        unfold bind in E. destruct (total =? 0)%nat; cbn in E; now injection E. }
      assert (exists p, List.In p (candidate_roots repo_root) /\ Fs.is_dir fs p = true) as Hex.
      { assert (List.In r (find_specs_root fs repo_root)) as Hr by (rewrite Er; left; reflexivity).
        unfold find_specs_root in Hr. apply List.filter_In in Hr as [Hin Hb].
        apply andb_true_iff in Hb as [_ Hb]. exists r. split; assumption. }
      split; [split; [discriminate|]|split; [intros _; exact Hex|reflexivity]].
      intros Hall. destruct Hex as (p & Hp & Hd). rewrite (Hall p Hp) in Hd. discriminate.
Qed.

(** ** The tie-break *)

(** C3, as stated, fails: of the two records with the token 003 it is
    the dated one that is renumbered, and the undated one keeps its
    token and its file name, although its modification time is the
    later one. *)
Lemma dated_record_does_not_keep_its_token :
  let before := iter_spec_files dated_and_undated ["repo"; ".ai"; "specs"] in
  let after := fst (run dated_and_undated ["repo"] true) in
  map dated_key before = [Date.make 2024 1 5; None]
  /\ map token before = ["003"; "003"]
  /\ map token (heap after) = ["004"; "003"]
  /\ map fpath (files (disk after))
     = [ ["repo"; ".ai"; "specs"; "SPEC-004-2024-01-05-intro.md"];
         ["repo"; ".ai"; "specs"; "SPEC-003-foo.md"] ]
  /\ token (obj (heap after) 0) <> token (obj before 0).
Proof. cbv zeta. repeat split; try reflexivity. vm_compute. discriminate. Qed.

Lemma dated_key_wins (x y : SpecFile) :
  dated_key x <> None -> dated_key y = None ->
  key_gt (sort_key x) (sort_key y) = true /\ key_gt (sort_key y) (sort_key x) = false.
Proof.
  intros Hx Hy. unfold key_gt, sort_key. rewrite Hy.
  destruct (dated_key x); [|congruence]. split; reflexivity.
Qed.

(** C3, amended. In a group of two records of which exactly one has a
    valid date at the start of its tail, the dated record is the one the
    tie-break selects, whatever the two modification times and the
    order of the two in the group: the undated record keeps its token,
    and the dated record is given the new token when the pass of the
    loop body returns. *)
Theorem dated_record_is_renumbered (root : Path) (pre : string) (dry : bool)
    (scoped : list nat) (width cc : nat) (tok : string) (dated undated : nat)
    (dupes : list nat) (w : World) :
  dated <> undated ->
  (dated < length (heap w))%nat ->
  dated_key (obj (heap w) dated) <> None ->
  dated_key (obj (heap w) undated) = None ->
  dupes = [dated; undated] \/ dupes = [undated; dated] ->
  let result := resolve_group root pre dry scoped width cc (tok, dupes) w in
  max_by_key (heap w) (List.hd 0%nat dupes) (List.tl dupes) = dated
  /\ token (obj (heap (fst result)) undated) = token (obj (heap w) undated)
  /\ (snd result = inr (S cc) ->
      token (obj (heap (fst result)) dated)
      = next_numeric_token (view (heap w) scoped) width).
Proof.
  intros Hne Hlt Hd Hu Hdupes result.
  destruct (dated_key_wins _ _ Hd Hu) as [Hgt Hngt].
  assert (max_by_key (heap w) (List.hd 0%nat dupes) (List.tl dupes) = dated) as Hmax.
  { destruct Hdupes as [-> | ->]; cbn [List.hd List.tl max_by_key].
    - now rewrite Hngt.
    - now rewrite Hgt. }
  split; [exact Hmax|].
  assert (exists first second, dupes = [first; second]) as (first & second & Ed)
      by (destruct Hdupes as [-> | ->]; eauto).
  subst dupes. cbn [List.hd List.tl] in Hmax.
  destruct (resolve_group_conflict root pre dry scoped width cc tok first second [] w)
    as (d' & extra & res & E & _ & _ & _).
  unfold result. rewrite E. cbn [fst snd heap]. clear E.
  unfold renumber_group. cbn [snd]. rewrite Hmax.
  split.
  - destruct res; [reflexivity|].
    rewrite obj_renumbered_other by exact Hne. reflexivity.
  - intros ->. rewrite obj_renumbered by exact Hlt. reflexivity.
Qed.

(** ** Undecodable files *)

Lemma visit_file_fst (old new : string) (dry : bool) (now : Q) (f : File) (c c' : nat) :
  fst (visit_file old new dry now f c) = fst (visit_file old new dry now f c').
Proof.
  unfold visit_file. destruct (negb _); [reflexivity|].
  destruct (decode _); [reflexivity|]. destruct (String.eqb _ _); reflexivity.
Qed.

Lemma walk_files_map (root : Path) (old new : string) (dry : bool) (now : Q)
    (fl : list File) (c : nat) :
  fst (walk_files root old new dry now fl c) = map (walk_one root old new dry now) fl.
Proof.
  revert c. induction fl as [|f fl IH]; intros c; simpl; [reflexivity|].
  unfold walk_one at 1.
  destruct (walked root f).
  - rewrite (visit_file_fst old new dry now f 0 c).
    destruct (visit_file old new dry now f c) as [f' c'].
    specialize (IH c'). destruct (walk_files root old new dry now fl c') as [rest n].
    simpl in *. now rewrite IH.
  - specialize (IH c). destruct (walk_files root old new dry now fl c) as [rest n].
    simpl in *. now rewrite IH.
Qed.

Lemma walk_one_path (root : Path) (old new : string) (dry : bool) (now : Q) (f : File) :
  fpath (walk_one root old new dry now f) = fpath f.
Proof.
  unfold walk_one, visit_file. destruct (walked root f); [|reflexivity].
  destruct (negb _); [reflexivity|]. destruct (decode _); [reflexivity|].
  destruct (String.eqb _ _); [reflexivity|]. destruct dry; reflexivity.
Qed.

Lemma walk_one_undecodable (root : Path) (old new : string) (dry : bool) (now : Q)
    (f : File) (raw : list Byte.byte) :
  fdata f = Undecodable raw -> walk_one root old new dry now f = f.
Proof.
  intros H. unfold walk_one, visit_file. destruct (walked root f); [|reflexivity].
  destruct (negb _); [reflexivity|]. rewrite H. reflexivity.
Qed.

Lemma find_map (g : File -> File) (p : Path) (fl : list File) :
  (forall f, fpath (g f) = fpath f) ->
  List.find (fun f => PurePath.eqb (fpath f) p) (map g fl)
  = option_map g (List.find (fun f => PurePath.eqb (fpath f) p) fl).
Proof.
  intros H. induction fl as [|f fl IH]; [reflexivity|].
  simpl. rewrite H. destruct (PurePath.eqb (fpath f) p); [reflexivity|exact IH].
Qed.

(** The walk of [replace_in_text_files] returns a count and never
    raises; it leaves an undecodable file where and as it was. *)
Lemma replace_in_text_files_tolerant (root : Path) (old new : string) (dry : bool)
    (w : World) :
  exists w' n,
    replace_in_text_files root old new dry w = (w', inr n)
    /\ heap w' = heap w /\ out w' = out w
    /\ forall p f raw,
         Fs.find_file (disk w) p = Some f -> fdata f = Undecodable raw ->
         Fs.find_file (disk w') p = Some f.
Proof.
  rewrite replace_in_text_files_run. eexists. eexists. split; [reflexivity|].
  cbn [heap out disk]. repeat split.
  intros p f raw Hf Hd. unfold Fs.find_file in *. cbn [files].
  rewrite walk_files_map, find_map by apply walk_one_path.
  rewrite Hf. cbn. f_equal. eapply walk_one_undecodable, Hd.
Qed.

(** The body of the loop on a group whose selected record is a file
    that does not decode: [replace_in_file] raises after the conflict
    line and the count have been printed, in either mode; the records
    are not updated and no file is renamed or rewritten. *)
Lemma resolve_group_undecodable (root : Path) (pre : string) (dry : bool)
    (scoped : list nat) (width cc : nat) (tok : string) (first second : nat)
    (rest : list nat) (w : World) (f : File) (raw : list Byte.byte) :
  let newest := obj (heap w) (max_by_key (heap w) first (second :: rest)) in
  Fs.find_file (disk w) (path newest) = Some f ->
  fdata f = Undecodable raw ->
  exists w',
    resolve_group root pre dry scoped width cc (tok, first :: second :: rest) w
    = (w', inl UnicodeDecodeError)
    /\ heap w' = heap w
    /\ map fpath (files (disk w')) = map fpath (files (disk w))
    /\ Fs.find_file (disk w') (path newest) = Some f.
Proof.
  intros newest Hf Hd.
  unfold resolve_group. unfold bind at 1. unfold get_heap at 1.
  fold newest.
  unfold bind at 1. unfold print at 1.
  unfold bind at 1.
  match goal with |- context [replace_in_text_files ?a ?b ?c ?d ?w0] =>
    destruct (replace_in_text_files_tolerant a b c d w0) as (w1 & n & E & Hh & Ho & Hkeep);
    pose proof (replace_in_text_files_run a b c d w0) as Erun
  end.
  rewrite E. rewrite E in Erun. injection Erun as Ew1 _.
  unfold bind at 1. unfold print at 1.
  unfold bind at 1. unfold replace_in_file. unfold bind at 1. unfold read_text, io.
  cbn [disk heap out]. unfold Fs.read_text.
  rewrite (Hkeep (path newest) f raw Hf Hd), Hd. cbn [decode].
  eexists. split; [reflexivity|]. cbn [heap disk]. split; [exact Hh|].
  split; [|apply (Hkeep _ _ _ Hf Hd)].
  rewrite Ew1. cbn [disk files]. rewrite walk_files_map, map_map.
  apply map_ext. intros x. apply walk_one_path.
Qed.

Lemma for_each_skip_prefix (root : Path) (pre : string) (dry : bool)
    (scoped : list nat) (width : nat) (skipped items : list (string * list nat))
    (cc : nat) (w : World) :
  (forall item, List.In item skipped -> is_conflict item = false) ->
  for_each (skipped ++ items) cc (resolve_group root pre dry scoped width) w
  = for_each items cc (resolve_group root pre dry scoped width) w.
Proof.
  induction skipped as [|item skipped IH]; intros H; [reflexivity|].
  cbn [app for_each]. unfold bind at 1.
  destruct (resolve_group_skip root pre dry scoped width cc item w) as (-> & _).
  { apply H. left. reflexivity. }
  apply IH. intros i Hi. apply H. right. exact Hi.
Qed.

Lemma scan_root_nonempty (root : Path) (dry : bool) (total : nat) (specs_root : Path)
    (w : World) :
  iter_spec_files (disk w) specs_root <> [] ->
  scan_root root dry total specs_root w
  = (print (scanning_line specs_root) ;;
     oss <- resolve_conflicts_for_prefix root OSS_PREFIX dry ;;
     ent <- resolve_conflicts_for_prefix root ENT_PREFIX dry ;;
     ret (total + oss + ent)%nat)
      {| heap := iter_spec_files (disk w) specs_root; disk := disk w; out := out w |}.
Proof.
  intros H. unfold scan_root. unfold bind at 1. unfold get_disk at 1.
  unfold bind at 1. unfold modify_heap at 1.
  destruct (iter_spec_files (disk w) specs_root); [congruence|reflexivity].
Qed.

(** C10. Files that do not decode are tolerated by the repository-wide
    walk only: [replace_in_text_files] always returns.  When the record
    selected in the first conflict of the base family is a file that
    does not decode, the in-file replacement raises [UnicodeDecodeError]
    and nothing catches it: the run ends with that exception instead of
    an exit status, in preview mode as in apply mode. *)
Theorem undecodable_spec_aborts_run (fs : FS) (repo_root : Path) (apply : bool)
    (specs_root : Path) (roots : list Path)
    (skipped others : list (string * list nat)) (tok : string)
    (first second : nat) (rest : list nat) (f : File) (raw : list Byte.byte) :
  let specs := iter_spec_files fs specs_root in
  let newest := obj specs (max_by_key specs first (second :: rest)) in
  find_specs_root fs repo_root = specs_root :: roots ->
  family_items specs OSS_PREFIX = skipped ++ (tok, first :: second :: rest) :: others ->
  (forall item, List.In item skipped -> is_conflict item = false) ->
  Fs.find_file fs (path newest) = Some f ->
  fdata f = Undecodable raw ->
  snd (run fs repo_root apply) = inl UnicodeDecodeError
  /\ heap (fst (run fs repo_root apply)) = specs
  /\ map fpath (files (disk (fst (run fs repo_root apply)))) = map fpath (files fs)
  /\ (forall root old new dry w,
        exists w' n, replace_in_text_files root old new dry w = (w', inr n)).
Proof.
  intros specs newest Hroots Hitems Hskip Hf Hd.
  assert (forall root old new dry w,
             exists w' n, replace_in_text_files root old new dry w = (w', inr n)) as Htol.
  { intros root old new dry w.
    destruct (replace_in_text_files_tolerant root old new dry w) as (w' & n & E & _).
    eauto. }
  assert (specs <> []) as Hne.
  { intros E. unfold family_items in Hitems. rewrite E in Hitems. cbn in Hitems.
    destruct skipped; discriminate Hitems. }
  assert (exists w', run fs repo_root apply = (w', inl UnicodeDecodeError)
                     /\ heap w' = specs
                     /\ map fpath (files (disk w')) = map fpath (files fs))
    as (w' & -> & Hh & Hp); [|cbn [fst snd]; auto].
  unfold run, main. unfold bind at 1. unfold get_disk at 1. cbn [disk].
  rewrite Hroots. unfold bind at 1. cbn [for_each]. unfold bind at 1.
  rewrite scan_root_nonempty by exact Hne. cbn [disk out]. fold specs.
  unfold bind at 1. unfold print at 1. cbn [heap disk out].
  unfold bind at 1. unfold resolve_conflicts_for_prefix at 1.
  unfold bind at 1. unfold get_heap at 1. cbn [heap].
  fold (family_items specs OSS_PREFIX). rewrite Hitems.
  rewrite for_each_skip_prefix by exact Hskip.
  cbn [for_each]. unfold bind at 1.
  match goal with |- context [resolve_group ?a ?b ?c ?d ?e ?g ?i ?w0] =>
    destruct (resolve_group_undecodable a b c d e g tok first second rest w0 f raw)
      as (w' & E & Hh & Hp & _); [exact Hf|exact Hd|]
  end.
  rewrite E. exists w'. auto.
Qed.

(** ** The files after a resolved conflict *)

Lemma path_eqb_eq (p q : Path) : PurePath.eqb p q = true <-> p = q.
Proof.
  revert q. induction p as [|a p IH]; intros [|b q]; simpl; split; intros H;
    try discriminate; try reflexivity.
  - apply andb_true_iff in H as [Ha Hp]. apply String.eqb_eq in Ha.
    apply IH in Hp. congruence.
  - injection H as -> ->. rewrite String.eqb_refl. simpl. now apply IH.
Qed.

Lemma find_file_some (fs : FS) (p : Path) (f : File) :
  Fs.find_file fs p = Some f -> List.In f (files fs) /\ fpath f = p.
Proof.
  unfold Fs.find_file. intros H. apply List.find_some in H as [Hin Hp].
  apply path_eqb_eq in Hp. auto.
Qed.

Lemma unique_path (fl : list File) (f g : File) :
  List.NoDup (map fpath fl) -> List.In f fl -> List.In g fl -> fpath f = fpath g -> f = g.
Proof.
  induction fl as [|x fl IH]; intros Hnd Hf Hg E; [destruct Hf|].
  cbn [map] in Hnd. apply List.NoDup_cons_iff in Hnd as [Hx Hnd].
  destruct Hf as [->|Hf], Hg as [->|Hg]; auto.
  - exfalso. apply Hx. rewrite E. apply List.in_map, Hg.
  - exfalso. apply Hx. rewrite <- E. apply List.in_map, Hf.
Qed.

Lemma replace_go_absent (old new c : string) :
  Py.contains old c = false -> Py.replace_go old new 0 c = c.
Proof.
  induction c as [|a c IH]; intros H; [reflexivity|].
  cbn [Py.contains] in H. apply orb_false_iff in H as [H1 H2].
  cbn [Py.replace_go]. rewrite H1, IH by exact H2. reflexivity.
Qed.

(** A text in which [old] does not occur is left as it is. *)
Lemma replace_absent (old new c : string) :
  Py.contains old c = false -> Py.replace old new c = c.
Proof.
  intros H. unfold Py.replace. destruct old as [|a old].
  - destruct c; discriminate H.
  - apply replace_go_absent, H.
Qed.

Lemma walk_one_data (root : Path) (old new : string) (now : Q) (f : File) :
  fdata (walk_one root old new false now f) = propagate_file_name root old new f.
Proof.
  unfold walk_one, propagate_file_name, is_scanned_text, visit_file.
  destruct (walked root f); [|reflexivity]. cbn [andb].
  destruct (str_in _ TEXT_EXTENSIONS); cbn [negb]; [|reflexivity].
  destruct (fdata f) as [c|raw] eqn:E; cbn [decode substitute]; [|exact E].
  destruct (String.eqb_spec (Py.replace old new c) c) as [H|H]; cbn [fst fdata].
  - rewrite E, H. reflexivity.
  - reflexivity.
Qed.

Lemma is_file_false (fs : FS) (p : Path) :
  Fs.is_file fs p = false -> forall f, List.In f (files fs) -> PurePath.eqb (fpath f) p = false.
Proof.
  unfold Fs.is_file, Fs.find_file. intros H f Hf.
  destruct (List.find _ (files fs)) eqn:E; [discriminate|].
  exact (List.find_none _ _ E f Hf).
Qed.

Lemma filter_all {A} (g : A -> bool) (l : list A) :
  (forall x, List.In x l -> g x = true) -> List.filter g l = l.
Proof.
  induction l as [|x l IH]; intros H; [reflexivity|]. simpl.
  rewrite (H x (or_introl eq_refl)), IH; [reflexivity|].
  intros y Hy. apply H. right. exact Hy.
Qed.

(** Renaming a file to a path that names nothing moves that file and
    nothing else. *)
Lemma rename_to_free_path (fs : FS) (src dst : Path) :
  Fs.is_file fs src = true -> Fs.is_dir fs dst = false -> Fs.is_file fs dst = false ->
  Fs.rename fs src dst
  = inr {| dirs := dirs fs; files := map (Fs.move_file src dst) (files fs);
           clock := clock fs;
           dir_mtime := dir_mtime fs |}.
Proof.
  intros Hs Hd Hf. unfold Fs.rename. rewrite Hs, Hd. cbn [negb].
  destruct (PurePath.eqb src dst) eqn:E.
  { apply path_eqb_eq in E. subst. congruence. }
  rewrite filter_all; [reflexivity|].
  intros f Hin. rewrite (is_file_false fs dst Hf f Hin). reflexivity.
Qed.

(** [replace_in_file] in apply mode on a text file: the content of that
    file becomes the substituted text, nothing else changes. *)
Lemma replace_in_file_apply (p : Path) (old new : string) (w : World) (f : File) (c : string) :
  List.NoDup (map fpath (files (disk w))) ->
  Fs.find_file (disk w) p = Some f -> fdata f = Text c ->
  exists fl b,
    replace_in_file p old new false w
    = ({| heap := heap w;
          disk := {| dirs := dirs (disk w); files := fl; clock := clock (disk w);
                     dir_mtime := dir_mtime (disk w) |};
          out := out w |}, inr b)
    /\ map fpath fl = map fpath (files (disk w))
    /\ map path_and_data fl
       = map (fun g => if PurePath.eqb (fpath g) p
                       then (fpath g, Text (Py.replace old new c))
                       else path_and_data g) (files (disk w)).
Proof.
  intros Hnd Hf Hc. destruct (find_file_some _ _ _ Hf) as [Hin Hp].
  unfold replace_in_file, bind, read_text, io. unfold Fs.read_text. rewrite Hf, Hc.
  cbn [decode].
  destruct (String.eqb_spec (Py.replace old new c) c) as [E|E].
  - exists (files (disk w)), false. rewrite fs_eta, world_eta.
    split; [reflexivity|]. split; [reflexivity|].
    apply List.map_ext_in. intros g Hg.
    destruct (PurePath.eqb (fpath g) p) eqn:Eg; [|reflexivity].
    apply path_eqb_eq in Eg.
    assert (g = f) as -> by (apply (unique_path (files (disk w))); congruence).
    unfold path_and_data. rewrite Hc, E. reflexivity.
  - cbn [negb when]. unfold write_text, bind, io, put_disk, ret. unfold Fs.write_text.
    unfold Fs.is_file. rewrite Hf. cbn [heap disk out].
    eexists. exists true. split; [reflexivity|]. split.
    + rewrite map_map. apply List.map_ext. intros g. unfold Fs.write_file.
      destruct (PurePath.eqb (fpath g) p); reflexivity.
    + rewrite map_map. apply List.map_ext. intros g. unfold Fs.write_file.
      destruct (PurePath.eqb (fpath g) p); reflexivity.
Qed.

Lemma is_file_same_paths (fs fs' : FS) (p : Path) :
  map fpath (files fs') = map fpath (files fs) -> Fs.is_file fs' p = Fs.is_file fs p.
Proof.
  unfold Fs.is_file, Fs.find_file. generalize (files fs) as l, (files fs') as l'.
  induction l as [|x l IH]; intros [|y l'] H; try discriminate; [reflexivity|].
  simpl in H. injection H as Hxy Hl. simpl. rewrite Hxy.
  destruct (PurePath.eqb (fpath x) p); [reflexivity|]. apply IH, Hl.
Qed.

(** The body of the loop in apply mode, on a conflict whose selected
    record is a text file, on a disk that names each file once and on
    which the new path is free: it returns, and this is what it leaves. *)
Lemma resolve_group_apply (root : Path) (pre : string)
    (scoped : list nat) (width cc : nat) (tok : string) (first second : nat)
    (rest : list nat) (w : World) (f0 : File) (c0 : string) :
  let newest := obj (heap w) (max_by_key (heap w) first (second :: rest)) in
  let new_token := next_numeric_token (view (heap w) scoped) width in
  let new_name := make_file_name (prefix newest) new_token (tail newest) in
  let new_path := PurePath.with_name (path newest) new_name in
  List.NoDup (map fpath (files (disk w))) ->
  Fs.find_file (disk w) (path newest) = Some f0 ->
  fdata f0 = Text c0 ->
  Fs.is_dir (disk w) new_path = false ->
  Fs.is_file (disk w) new_path = false ->
  exists w',
    resolve_group root pre false scoped width cc (tok, first :: second :: rest) w
    = (w', inr (S cc))
    /\ map path_and_data (files (disk w'))
       = map (resolved_file root (path newest) new_path (base_name newest) new_name
                (spec_id newest) (make_spec_id (prefix newest) new_token))
           (files (disk w))
    /\ dirs (disk w') = dirs (disk w)
    /\ heap w' = renumber_group scoped width (heap w) (tok, first :: second :: rest).
Proof.
  intros newest new_token new_name new_path Hnd Hf Hc Hdir Hfree.
  destruct (find_file_some _ _ _ Hf) as [Hin0 Hp0].
  set (old_id := spec_id newest). set (new_id := make_spec_id (prefix newest) new_token).
  set (step1 := walk_one root (base_name newest) new_name false (clock (disk w))).
  assert (exists c1, propagate_file_name root (base_name newest) new_name f0 = Text c1)
    as [c1 Hc1].
  { unfold propagate_file_name. rewrite Hc. destruct (is_scanned_text root f0); cbn; eauto. }
  unfold resolve_group. unfold bind at 1. unfold get_heap at 1.
  fold newest. fold new_token. fold new_name. fold new_path. fold old_id. fold new_id.
  unfold bind at 1. unfold print at 1.
  unfold bind at 1. rewrite replace_in_text_files_run. cbn [heap disk out].
  rewrite walk_files_map. fold step1.
  unfold bind at 1. unfold print at 1. cbn [heap disk out].
  unfold bind at 1.
  match goal with |- context [replace_in_file _ _ _ false ?w3] =>
    destruct (replace_in_file_apply (path newest) old_id new_id w3 (step1 f0) c1)
      as (fl & b & E3 & Hpaths & Hdata)
  end.
  { cbn [disk files]. rewrite map_map.
    rewrite (List.map_ext _ fpath) by (intros; apply walk_one_path). exact Hnd. }
  { unfold Fs.find_file in *. cbn [disk files].
    rewrite find_map by (intros; apply walk_one_path). rewrite Hf. reflexivity. }
  { unfold step1. rewrite walk_one_data. exact Hc1. }
  rewrite E3. cbn [heap disk out files dirs clock] in *.
  assert (map fpath fl = map fpath (files (disk w))) as Hpaths'.
  { rewrite Hpaths, map_map. apply List.map_ext. intros; apply walk_one_path. }
  unfold bind at 1.
  assert (forall w4, exists o, when b (print (spec_id_line old_id new_id)) w4
                               = ({| heap := heap w4; disk := disk w4; out := o |}, inr tt))
    as Hwhen.
  { intros w4. destruct b; cbn; eexists; [reflexivity|]. now rewrite world_eta. }
  match goal with |- context [when b _ ?w4] => destruct (Hwhen w4) as [o ->] end.
  cbn [heap disk out negb when].
  unfold bind at 1. unfold rename, bind at 1, io. cbn [disk].
  rewrite rename_to_free_path; cbn [dirs files clock].
  2:{ rewrite (is_file_same_paths (disk w)) by exact Hpaths'.
      unfold Fs.is_file. now rewrite Hf. }
  2:{ exact Hdir. }
  2:{ rewrite (is_file_same_paths (disk w)) by exact Hpaths'. exact Hfree. }
  unfold put_disk. unfold bind at 1. unfold modify_heap at 1.
  unfold bind at 1. unfold modify_heap at 1. unfold ret. cbn [heap disk out].
  eexists. split; [reflexivity|]. cbn [disk files dirs heap].
  split; [|split; reflexivity].
  assert (map path_and_data (map (Fs.move_file (path newest) new_path) fl)
          = map (fun qd : Path * FileData =>
                   if PurePath.eqb (fst qd) (path newest) then (new_path, snd qd) else qd)
              (map path_and_data fl)) as ->.
  { rewrite !map_map. apply List.map_ext. intros g. unfold Fs.move_file, path_and_data.
    cbn [fst snd]. destruct (PurePath.eqb (fpath g) (path newest)); reflexivity. }
  rewrite Hdata, !map_map. apply List.map_ext_in. intros g Hg.
  unfold resolved_file, path_and_data, step1.
  rewrite !walk_one_path, walk_one_data.
  destruct (PurePath.eqb (fpath g) (path newest)) eqn:Eg; cbn [fst snd].
  - rewrite Eg. apply path_eqb_eq in Eg.
    assert (g = f0) as -> by (apply (unique_path (files (disk w))); congruence).
    rewrite Hc1. reflexivity.
  - rewrite Eg. reflexivity.
Qed.

(** C6, as stated, fails: the identifier is replaced in the renamed
    document after the file names, in the text that the first
    substitution has left.  Where the old identifier occurs in the new
    file name (the new token starts with the old one, or the tail holds
    the identifier), the file name that was just written is rewritten
    in its turn: the document held the old base name, and after the run
    it does not hold the new base name. *)
Lemma new_base_name_is_rewritten :
  snd (run one_digit_tokens ["repo"] true) = inr 0%nat
  /\ map path_and_data (files (disk (fst (run one_digit_tokens ["repo"] true))))
     = [ (["repo"; ".ai"; "specs"; "SPEC-1-a.md"], Text "a");
         (["repo"; ".ai"; "specs"; "SPEC-10-b.md"], Text "# SPEC-100-b.md");
         (["repo"; ".ai"; "specs"; "SPEC-9-c.md"], Text "c") ]
  /\ Py.replace "SPEC-1-b.md" "SPEC-10-b.md" "# SPEC-1-b.md" = "# SPEC-10-b.md"
  /\ Py.contains "SPEC-10-b.md" "# SPEC-100-b.md" = false
  /\ snd (run identifier_in_tail ["repo"] true) = inr 0%nat
  /\ map path_and_data (files (disk (fst (run identifier_in_tail ["repo"] true))))
     = [ (["repo"; ".ai"; "specs"; "SPEC-003-a.md"], Text "a");
         (["repo"; ".ai"; "specs"; "SPEC-004-replaces-SPEC-003-a.md"],
          Text "# SPEC-004-replaces-SPEC-004-a.md") ]
  /\ Py.contains "SPEC-004-replaces-SPEC-003-a.md" "# SPEC-004-replaces-SPEC-004-a.md"
     = false.
Proof. repeat split; reflexivity. Qed.

(** C6, amended. When a conflict is resolved in apply mode (the renamed
    document is a text file, the file system names each file once and
    the new path is free), the body of the loop returns and every file
    is where and what [resolved_file] says.  In every file other than
    the renamed one, the old base name is replaced by the new one if
    the file is a scanned text file, and nothing else changes: the bare
    old identifier stays, and a file in which the old base name does not
    occur is left exactly as it was.  The renamed file moves to the new
    path, and holds the result of the two substitutions one after the
    other: the old base name is replaced by the new one (if the file is
    a scanned text file), and then the old identifier is replaced by the
    new one in the resulting text, the new base names written there
    included. *)
Theorem resolved_conflict_rewrites (root : Path) (pre : string)
    (scoped : list nat) (width cc : nat) (tok : string) (first second : nat)
    (rest : list nat) (w : World) (f0 : File) (c0 : string) :
  let newest := obj (heap w) (max_by_key (heap w) first (second :: rest)) in
  let new_token := next_numeric_token (view (heap w) scoped) width in
  let new_name := make_file_name (prefix newest) new_token (tail newest) in
  let new_path := PurePath.with_name (path newest) new_name in
  List.NoDup (map fpath (files (disk w))) ->
  Fs.find_file (disk w) (path newest) = Some f0 ->
  fdata f0 = Text c0 ->
  Fs.is_dir (disk w) new_path = false ->
  Fs.is_file (disk w) new_path = false ->
  exists w',
    resolve_group root pre false scoped width cc (tok, first :: second :: rest) w
    = (w', inr (S cc))
    /\ map path_and_data (files (disk w'))
       = map (resolved_file root (path newest) new_path (base_name newest) new_name
                (spec_id newest) (make_spec_id (prefix newest) new_token))
           (files (disk w))
    /\ (forall f c,
          List.In f (files (disk w)) -> fpath f <> path newest ->
          fdata f = Text c -> Py.contains (base_name newest) c = false ->
          List.In (fpath f, Text c) (map path_and_data (files (disk w'))))
    /\ (forall f,
          List.In f (files (disk w)) -> fpath f <> path newest ->
          List.In (fpath f,
                   if is_scanned_text root f
                   then substitute (base_name newest) new_name (fdata f)
                   else fdata f)
            (map path_and_data (files (disk w'))))
    /\ List.In (new_path,
                Text (Py.replace (spec_id newest) (make_spec_id (prefix newest) new_token)
                        (if is_scanned_text root f0
                         then Py.replace (base_name newest) new_name c0
                         else c0)))
         (map path_and_data (files (disk w'))).
Proof.
  intros newest new_token new_name new_path Hnd Hf Hc Hdir Hfree.
  destruct (resolve_group_apply root pre scoped width cc tok first second rest w f0 c0
              Hnd Hf Hc Hdir Hfree) as (w' & E & Hfiles & _).
  exists w'. split; [exact E|]. split; [exact Hfiles|].
  subst newest new_token new_name new_path.
  split; [|split].
  - intros f c Hin Hne Hfc Habs. rewrite Hfiles.
    apply List.in_map_iff. exists f. split; [|exact Hin].
    unfold resolved_file.
    destruct (PurePath.eqb (fpath f) _) eqn:Eg;
      [apply path_eqb_eq in Eg; contradiction|].
    f_equal. unfold propagate_file_name. rewrite Hfc.
    destruct (is_scanned_text root f); [|reflexivity].
    cbn [substitute]. now rewrite replace_absent.
  - intros f Hin Hne. rewrite Hfiles.
    apply List.in_map_iff. exists f. split; [|exact Hin].
    unfold resolved_file.
    destruct (PurePath.eqb (fpath f) _) eqn:Eg;
      [apply path_eqb_eq in Eg; contradiction|].
    reflexivity.
  - destruct (find_file_some _ _ _ Hf) as [Hin Hp].
    rewrite Hfiles. apply List.in_map_iff. exists f0. split; [|exact Hin].
    unfold resolved_file, propagate_file_name.
    rewrite (proj2 (path_eqb_eq _ _) Hp), Hc.
    destruct (is_scanned_text root f0); reflexivity.
Qed.

(** ** Preview and apply, on the output *)

(** C1, as stated, fails: apply mode rewrites the file name inside the
    renamed document before it looks for the identifier there, preview
    mode looks in the untouched document; the in-file line is printed
    by the one and not by the other. *)
Lemma preview_and_apply_outputs_differ :
  out (fst (run self_reference ["repo"] false))
  = [ "Scanning /repo/.ai/specs";
      "Conflict SPEC-003: move newest SPEC-003-b.md -> SPEC-004-b.md";
      "  Updated filename references in 1 text file(s)";
      "  Updated in-file spec id SPEC-003 -> SPEC-004";
      "Resolved 1 conflict(s) in dry-run mode." ]
  /\ out (fst (run self_reference ["repo"] true))
     = [ "Scanning /repo/.ai/specs";
         "Conflict SPEC-003: move newest SPEC-003-b.md -> SPEC-004-b.md";
         "  Updated filename references in 1 text file(s)";
         "Resolved 1 conflict(s) in apply mode." ]
  /\ removelast (out (fst (run self_reference ["repo"] false)))
     <> removelast (out (fst (run self_reference ["repo"] true))).
Proof. repeat split; try reflexivity. vm_compute. discriminate. Qed.

Lemma scan_root_returns (root : Path) (dry : bool) (total : nat) (specs_root : Path)
    (w w' : World) (n : nat) :
  scan_root root dry total specs_root w = (w', inr n) ->
  let specs := iter_spec_files (disk w) specs_root in
  let specs' := renumber_family OSS_PREFIX specs in
  (specs = [] /\ n = total /\ heap w' = []
   /\ report_lines (out w') = report_lines (out w) ++ [no_specs_line specs_root])
  \/ (specs <> []
      /\ heap w' = renumber_family ENT_PREFIX specs'
      /\ n = (total + count_conflicts (family_items specs OSS_PREFIX)
              + count_conflicts (family_items specs' ENT_PREFIX))%nat
      /\ report_lines (out w')
         = report_lines (out w) ++ [scanning_line specs_root]
             ++ announce_family OSS_PREFIX specs ++ announce_family ENT_PREFIX specs').
Proof.
  intros E. cbv zeta.
  destruct (iter_spec_files (disk w) specs_root) as [|s0 l] eqn:Es.
  - left. unfold scan_root in E. unfold bind at 1 in E. unfold get_disk at 1 in E.
    rewrite Es in E. cbn in E. injection E as <- <-. cbn [heap out].
    rewrite report_lines_app. auto.
  - right. rewrite scan_root_nonempty in E by (rewrite Es; discriminate).
    rewrite Es in E.
    unfold bind at 1 in E. unfold print at 1 in E. cbn [heap disk out] in E.
    unfold bind at 1 in E.
    destruct (resolve_conflicts_for_prefix root OSS_PREFIX dry _) as [w1 [e|oss]] eqn:E1;
      [discriminate|].
    unfold bind at 1 in E.
    destruct (resolve_conflicts_for_prefix root ENT_PREFIX dry w1) as [w2 [e|ent]] eqn:E2;
      [discriminate|].
    injection E as <- <-.
    apply resolve_returns in E1 as (H1 & N1 & O1 & _).
    apply resolve_returns in E2 as (H2 & N2 & O2 & _).
    cbn [heap out] in *. rewrite H1 in H2, N2, O2.
    split; [discriminate|]. split; [exact H2|]. split; [congruence|].
    rewrite O2, O1, report_lines_app, <- !app_assoc. reflexivity.
Qed.

Lemma report_summary (total : nat) (dry : bool) :
  report_lines [summary_line total dry] = [summary_line total dry].
Proof. unfold summary_line. destruct (total =? 0)%nat; reflexivity. Qed.

(** C1, amended. On a repository with one registry root, a preview run
    and an apply run that both complete exit with the same status and
    print the same lines, in the same order, apart from the lines
    [Updated ...] (the count of files with references and the in-file
    identifier, which each mode computes from the disk as it finds it)
    and apart from the mode named in the summary; the conflicts, the
    files to move, their new names and the total are the same. *)
Theorem preview_and_apply_report_alike (fs : FS) (repo_root specs_root : Path)
    (w_dry w_app : World) (status_dry status_app : nat) :
  find_specs_root fs repo_root = [specs_root] ->
  run fs repo_root false = (w_dry, inr status_dry) ->
  run fs repo_root true = (w_app, inr status_app) ->
  status_dry = status_app
  /\ heap w_dry = heap w_app
  /\ exists lines total,
       report_lines (out w_dry) = lines ++ [summary_line total true]
       /\ report_lines (out w_app) = lines ++ [summary_line total false].
Proof.
  intros Hroots Ed Ea.
  assert (forall apply w status,
             run fs repo_root apply = (w, inr status) ->
             exists w1 total,
               scan_root repo_root (negb apply) 0%nat specs_root
                 {| heap := []; disk := fs; out := [] |} = (w1, inr total)
               /\ status = 0%nat /\ heap w = heap w1
               /\ report_lines (out w)
                  = report_lines (out w1) ++ [summary_line total (negb apply)]) as Hrun.
  { intros apply w status E. unfold run, main in E.
    unfold bind at 1 in E. unfold get_disk at 1 in E. cbn [disk] in E.
    rewrite Hroots in E. unfold bind at 1 in E. cbn [for_each] in E.
    unfold bind at 1 in E.
    destruct (scan_root repo_root (negb apply) 0%nat specs_root _) as [w1 [e|total]] eqn:E1;
      [discriminate|].
    exists w1, total. split; [reflexivity|].
    unfold ret at 1 in E. unfold bind in E. fold (summary_line total (negb apply)) in E.
    assert (forall line, print line w1
                         = ({| heap := heap w1; disk := disk w1; out := out w1 ++ [line] |},
                            inr tt)) as Hp by reflexivity.
    assert ((if (total =? 0)%nat then print no_conflicts_line
             else print (resolved_line total (negb apply))) w1
            = print (summary_line total (negb apply)) w1) as Hs
        by (unfold summary_line; destruct (total =? 0)%nat; reflexivity).
    rewrite Hs, Hp in E. cbn in E. injection E as <- <-. cbn [heap out].
    rewrite report_lines_app, report_summary. auto. }
  destruct (Hrun false w_dry status_dry Ed) as (w1 & t1 & S1 & -> & Hh1 & Ho1).
  destruct (Hrun true w_app status_app Ea) as (w2 & t2 & S2 & -> & Hh2 & Ho2).
  cbn [negb] in *.
  apply scan_root_returns in S1, S2. cbn [disk out] in S1, S2. cbv zeta in S1, S2.
  split; [reflexivity|].
  destruct S1 as [(Hs1 & -> & H1 & O1)|(Hs1 & H1 & -> & O1)];
    destruct S2 as [(Hs2 & -> & H2 & O2)|(Hs2 & H2 & -> & O2)]; try congruence.
  - split; [congruence|]. eexists. exists 0%nat. rewrite Ho1, Ho2, O1, O2. auto.
  - split; [congruence|]. eexists. eexists. rewrite Ho1, Ho2, O1, O2. auto.
Qed.

(** Preview and apply can also disagree on a count of references: once
    apply mode has rewritten the first file name inside the note, the
    note no longer mentions the second. *)
Example later_counts_differ :
  out (fst (run nested_file_names ["repo"] false))
  = [ "Scanning /repo/.ai/specs";
      "Conflict SPEC-003: move newest SPEC-003-b.md -> SPEC-006-b.md";
      "  Updated filename references in 1 text file(s)";
      "Conflict SPEC-005: move newest SPEC-005-SPEC-003-b.md -> SPEC-007-SPEC-003-b.md";
      "  Updated filename references in 1 text file(s)";
      "Resolved 2 conflict(s) in dry-run mode." ]
  /\ out (fst (run nested_file_names ["repo"] true))
     = [ "Scanning /repo/.ai/specs";
         "Conflict SPEC-003: move newest SPEC-003-b.md -> SPEC-006-b.md";
         "  Updated filename references in 1 text file(s)";
         "Conflict SPEC-005: move newest SPEC-005-SPEC-003-b.md -> SPEC-007-SPEC-003-b.md";
         "  Updated filename references in 0 text file(s)";
         "Resolved 2 conflict(s) in apply mode." ].
Proof. split; reflexivity. Qed.

(** With two registry roots they can disagree on the conflict itself:
    the second root is scanned after the first has been resolved, and a
    file that apply mode has rewritten in between has become the newest
    of its group. *)
Example second_root_differs :
  out (fst (run two_roots ["repo"] false))
  = [ "Scanning /repo/.ai/specs";
      "Conflict SPEC-003: move newest SPEC-003-b.md -> SPEC-004-b.md";
      "  Updated filename references in 1 text file(s)";
      "Scanning /repo/ai/specs";
      "Conflict SPEC-001: move newest SPEC-001-y.md -> SPEC-002-y.md";
      "  Updated filename references in 0 text file(s)";
      "Resolved 2 conflict(s) in dry-run mode." ]
  /\ out (fst (run two_roots ["repo"] true))
     = [ "Scanning /repo/.ai/specs";
         "Conflict SPEC-003: move newest SPEC-003-b.md -> SPEC-004-b.md";
         "  Updated filename references in 1 text file(s)";
         "Scanning /repo/ai/specs";
         "Conflict SPEC-001: move newest SPEC-001-x.md -> SPEC-002-x.md";
         "  Updated filename references in 0 text file(s)";
         "Resolved 2 conflict(s) in apply mode." ].
Proof. split; reflexivity. Qed.

(** ** File names *)

Lemma startswith_app (p x : string) : Py.startswith (p ++ x) p = true.
Proof.
  induction p as [|a p IH]; [reflexivity|]. simpl.
  rewrite Ascii.eqb_refl. exact IH.
Qed.

Lemma drop_app (p x : string) : Py.drop (String.length p) (p ++ x) = x.
Proof. induction p as [|a p IH]; [reflexivity|exact IH]. Qed.

Lemma drop_app_plus (p x : string) (k : nat) :
  Py.drop (String.length p + k) (p ++ x) = Py.drop k x.
Proof. induction p as [|a p IH]; [reflexivity|exact IH]. Qed.

Lemma take_app (p x : string) : Py.take (String.length p) (p ++ x) = p.
Proof. induction p as [|a p IH]; [destruct x; reflexivity|]. simpl. now rewrite IH. Qed.

Lemma take_while_app (p : ascii -> bool) (tok x : string) (c : ascii) :
  Py.all_chars p tok = true -> p c = false ->
  take_while p (tok ++ String c x) = tok.
Proof.
  intros Ht Hc. induction tok as [|a tok IH]; simpl.
  - now rewrite Hc.
  - simpl in Ht. apply andb_true_iff in Ht as [Ha Ht]. rewrite Ha, IH by exact Ht.
    reflexivity.
Qed.

Lemma all_digit_all_alnum (s : string) :
  Py.all_chars Py.is_ascii_digit s = true -> Py.all_chars Py.is_alnum s = true.
Proof.
  induction s as [|a s IH]; [reflexivity|]. simpl. intros H.
  apply andb_true_iff in H as [Ha Hs]. rewrite IH by exact Hs.
  unfold Py.is_alnum. rewrite Ha. reflexivity.
Qed.

Lemma endswith_app (x s : string) : Py.endswith (x ++ s) s = true.
Proof.
  unfold Py.endswith. rewrite string_length_app.
  replace (String.length x + String.length s - String.length s)%nat
    with (String.length x) by lia.
  rewrite drop_app, String.eqb_refl.
  apply andb_true_iff. split; [apply Nat.leb_le; lia|reflexivity].
Qed.

Lemma not_endswith_newline (x : string) :
  Py.endswith (x ++ ".md") (String newline "") = false.
Proof.
  unfold Py.endswith. rewrite string_length_app. cbn [String.length].
  replace (String.length x + 3 - 1)%nat with (String.length x + 2)%nat by lia.
  rewrite drop_app_plus. cbn. apply andb_false_r.
Qed.

(** The name pattern reads a generated file name back as the parts it
    was made of. *)
Lemma match_after_prefix_made (pre tok tl : string) :
  Py.isdigit tok = true -> tl <> "" -> has_newline tl = false ->
  match_after_prefix pre (make_file_name pre tok tl) = Some (pre, tok, tl).
Proof.
  intros Htok Htl Hnl. unfold match_after_prefix, make_file_name.
  assert ((pre ++ "-" ++ tok ++ "-" ++ tl ++ ".md")%string
          = ((pre ++ "-") ++ tok ++ "-" ++ tl ++ ".md")%string) as E
      by (now rewrite string_app_assoc).
  rewrite E at 1. rewrite startswith_app.
  assert (String.length pre + 1 = String.length (pre ++ "-"))%nat as ->
      by (rewrite string_length_app; reflexivity).
  rewrite E, drop_app.
  assert (Py.all_chars Py.is_ascii_digit tok = true /\ tok <> "") as [Hd Hne].
  { destruct tok; [discriminate|]. split; [exact Htok|discriminate]. }
  change ("-" ++ tl ++ ".md")%string with (String "-" (tl ++ ".md")).
  rewrite take_while_app by (try apply all_digit_all_alnum; auto).
  rewrite drop_app.
  assert (Py.is_ascii_digit (char_at 0 tok) = true) as ->.
  { destruct tok as [|c r]; [congruence|]. simpl in Hd.
    apply andb_true_iff in Hd as [Hc _]. exact Hc. }
  cbn [Py.startswith Py.drop andb]. rewrite Ascii.eqb_refl. cbn [andb].
  rewrite not_endswith_newline, endswith_app.
  rewrite string_length_app. cbn [String.length].
  replace (String.length tl + 3 - 3)%nat with (String.length tl) by lia.
  rewrite take_app, Hnl.
  destruct tl as [|c r]; [congruence|]. reflexivity.
Qed.

Lemma match_name_made (pre tok tl : string) :
  pre = OSS_PREFIX \/ pre = ENT_PREFIX ->
  Py.isdigit tok = true -> tl <> "" -> has_newline tl = false ->
  match_name (make_file_name pre tok tl) = Some (pre, tok, tl).
Proof.
  intros Hpre Htok Htl Hnl. unfold match_name.
  destruct Hpre as [-> | ->].
  - assert (match_after_prefix "SPEC-ENT" (make_file_name OSS_PREFIX tok tl) = None) as ->.
    { unfold match_after_prefix, make_file_name, OSS_PREFIX.
      destruct tok as [|c r]; [discriminate|].
      simpl in Htok. apply andb_true_iff in Htok as [Hc _].
      cbn [String.append Py.startswith].
      rewrite !Ascii.eqb_refl. cbn [andb].
      destruct (Ascii.eqb "E" c) eqn:Ec; [|reflexivity].
      apply Ascii.eqb_eq in Ec. subst c. discriminate Hc. }
    apply (match_after_prefix_made OSS_PREFIX); assumption.
  - rewrite (match_after_prefix_made ENT_PREFIX) by assumption. reflexivity.
Qed.

(** ** Scanning *)

Lemma iter_spec_files_entries (fs : FS) (specs_root : Path) :
  map record_key (iter_spec_files fs specs_root)
  = flat_map (scan_path specs_root) (map epath (entries fs)).
Proof.
  unfold iter_spec_files, rglob_md. induction (entries fs) as [|e el IH]; [reflexivity|].
  cbn [List.filter map flat_map]. unfold scan_path at 1.
  destruct (PurePath.relative_to (epath e) specs_root) as [[|c rel]|]; try exact IH.
  destruct (Py.endswith (PurePath.name (epath e)) ".md"); [|exact IH].
  cbn [flat_map]. rewrite map_app, IH. f_equal.
  destruct (String.eqb _ "analysis"); [reflexivity|].
  destruct (match_name _) as [[[pre tok] tl]|]; reflexivity.
Qed.

(** Where no directory is named like a document, the scan is a scan of
    the regular files. *)
Lemma iter_spec_files_keys (fs : FS) (specs_root : Path) :
  (forall d, List.In d (dirs fs) -> Py.endswith (PurePath.name d) ".md" = false) ->
  map record_key (iter_spec_files fs specs_root)
  = flat_map (scan_path specs_root) (map fpath (files fs)).
Proof.
  intros Hdirs. rewrite iter_spec_files_entries. unfold entries.
  rewrite map_app, List.flat_map_app, !map_map. cbn [file_entry dir_entry epath].
  assert (flat_map (scan_path specs_root) (map (fun d : Path => d) (dirs fs)) = []) as ->.
  { induction (dirs fs) as [|d ds IH]; [reflexivity|].
    cbn [map flat_map]. rewrite IH by (intros d' Hd'; apply Hdirs; now right).
    unfold scan_path. rewrite (Hdirs d) by now left.
    destruct (PurePath.relative_to d specs_root) as [[|c rel]|]; reflexivity. }
  now rewrite app_nil_r.
Qed.

Lemma relative_to_app (root rel : Path) : PurePath.relative_to (root ++ rel) root = Some rel.
Proof.
  induction root as [|r root IH]; [destruct rel; reflexivity|].
  simpl. now rewrite String.eqb_refl.
Qed.

Lemma relative_to_some (p root rel : Path) :
  PurePath.relative_to p root = Some rel -> p = root ++ rel.
Proof.
  revert p. induction root as [|r root IH]; intros p H.
  - destruct p; simpl in H; injection H as <-; reflexivity.
  - destruct p as [|c p]; [discriminate|]. simpl in H.
    destruct (String.eqb_spec r c) as [->|]; [|discriminate].
    simpl. f_equal. apply IH, H.
Qed.

Lemma match_after_prefix_sound (pre0 n pre tok tl : string) :
  match_after_prefix pre0 n = Some (pre, tok, tl) ->
  pre = pre0 /\ tl <> "" /\ has_newline tl = false.
Proof.
  unfold match_after_prefix. destruct (Py.startswith n _); [|discriminate].
  cbv zeta. destruct (_ && _); [|discriminate].
  match goal with
  | |- (if _ then Some (_, _, ?t) else None) = _ -> _ => generalize t; intros tl0
  end.
  match goal with
  | |- (if ?c then _ else None) = _ -> _ => destruct c eqn:E; [|discriminate]
  end.
  intros H. injection H as <- <- <-.
  apply andb_true_iff in E as [E Hnl]. apply andb_true_iff in E as [_ Hlen].
  apply negb_true_iff in Hnl. apply Nat.leb_le in Hlen.
  repeat split; [|exact Hnl]. intros Hz. rewrite Hz in Hlen. simpl in Hlen. lia.
Qed.

Lemma match_name_sound (n pre tok tl : string) :
  match_name n = Some (pre, tok, tl) ->
  (pre = OSS_PREFIX \/ pre = ENT_PREFIX) /\ tl <> "" /\ has_newline tl = false.
Proof.
  unfold match_name. destruct (match_after_prefix "SPEC-ENT" n) as [r|] eqn:E.
  - intros H. injection H as ->. apply match_after_prefix_sound in E as (-> & ? & ?). auto.
  - intros H. apply match_after_prefix_sound in H as (-> & ? & ?). auto.
Qed.

(** What it takes for a file to be scanned as a record. *)
Lemma scan_path_in (specs_root p : Path) (k : Path * string * string * string) :
  List.In k (scan_path specs_root p) ->
  exists c rel pre tok tl,
    k = (p, pre, tok, tl)
    /\ scan_path specs_root p = [k]
    /\ p = specs_root ++ c :: rel
    /\ String.eqb (PurePath.name (PurePath.parent p)) "analysis" = false
    /\ match_name (PurePath.name p) = Some (pre, tok, tl).
Proof.
  unfold scan_path.
  destruct (PurePath.relative_to p specs_root) as [[|c rel]|] eqn:Er; try (intros []).
  destruct (Py.endswith (PurePath.name p) ".md"); [|intros []].
  destruct (String.eqb _ "analysis") eqn:Ea; [intros []|].
  destruct (match_name (PurePath.name p)) as [[[pre tok] tl]|] eqn:Em; [|intros []].
  intros [<-|[]]. exists c, rel, pre, tok, tl.
  repeat split. apply relative_to_some, Er.
Qed.

Lemma make_file_name_md (pre tok tl : string) :
  Py.endswith (make_file_name pre tok tl) ".md" = true.
Proof.
  unfold make_file_name.
  replace (pre ++ "-" ++ tok ++ "-" ++ tl ++ ".md")%string
    with ((pre ++ "-" ++ tok ++ "-" ++ tl) ++ ".md")%string
    by (now rewrite !string_app_assoc).
  apply endswith_app.
Qed.

(** A scanned file renamed by the resolution of a conflict scans as the
    renumbered record. *)
Lemma scan_path_renamed (specs_root p : Path) (pre tok tl new_token : string) :
  List.In (p, pre, tok, tl) (scan_path specs_root p) ->
  Py.isdigit new_token = true ->
  scan_path specs_root (PurePath.with_name p (make_file_name pre new_token tl))
  = [(PurePath.with_name p (make_file_name pre new_token tl), pre, new_token, tl)].
Proof.
  intros Hin Hd.
  destruct (scan_path_in _ _ _ Hin) as (c & rel & pre' & tok' & tl' & E & _ & Hp & Ha & Hm).
  injection E as <- <- <-.
  destruct (match_name_sound _ _ _ _ Hm) as (Hpre & Htl & Hnl).
  set (n := make_file_name pre new_token tl).
  assert (PurePath.with_name p n = specs_root ++ (removelast (c :: rel) ++ [n])) as Ew.
  { unfold PurePath.with_name. rewrite Hp, removelast_app by discriminate.
    now rewrite <- app_assoc. }
  assert (PurePath.name (PurePath.with_name p n) = n) as En.
  { unfold PurePath.name, PurePath.with_name. apply last_last. }
  assert (PurePath.parent (PurePath.with_name p n) = PurePath.parent p) as Epar.
  { unfold PurePath.parent, PurePath.with_name. apply removelast_last. }
  unfold scan_path. rewrite En, Epar, Ha. rewrite Ew at 1. rewrite relative_to_app.
  destruct (removelast (c :: rel) ++ [n]) eqn:El.
  { destruct (removelast (c :: rel)); discriminate El. }
  unfold n at 1. rewrite make_file_name_md.
  unfold n at 1. rewrite match_name_made by assumption. reflexivity.
Qed.

(** ** Records and files stay in step *)

Lemma map_insert {A B} (f : A -> B) (l : list A) (i : nat) (x : A) :
  map f (<[i := x]> l) = <[i := f x]> (map f l).
Proof.
  revert i. induction l as [|a l IH]; intros i; [reflexivity|].
  destruct i as [|i]; simpl; [reflexivity|]. now rewrite IH.
Qed.

Lemma renumbered_insert (r : nat) (t : string) (p : Path) (store : list SpecFile) :
  set_path r p (set_token r t store)
  = <[r := {| path := p; prefix := prefix (obj store r); token := t;
              tail := tail (obj store r); mtime := mtime (obj store r) |}]> store.
Proof.
  destruct (Nat.lt_ge_cases r (length store)) as [Hlt|Hge].
  - unfold set_path, set_token, obj.
    rewrite list_lookup_total_insert_eq by exact Hlt.
    rewrite list_insert_insert_eq. reflexivity.
  - unfold set_path, set_token. rewrite !list_insert_ge; try reflexivity; try exact Hge.
    rewrite list_insert_ge by exact Hge. exact Hge.
Qed.

Lemma scan_paths_in (specs_root : Path) (l : list Path)
    (k : Path * string * string * string) :
  List.In k (flat_map (scan_path specs_root) l) ->
  List.In (fst (fst (fst k))) l /\ scan_path specs_root (fst (fst (fst k))) = [k].
Proof.
  intros H. apply List.in_flat_map in H as (p & Hp & Hk).
  destruct (scan_path_in _ _ _ Hk) as (c & rel & pre & tok & tl & -> & E & _).
  cbn [fst]. auto.
Qed.

(** Renaming the file of one record and renumbering that record keep
    the records and the scan of the disk in step. *)
Lemma keys_after_rename (specs_root : Path) (paths : list Path)
    (store : list SpecFile) (nr : nat) (new_token : string) :
  List.NoDup paths ->
  flat_map (scan_path specs_root) paths = map record_key store ->
  (nr < length store)%nat ->
  Py.isdigit new_token = true ->
  let s := obj store nr in
  let dst := PurePath.with_name (path s) (make_file_name (prefix s) new_token (tail s)) in
  List.In (path s) paths
  /\ scan_path specs_root (path s) = [record_key s]
  /\ flat_map (scan_path specs_root)
       (map (fun p => if PurePath.eqb p (path s) then dst else p) paths)
     = map record_key (set_path nr dst (set_token nr new_token store)).
Proof.
  intros Hnd Hsync Hlt Hd s dst.
  assert (store !! nr = Some s) as Hs
      by (unfold s, obj; now apply list_lookup_lookup_total_lt).
  assert (List.In (record_key s) (flat_map (scan_path specs_root) paths)) as Hk.
  { rewrite Hsync. apply List.in_map. apply list_elem_of_In.
    eapply list_elem_of_lookup_2, Hs. }
  destruct (scan_paths_in _ _ _ Hk) as [Hin Hscan]. cbn [record_key fst] in Hin, Hscan.
  split; [exact Hin|]. split; [exact Hscan|].
  destruct (List.in_split _ _ Hin) as (l1 & l2 & El). subst paths.
  apply List.NoDup_remove_2 in Hnd.
  assert (forall l, ~ List.In (path s) l ->
                    map (fun p => if PurePath.eqb p (path s) then dst else p) l = l) as Hid.
  { intros l Hl. induction l as [|x l IH]; [reflexivity|]. simpl.
    destruct (PurePath.eqb x (path s)) eqn:E.
    - apply path_eqb_eq in E. subst x. exfalso. apply Hl. left. reflexivity.
    - rewrite IH; [reflexivity|]. intros H. apply Hl. right. exact H. }
  rewrite map_app. cbn [map].
  rewrite !Hid by (intros H; apply Hnd, List.in_or_app; auto).
  assert (PurePath.eqb (path s) (path s) = true) as -> by now apply path_eqb_eq.
  rewrite flat_map_app in *. cbn [flat_map] in *. rewrite Hscan in Hsync.
  assert (scan_path specs_root dst = [(dst, prefix s, new_token, tail s)]) as ->.
  { apply (scan_path_renamed specs_root (path s) (prefix s) (token s)); [|exact Hd].
    rewrite Hscan. left. reflexivity. }
  set (A := flat_map (scan_path specs_root) l1) in *.
  set (B := flat_map (scan_path specs_root) l2) in *.
  assert (nr = length A) as Enr.
  { assert (map record_key store !! nr = Some (record_key s)) as Hl.
    { clearbody s. clear -Hs. revert nr Hs.
      induction store as [|a store IH]; intros [|nr] H;
        try discriminate; simpl in *; [now injection H as ->|now apply IH]. }
    rewrite <- Hsync in Hl.
    destruct (Nat.lt_trichotomy nr (length A)) as [H|[H|H]]; [|exact H|].
    - exfalso. rewrite lookup_app_l in Hl by exact H.
      apply list_elem_of_lookup_2, list_elem_of_In in Hl.
      apply scan_paths_in in Hl as [Hl _]. apply Hnd, List.in_or_app. auto.
    - exfalso. rewrite lookup_app_r in Hl by lia.
      destruct (nr - length A)%nat as [|j] eqn:Ej; [lia|]. cbn in Hl.
      apply list_elem_of_lookup_2, list_elem_of_In in Hl.
      apply scan_paths_in in Hl as [Hl _]. apply Hnd, List.in_or_app. auto. }
  rewrite renumbered_insert. fold s. rewrite map_insert, <- Hsync, Enr.
  rewrite insert_app_r_alt by lia. rewrite Nat.sub_diag. reflexivity.
Qed.

Lemma find_file_of_in (fs : FS) (f : File) :
  List.In f (files fs) ->
  exists f', Fs.find_file fs (fpath f) = Some f'.
Proof.
  unfold Fs.find_file. intros Hin.
  destruct (List.find _ (files fs)) as [f'|] eqn:E; [eauto|].
  pose proof (List.find_none _ _ E f Hin) as H. cbv beta in H.
  assert (PurePath.eqb (fpath f) (fpath f) = true) by now apply path_eqb_eq.
  congruence.
Qed.

Lemma NoDup_renamed (paths : list Path) (src dst : Path) :
  List.NoDup paths -> ~ List.In dst paths ->
  List.NoDup (map (fun p => if PurePath.eqb p src then dst else p) paths).
Proof.
  intros Hnd Hdst. induction paths as [|x l IH]; [constructor|].
  apply List.NoDup_cons_iff in Hnd as [Hx Hnd]. cbn [map].
  assert (~ List.In dst l) as Hdst' by (intros H; apply Hdst; right; exact H).
  constructor; [|apply IH; assumption].
  intros Hin. apply List.in_map_iff in Hin as (y & Ey & Hy).
  destruct (PurePath.eqb y src) eqn:E1, (PurePath.eqb x src) eqn:E2.
  - apply path_eqb_eq in E1, E2. subst. contradiction.
  - subst x. apply Hdst. left. reflexivity.
  - subst y. contradiction.
  - subst y. contradiction.
Qed.

Lemma heap_lookup_obj (store : list SpecFile) (s : SpecFile) :
  List.In s store -> exists r, (r < length store)%nat /\ obj store r = s.
Proof.
  intros H. apply list_elem_of_In, list_elem_of_lookup_1 in H as [r Hr].
  exists r. split; [eapply lookup_lt_Some, Hr|].
  unfold obj. now apply list_lookup_total_correct.
Qed.

(** The body of the loop in apply mode, on a disk and records in step:
    it returns, and leaves them in step. *)
Lemma resolve_group_apply_in_sync (root specs_root : Path) (pre : string)
    (scoped : list nat) (width cc : nat) (tok : string) (first second : nat)
    (rest : list nat) (w : World) :
  wf_disk (disk w) -> in_sync specs_root w -> specs_text specs_root (disk w) ->
  scoped = scoped_refs (heap w) pre ->
  (forall r, List.In r (first :: second :: rest) -> List.In r scoped) ->
  exists w',
    resolve_group root pre false scoped width cc (tok, first :: second :: rest) w
    = (w', inr (S cc))
    /\ evolves specs_root w w'
    /\ scoped = scoped_refs (heap w') pre.
Proof.
  intros [Hnd Hdirs] Hsync Htext Hscoped Hdupes.
  unfold in_sync in Hsync. rewrite iter_spec_files_keys in Hsync by exact Hdirs.
  set (nr := max_by_key (heap w) first (second :: rest)).
  set (newest := obj (heap w) nr).
  set (new_token := next_numeric_token (view (heap w) scoped) width).
  set (new_name := make_file_name (prefix newest) new_token (tail newest)).
  set (new_path := PurePath.with_name (path newest) new_name).
  assert (List.In nr scoped) as Hnrs by (apply Hdupes, max_by_key_in).
  assert ((nr < length (heap w))%nat /\ prefix newest = pre) as [Hlt Hpre]
      by (rewrite Hscoped in Hnrs; apply scoped_refs_in in Hnrs; exact Hnrs).
  assert (Py.isdigit new_token = true) as Hdig by apply isdigit_next_numeric_token.
  destruct (keys_after_rename specs_root (map fpath (files (disk w))) (heap w) nr new_token
              Hnd Hsync Hlt Hdig) as (Hsrc & Hscan & Hkeys).
  fold newest in Hsrc, Hscan, Hkeys. fold new_name in Hkeys. fold new_path in Hkeys.
  assert (scan_path specs_root new_path = [(new_path, prefix newest, new_token, tail newest)])
    as Hscan'.
  { apply (scan_path_renamed specs_root (path newest) (prefix newest) (token newest));
      [|exact Hdig]. rewrite Hscan. left. reflexivity. }
  assert (exists f0 c0, Fs.find_file (disk w) (path newest) = Some f0 /\ fdata f0 = Text c0)
    as (f0 & c0 & Hf0 & Hc0).
  { apply List.in_map_iff in Hsrc as (f & Ef & Hf).
    destruct (find_file_of_in _ _ Hf) as [f0 Hf0]. rewrite Ef in Hf0.
    destruct (find_file_some _ _ _ Hf0) as [Hin0 Hp0].
    destruct (Htext f0 Hin0) as [c0 Hc0]; [rewrite Hp0, Hscan; discriminate|].
    eauto. }
  assert (Fs.is_file (disk w) new_path = false) as Hfree.
  { unfold Fs.is_file. destruct (Fs.find_file (disk w) new_path) as [g|] eqn:Eg;
      [exfalso|reflexivity].
    destruct (find_file_some _ _ _ Eg) as [Hg Hpg].
    assert (List.In (new_path, prefix newest, new_token, tail newest)
              (map record_key (heap w))) as Hk.
    { rewrite <- Hsync. apply List.in_flat_map. exists new_path.
      split; [rewrite <- Hpg; apply List.in_map, Hg|rewrite Hscan'; left; reflexivity]. }
    apply List.in_map_iff in Hk as (s2 & Ek & Hs2).
    injection Ek as _ Epre Etok _.
    destruct (heap_lookup_obj _ _ Hs2) as (r2 & Hr2 & Eo).
    apply (next_numeric_token_fresh (view (heap w) scoped) width s2); [|exact Etok].
    rewrite <- Eo. unfold view. apply List.in_map. rewrite Hscoped.
    apply scoped_refs_in. split; [exact Hr2|]. rewrite Eo. congruence. }
  assert (Fs.is_dir (disk w) new_path = false) as Hnodir.
  { unfold Fs.is_dir. destruct (existsb _ (dirs (disk w))) eqn:Ed; [exfalso|reflexivity].
    apply List.existsb_exists in Ed as (d & Hd & Ed). apply path_eqb_eq in Ed. subst d.
    specialize (Hdirs _ Hd).
    assert (PurePath.name new_path = new_name) as En
        by (unfold PurePath.name, new_path, PurePath.with_name; apply last_last).
    rewrite En in Hdirs. unfold new_name in Hdirs. rewrite make_file_name_md in Hdirs.
    discriminate. }
  destruct (resolve_group_apply root pre scoped width cc tok first second rest w f0 c0
              Hnd Hf0 Hc0 Hnodir Hfree) as (w' & E & Hfiles & Hd' & Hheap).
  fold nr in Hfiles, Hheap. fold newest in Hfiles. fold new_token in Hfiles.
  fold new_name in Hfiles. fold new_path in Hfiles.
  assert (map fpath (files (disk w'))
          = map (fun p => if PurePath.eqb p (path newest) then new_path else p)
              (map fpath (files (disk w)))) as Hpaths.
  { transitivity (map fst (map path_and_data (files (disk w')))).
    { rewrite map_map. reflexivity. }
    rewrite Hfiles, !map_map. apply List.map_ext. intros f. unfold resolved_file.
    destruct (PurePath.eqb (fpath f) (path newest)); reflexivity. }
  exists w'. split; [exact E|]. split; [split; [|split; [|split; [|split]]]|].
  - split; [|rewrite Hd'; exact Hdirs]. rewrite Hpaths. apply NoDup_renamed; [exact Hnd|].
    intros Hin. apply List.in_map_iff in Hin as (g & Eg & Hg).
    destruct (find_file_of_in _ _ Hg) as [g' Hg']. rewrite Eg in Hg'.
    unfold Fs.is_file in Hfree. rewrite Hg' in Hfree. discriminate.
  - unfold in_sync. rewrite iter_spec_files_keys by (rewrite Hd'; exact Hdirs).
    rewrite Hpaths, Hkeys, Hheap.
    unfold renumber_group. cbn [snd]. reflexivity.
  - exact Hd'.
  - intros r2 Ht2 f' Hf' Hs'.
    assert (List.In (path_and_data f') (map path_and_data (files (disk w')))) as Hpd
        by (apply List.in_map, Hf').
    rewrite Hfiles in Hpd. apply List.in_map_iff in Hpd as (f & Ef & Hf).
    unfold resolved_file, path_and_data in Ef.
    assert (exists c, fdata f = Text c) as [c Hc].
    { destruct (PurePath.eqb (fpath f) (path newest)) eqn:Ep.
      - apply (Htext f Hf). apply path_eqb_eq in Ep. rewrite Ep, Hscan. discriminate.
      - apply (Ht2 f Hf). injection Ef as Ef _. rewrite Ef. exact Hs'. }
    assert (exists c1, propagate_file_name root (base_name newest) new_name f = Text c1)
      as [c1 Hc1].
    { unfold propagate_file_name. rewrite Hc. destruct (is_scanned_text root f); cbn; eauto. }
    rewrite Hc1 in Ef.
    destruct (PurePath.eqb (fpath f) (path newest)); injection Ef as _ <-; cbn; eauto.
  - intros r1 Hap. rewrite Hpaths, List.flat_map_concat_map, map_map,
      <- List.flat_map_concat_map.
    apply List.flat_map_ext. intros p.
    destruct (PurePath.eqb p (path newest)) eqn:Ep; [|reflexivity].
    apply path_eqb_eq in Ep. subst p.
    destruct (scan_path r1 new_path) eqn:E1.
    + destruct (scan_path r1 (path newest)) eqn:E2; [reflexivity|].
      assert (scan_path specs_root (path newest) = []) as H0
          by (apply Hap; rewrite E2; discriminate).
      rewrite Hscan in H0. discriminate.
    + assert (scan_path specs_root new_path = []) as H0
          by (apply Hap; rewrite E1; discriminate).
      rewrite Hscan' in H0. discriminate.
  - rewrite Hscoped. symmetry. apply scoped_refs_same.
    + rewrite Hheap. unfold renumber_group. cbn [snd].
      now rewrite set_path_length, set_token_length.
    + intros r. rewrite Hheap. unfold renumber_group. cbn [snd]. fold nr.
      destruct (Nat.eq_dec r nr) as [->|Hne].
      * rewrite obj_renumbered by exact Hlt. reflexivity.
      * rewrite obj_renumbered_other by congruence. reflexivity.
Qed.

Lemma evolves_refl (specs_root : Path) (w : World) :
  wf_disk (disk w) -> in_sync specs_root w -> evolves specs_root w w.
Proof. intros H1 H2. repeat split; auto; apply H1. Qed.

Lemma evolves_trans (specs_root : Path) (w1 w2 w3 : World) :
  evolves specs_root w1 w2 -> evolves specs_root w2 w3 -> evolves specs_root w1 w3.
Proof.
  intros (_ & _ & Hd1 & Ht1 & Hf1) (Hwf & Hs & Hd2 & Ht2 & Hf2).
  split; [exact Hwf|]. split; [exact Hs|]. split; [congruence|]. split.
  - intros r H. apply Ht2, Ht1, H.
  - intros r H. rewrite (Hf2 r H). apply Hf1, H.
Qed.

(** The loop over the groups in apply mode returns. *)
Lemma for_each_apply_in_sync (root specs_root : Path) (pre : string)
    (scoped : list nat) (width : nat) (items : list (string * list nat)) :
  (forall t d, List.In (t, d) items -> forall r, List.In r d -> List.In r scoped) ->
  forall (cc : nat) (w : World),
    wf_disk (disk w) -> in_sync specs_root w -> specs_text specs_root (disk w) ->
    scoped = scoped_refs (heap w) pre ->
    exists w' n,
      for_each items cc (resolve_group root pre false scoped width) w = (w', inr n)
      /\ evolves specs_root w w'.
Proof.
  induction items as [|[t d] items IH]; intros Hin cc w Hwf Hs Ht Hsc.
  - exists w, cc. split; [reflexivity|]. apply evolves_refl; assumption.
  - assert (forall t' d', List.In (t', d') items ->
                          forall r, List.In r d' -> List.In r scoped) as Hin'
        by (intros t' d' H; apply (Hin t' d'); right; exact H).
    cbn [for_each]. unfold bind at 1.
    destruct d as [|a [|b rest]].
    + cbn. apply IH; assumption.
    + cbn. apply IH; assumption.
    + destruct (resolve_group_apply_in_sync root specs_root pre scoped width cc t a b rest w
                  Hwf Hs Ht Hsc (Hin t _ (or_introl eq_refl)))
        as (w1 & E1 & Hev & Hsc1).
      rewrite E1.
      pose proof Hev as (Hwf1 & Hs1 & _ & Ht1 & _).
      destruct (IH Hin' (S cc) w1 Hwf1 Hs1 (Ht1 _ Ht) Hsc1) as (w' & n & E & Hev').
      exists w', n. split; [exact E|]. eapply evolves_trans; eassumption.
Qed.

(** A pass over a family in apply mode, on a well-formed disk whose
    documents decode and with the records in step, returns and leaves
    records and disk in step. *)
Lemma resolve_apply_in_sync (root specs_root : Path) (pre : string) (w : World) :
  wf_disk (disk w) -> in_sync specs_root w -> specs_text specs_root (disk w) ->
  exists w' n,
    resolve_conflicts_for_prefix root pre false w = (w', inr n)
    /\ evolves specs_root w w'.
Proof.
  intros Hwf Hs Ht. unfold resolve_conflicts_for_prefix, bind at 1, get_heap at 1.
  apply for_each_apply_in_sync; try assumption; [|reflexivity].
  intros t d Hin r Hr.
  destruct (family_items_groups (heap w) pre) as (_ & Hm & _).
  destruct (Hm t d Hin) as [-> _]. unfold members in Hr.
  apply List.filter_In in Hr. tauto.
Qed.

(** ** Runs on the disk *)

Lemma renumber_family_other (pre pre' : string) (store : list SpecFile) :
  pre <> pre' ->
  family_tokens (renumber_family pre' store) pre = family_tokens store pre.
Proof.
  intros Hne. destruct (renumber_family_inv pre' store) as (Hlen & Hobj & _).
  unfold family_tokens.
  replace (scoped_refs (renumber_family pre' store) pre) with (scoped_refs store pre).
  2:{ symmetry. apply scoped_refs_same; [exact Hlen|].
      intros r. destruct (Hobj r) as [->|(_ & H & _)]; auto. }
  unfold view. rewrite !map_map. apply List.map_ext_in. intros r Hr.
  apply scoped_refs_in in Hr as [_ Hp].
  destruct (Hobj r) as [->|(Hin & _)]; [reflexivity|].
  apply scoped_refs_in in Hin as [_ Hp']. congruence.
Qed.

Lemma store_as_view (store : list SpecFile) :
  view store (seq 0 (length store)) = store.
Proof.
  induction store as [|x l IH] using rev_ind; [reflexivity|].
  rewrite length_app, Nat.add_comm. cbn [length Nat.add]. rewrite seq_S.
  unfold view in *. rewrite map_app. cbn [map Nat.add]. f_equal.
  - etransitivity; [|exact IH]. apply List.map_ext_in. intros r Hr.
    apply in_seq in Hr. unfold obj. apply lookup_total_app_l. lia.
  - unfold obj. rewrite lookup_total_app_r by lia. now rewrite Nat.sub_diag.
Qed.

Lemma family_tokens_filter (store : list SpecFile) (pre : string) :
  family_tokens store pre
  = map token (List.filter (fun s => String.eqb (prefix s) pre) store).
Proof.
  unfold family_tokens, scoped_refs, view.
  rewrite <- (List.filter_map_swap (fun s => String.eqb (prefix s) pre) (obj store)).
  fold (view store (seq 0 (length store))). now rewrite store_as_view.
Qed.

(** The tokens of a family are read off the names of the documents. *)
Lemma family_tokens_keys (store store' : list SpecFile) (pre : string) :
  map record_key store = map record_key store' ->
  family_tokens store pre = family_tokens store' pre.
Proof.
  rewrite !family_tokens_filter. revert store'.
  induction store as [|x l IH]; intros [|y l'] E; try discriminate; [reflexivity|].
  cbn [map] in E. injection E as _ Ep Et _ El.
  cbn [List.filter]. rewrite Ep.
  destruct (String.eqb (prefix y) pre); cbn [map]; rewrite ?Et, (IH l' El); reflexivity.
Qed.

Lemma max_group_size_le (toks : list string) (n : nat) :
  (forall t, group_size toks t <= n)%nat -> (max_group_size toks <= n)%nat.
Proof.
  intros H. destruct toks as [|x l]; [cbn; lia|].
  destruct (max_group_size_attained (x :: l)) as (t & _ & <-); [discriminate|]. apply H.
Qed.

(** What a run does to the largest group of a family. *)
Lemma one_less_max (before after : list string) :
  one_less before after ->
  ((2 <= max_group_size before)%nat ->
   max_group_size after = (max_group_size before - 1)%nat)
  /\ (max_group_size before = 1%nat -> max_group_size after = 1%nat)
  /\ (max_group_size before = 0%nat -> (max_group_size after <= 1)%nat).
Proof.
  intros H.
  assert ((max_group_size before <= 1)%nat -> (max_group_size after <= 1)%nat) as Hle.
  { intros Hm. apply max_group_size_le. intros t.
    pose proof (group_size_le_max before t) as Ht.
    destruct (H t) as (_ & H1 & H0).
    destruct (group_size before t) as [|[|k]]; [| |lia].
    - now apply H0.
    - now rewrite H1. }
  split; [|split].
  - intros Hm. apply max_group_size_shrinks; [|exact Hm].
    intros t. destruct (H t) as (H2 & H1 & H0). split; [exact H2|]. intros Hl.
    destruct (group_size before t) as [|[|k]]; [| |lia].
    + now apply H0.
    + now rewrite H1.
  - intros Hm. apply Nat.le_antisymm; [apply Hle; lia|].
    destruct before as [|x l]; [discriminate Hm|].
    destruct (max_group_size_attained (x :: l)) as (t & _ & Ht); [discriminate|].
    rewrite Hm in Ht. destruct (H t) as (_ & H1 & _).
    rewrite <- (H1 Ht). apply group_size_le_max.
  - intros Hm. apply Hle. lia.
Qed.

Lemma one_less_nil : one_less [] [].
Proof. intros t. cbn. repeat split; lia. Qed.

(** The work on one registry in apply mode returns; each of its two
    families loses one member per group of two or more. *)
Lemma scan_root_apply (root specs_root : Path) (total : nat) (w : World) :
  wf_disk (disk w) -> specs_text specs_root (disk w) ->
  exists w' n,
    scan_root root false total specs_root w = (w', inr n)
    /\ wf_disk (disk w')
    /\ dirs (disk w') = dirs (disk w)
    /\ (forall r, specs_text r (disk w) -> specs_text r (disk w'))
    /\ (forall r, apart r specs_root ->
          flat_map (scan_path r) (map fpath (files (disk w')))
          = flat_map (scan_path r) (map fpath (files (disk w))))
    /\ (forall pre, pre = OSS_PREFIX \/ pre = ENT_PREFIX ->
          one_less (family_tokens (iter_spec_files (disk w) specs_root) pre)
                   (family_tokens (iter_spec_files (disk w') specs_root) pre)).
Proof.
  intros Hwf Ht.
  destruct (iter_spec_files (disk w) specs_root) as [|s0 l] eqn:Es.
  - eexists _, total. split.
    { unfold scan_root. unfold bind at 1. unfold get_disk at 1. rewrite Es. reflexivity. }
    cbn [disk]. rewrite Es. split; [exact Hwf|]. split; [reflexivity|].
    split; [tauto|]. split; [reflexivity|]. intros pre _. apply one_less_nil.
  - rewrite scan_root_nonempty by (rewrite Es; discriminate).
    unfold bind at 1. unfold print at 1. cbn [heap disk out].
    set (w0 := {| heap := iter_spec_files (disk w) specs_root; disk := disk w;
                  out := out w ++ [scanning_line specs_root] |}).
    assert (in_sync specs_root w0) as Hs0 by reflexivity.
    destruct (resolve_apply_in_sync root specs_root OSS_PREFIX w0 Hwf Hs0 Ht)
      as (w1 & n1 & E1 & Hev1).
    pose proof Hev1 as (Hwf1 & Hs1 & _ & Ht1 & _).
    destruct (resolve_apply_in_sync root specs_root ENT_PREFIX w1 Hwf1 Hs1 (Ht1 _ Ht))
      as (w2 & n2 & E2 & Hev2).
    pose proof (evolves_trans _ _ _ _ Hev1 Hev2) as (Hwf2 & Hs2 & Hd2 & Ht2 & Hf2).
    exists w2, (total + n1 + n2)%nat. split.
    { unfold bind at 1. rewrite E1. unfold bind at 1. rewrite E2. reflexivity. }
    split; [exact Hwf2|]. split; [exact Hd2|]. split; [exact Ht2|]. split; [exact Hf2|].
    intros pre Hpre.
    apply resolve_returns in E1 as (H1 & _). apply resolve_returns in E2 as (H2 & _).
    rewrite (family_tokens_keys _ _ pre Hs2), H2, H1. cbn [heap]. rewrite <- Es.
    destruct Hpre as [->| ->].
    + rewrite renumber_family_other by discriminate. apply renumber_family_one_less.
    + rewrite <- (renumber_family_other ENT_PREFIX OSS_PREFIX
                    (iter_spec_files (disk w) specs_root)) at 1 by discriminate.
      apply renumber_family_one_less.
Qed.

Lemma candidate_roots_apart (root r1 r2 : Path) :
  List.In r1 (candidate_roots root) -> List.In r2 (candidate_roots root) ->
  r1 <> r2 -> apart r1 r2.
Proof.
  unfold candidate_roots, PurePath.join. intros H1 H2 Hne p Hp.
  unfold scan_path in *.
  destruct (PurePath.relative_to p r1) as [[|c rel]|] eqn:E1; try contradiction.
  destruct (PurePath.relative_to p r2) as [[|c2 rel2]|] eqn:E2; try reflexivity.
  exfalso. apply relative_to_some in E1, E2. subst p.
  destruct H1 as [<-|[<-|[]]], H2 as [<-|[<-|[]]]; try contradiction;
    rewrite <- !app_assoc in E2; apply app_inv_head in E2; discriminate.
Qed.

Lemma find_specs_root_NoDup (fs : FS) (root : Path) :
  List.NoDup (find_specs_root fs root).
Proof.
  unfold find_specs_root. apply List.NoDup_filter.
  unfold candidate_roots, PurePath.join. repeat constructor; [|intros []].
  intros [H|[]]. apply app_inv_head in H. discriminate.
Qed.

Lemma find_specs_root_dirs (fs fs' : FS) (root : Path) :
  dirs fs' = dirs fs -> find_specs_root fs' root = find_specs_root fs root.
Proof.
  intros H. unfold find_specs_root. apply List.filter_ext. intros p.
  unfold Fs.exists_, Fs.is_dir. rewrite H.
  destruct (existsb _ (dirs fs)); [reflexivity|now rewrite !andb_false_r].
Qed.

Lemma keys_tokens (fs fs' : FS) (r : Path) (pre : string) :
  wf_disk fs -> wf_disk fs' ->
  flat_map (scan_path r) (map fpath (files fs'))
  = flat_map (scan_path r) (map fpath (files fs)) ->
  family_tokens (iter_spec_files fs' r) pre = family_tokens (iter_spec_files fs r) pre.
Proof.
  intros [_ Hd] [_ Hd'] H. apply family_tokens_keys.
  now rewrite !iter_spec_files_keys by assumption.
Qed.

(** The loop of [main] over the registries, in apply mode. *)
Lemma for_each_scan_root_apply (root : Path) (rs : list Path) :
  List.NoDup rs ->
  (forall r1 r2, List.In r1 rs -> List.In r2 rs -> r1 <> r2 -> apart r1 r2) ->
  forall (total : nat) (w : World),
    wf_disk (disk w) -> (forall r, List.In r rs -> specs_text r (disk w)) ->
    exists w' n,
      for_each rs total (scan_root root false) w = (w', inr n)
      /\ wf_disk (disk w')
      /\ dirs (disk w') = dirs (disk w)
      /\ (forall r, specs_text r (disk w) -> specs_text r (disk w'))
      /\ (forall r, (forall r', List.In r' rs -> apart r r') ->
            flat_map (scan_path r) (map fpath (files (disk w')))
            = flat_map (scan_path r) (map fpath (files (disk w))))
      /\ (forall r pre, List.In r rs -> pre = OSS_PREFIX \/ pre = ENT_PREFIX ->
            one_less (family_tokens (iter_spec_files (disk w) r) pre)
                     (family_tokens (iter_spec_files (disk w') r) pre)).
Proof.
  induction rs as [|r0 rs IH]; intros Hnd Hap total w Hwf Ht.
  - exists w, total. split; [reflexivity|]. split; [exact Hwf|]. split; [reflexivity|].
    split; [tauto|]. split; [reflexivity|]. intros r pre [].
  - apply List.NoDup_cons_iff in Hnd as [Hr0 Hnd].
    destruct (scan_root_apply root r0 total w Hwf (Ht r0 (or_introl eq_refl)))
      as (w1 & n1 & E1 & Hwf1 & Hd1 & Ht1 & Hf1 & Hone1).
    destruct (IH Hnd (fun r1 r2 H1 H2 => Hap r1 r2 (or_intror H1) (or_intror H2)) n1 w1 Hwf1
                (fun r H => Ht1 r (Ht r (or_intror H))))
      as (w' & n & E & Hwf' & Hd' & Ht' & Hf' & Hone').
    exists w', n. split.
    { cbn [for_each]. unfold bind at 1. rewrite E1. exact E. }
    split; [exact Hwf'|]. split; [congruence|]. split; [intros r H; apply Ht', Ht1, H|].
    split.
    + intros r H. rewrite Hf' by (intros r' Hr'; apply H; right; exact Hr').
      apply Hf1, H. left. reflexivity.
    + intros r pre [<-|Hr] Hpre.
      * rewrite (keys_tokens (disk w1) (disk w') r0 pre Hwf1 Hwf').
        { apply Hone1, Hpre. }
        apply Hf'. intros r' Hr'. apply Hap; [left; reflexivity|right; exact Hr'|].
        intros ->. contradiction.
      * rewrite <- (keys_tokens (disk w) (disk w1) r pre Hwf Hwf1).
        { apply Hone', Hpre. exact Hr. }
        apply Hf1. apply Hap; [right; exact Hr|left; reflexivity|].
        intros ->. contradiction.
Qed.

(** A run of the command with [--apply] on a well-formed disk whose
    documents decode returns, and every family of every registry loses
    one member per group of two or more. *)
Lemma run_apply (fs : FS) (root : Path) :
  wf_disk fs -> (forall r, List.In r (find_specs_root fs root) -> specs_text r fs) ->
  exists w',
    run fs root true
    = (w', inr (match find_specs_root fs root with [] => 1 | _ => 0 end)%nat)
    /\ wf_disk (disk w')
    /\ dirs (disk w') = dirs fs
    /\ (forall r, specs_text r fs -> specs_text r (disk w'))
    /\ (forall r pre, List.In r (find_specs_root fs root) ->
          pre = OSS_PREFIX \/ pre = ENT_PREFIX ->
          one_less (family_tokens (iter_spec_files fs r) pre)
                   (family_tokens (iter_spec_files (disk w') r) pre)).
Proof.
  intros Hwf Ht. unfold run, main. unfold bind at 1. unfold get_disk at 1. cbn [disk negb].
  destruct (find_specs_root fs root) as [|r0 rs] eqn:Er.
  - eexists. split; [reflexivity|]. cbn [disk]. split; [exact Hwf|]. split; [reflexivity|].
    split; [tauto|]. intros r pre [].
  - set (w0 := {| heap := []; disk := fs; out := [] |}).
    destruct (for_each_scan_root_apply root (r0 :: rs)) with (total := 0%nat) (w := w0)
      as (w1 & n & E & Hwf1 & Hd1 & Ht1 & _ & Hone1).
    + rewrite <- Er. apply find_specs_root_NoDup.
    + intros r1 r2 H1 H2. rewrite <- Er in H1, H2. unfold find_specs_root in H1, H2.
      apply List.filter_In in H1 as [H1 _], H2 as [H2 _].
      now apply (candidate_roots_apart root).
    + exact Hwf.
    + exact Ht.
    + unfold bind at 1. rewrite E. unfold bind at 1.
      destruct (n =? 0)%nat; cbn; eexists; (split; [reflexivity|]); cbn [disk];
        (split; [exact Hwf1|]); (split; [exact Hd1|]); (split; [exact Ht1|]); exact Hone1.
Qed.

(** Runs repeated on the disk that the run before has left: the largest
    group of a family of [m] members comes down by one per run until it
    has one member. *)
Lemma apply_runs_families (root : Path) (k : nat) (fs : FS) :
  wf_disk fs -> (forall r, List.In r (find_specs_root fs root) -> specs_text r fs) ->
  wf_disk (apply_runs root k fs)
  /\ find_specs_root (apply_runs root k fs) root = find_specs_root fs root
  /\ (forall r, List.In r (find_specs_root fs root) -> specs_text r (apply_runs root k fs))
  /\ (forall r pre, List.In r (find_specs_root fs root) ->
        pre = OSS_PREFIX \/ pre = ENT_PREFIX ->
        let m := max_group_size (family_tokens (iter_spec_files fs r) pre) in
        let m' := max_group_size
                    (family_tokens (iter_spec_files (apply_runs root k fs) r) pre) in
        ((1 <= m)%nat -> m' = Nat.max 1 (m - k)) /\ (m = 0%nat -> (m' <= 1)%nat)).
Proof.
  revert fs. induction k as [|k IH]; intros fs Hwf Ht.
  - cbn [apply_runs]. split; [exact Hwf|]. split; [reflexivity|]. split; [exact Ht|].
    intros r pre _ _. cbv zeta. split; lia.
  - cbn [apply_runs]. destruct (run_apply fs root Hwf Ht) as (w' & E & Hwf1 & Hd1 & Ht1 & Hone).
    assert (apply_run root fs = disk w') as Efs by (unfold apply_run; now rewrite E).
    rewrite Efs.
    pose proof (find_specs_root_dirs fs (disk w') root Hd1) as Er.
    destruct (IH (disk w') Hwf1) as (Hwfk & Erk & Htk & Hmk).
    { intros r Hr. rewrite Er in Hr. apply Ht1, Ht, Hr. }
    split; [exact Hwfk|]. split; [congruence|].
    split; [intros r Hr; apply Htk; rewrite Er; exact Hr|].
    intros r pre Hr Hpre. cbv zeta.
    destruct (one_less_max _ _ (Hone r pre Hr Hpre)) as (H2 & H1 & H0).
    rewrite <- Er in Hr. destruct (Hmk r pre Hr Hpre) as [Hpos Hzero].
    cbv zeta in Hpos, Hzero.
    set (m := max_group_size (family_tokens (iter_spec_files fs r) pre)) in *.
    set (m1 := max_group_size (family_tokens (iter_spec_files (disk w') r) pre)) in *.
    split.
    + intros Hm. destruct (Nat.le_gt_cases 2 m) as [Hge|Hlt].
      * rewrite Hpos by (rewrite (H2 Hge); lia). rewrite (H2 Hge). lia.
      * assert (m = 1%nat) as Hm1 by lia. rewrite Hpos by (rewrite (H1 Hm1); lia).
        rewrite (H1 Hm1). lia.
    + intros Hm. specialize (H0 Hm).
      destruct m1 as [|m1'] eqn:Em1; [now apply Hzero|].
      rewrite Hpos by lia. lia.
Qed.

(** C4. Each pass in apply mode that returns renumbers one record of
    every group of two or more, whatever the size of the group, and
    leaves the other groups alone; hence passes repeated while some
    group has two members or more are at most the size of the largest
    initial group minus one, each takes one off the largest group, and
    once no group has two members a further pass reports zero conflicts
    and changes nothing.  On the disk: when each path names one file, no
    directory is named like a document and the documents of the
    registries decode, every run of the command with [--apply] returns
    with status 0, and after [k] runs the largest group of a family that
    had [m] members has [max 1 (m - k)]: one member after [m - 1] runs
    and ever after. *)
Theorem repeated_apply_converges (pre : string) :
  (forall before after,
      completed_apply_pass pre before after ->
      forall t,
        ((2 <= group_size (family_tokens before pre) t)%nat ->
         group_size (family_tokens after pre) t
         = (group_size (family_tokens before pre) t - 1)%nat)
        /\ (group_size (family_tokens before pre) t = 1%nat ->
            group_size (family_tokens after pre) t = 1%nat)
        /\ (group_size (family_tokens before pre) t = 0%nat ->
            (group_size (family_tokens after pre) t <= 1)%nat))
  /\ (forall k store final,
        apply_passes pre k store final ->
        (k <= max_group_size (family_tokens store pre) - 1)%nat
        /\ max_group_size (family_tokens final pre)
           = (max_group_size (family_tokens store pre) - k)%nat)
  /\ (forall root w,
        (max_group_size (family_tokens (heap w) pre) <= 1)%nat ->
        resolve_conflicts_for_prefix root pre false w = (w, inr 0%nat))
  /\ (forall fs repo_root specs_root,
        wf_disk fs ->
        (forall r, List.In r (find_specs_root fs repo_root) -> specs_text r fs) ->
        List.In specs_root (find_specs_root fs repo_root) ->
        pre = OSS_PREFIX \/ pre = ENT_PREFIX ->
        forall k,
          let m := max_group_size (family_tokens (iter_spec_files fs specs_root) pre) in
          let m' := max_group_size
                      (family_tokens
                         (iter_spec_files (apply_runs repo_root k fs) specs_root) pre) in
          (exists w', run (apply_runs repo_root k fs) repo_root true = (w', inr 0%nat))
          /\ ((1 <= m)%nat -> m' = Nat.max 1 (m - k))
          /\ (m = 0%nat -> (m' <= 1)%nat)).
Proof.
  split; [|split; [|split]].
  - intros before after (root & w & w' & n & <- & E & <-) t.
    exact (completed_pass_groups root pre false w w' n E t).
  - intros k store final H. induction H as [store|k store after rescanned final Hm Hp Hr _ IH].
    + split; lia.
    + pose proof (completed_pass_max pre store after Hp Hm) as Ha.
      rewrite (max_group_size_perm _ _ Hr) in Ha. rewrite Ha in IH.
      destruct IH as [IH1 IH2]. split; lia.
  - intros root w H. apply resolve_no_conflict, H.
  - intros fs repo_root specs_root Hwf Ht Hr Hpre k.
    destruct (apply_runs_families repo_root k fs Hwf Ht) as (Hwfk & Erk & Htk & Hmk).
    cbv zeta. split; [|apply Hmk; assumption].
    destruct (run_apply (apply_runs repo_root k fs) repo_root Hwfk) as (w' & E & _).
    { intros r H. rewrite Erk in H. apply Htk, H. }
    exists w'. rewrite E, Erk.
    destruct (find_specs_root fs repo_root); [destruct Hr|reflexivity].
Qed.


(** * Further properties of the script *)

(** ** File names and the scanner *)

Lemma startswith_eq (s p : string) :
  Py.startswith s p = true -> s = (p ++ Py.drop (String.length p) s)%string.
Proof.
  revert s. induction p as [|a p IH]; intros s H; [reflexivity|].
  destruct s as [|b s]; [discriminate|]. simpl in H.
  apply andb_true_iff in H as [Hab H]. apply Ascii.eqb_eq in Hab. subst b.
  simpl. f_equal. apply IH, H.
Qed.

Lemma take_while_drop (p : ascii -> bool) (s : string) :
  s = (take_while p s ++ Py.drop (String.length (take_while p s)) s)%string.
Proof.
  induction s as [|c s IH]; [reflexivity|]. simpl.
  destruct (p c); [|reflexivity]. simpl. f_equal. exact IH.
Qed.

Lemma take_while_all (p : ascii -> bool) (s : string) :
  Py.all_chars p (take_while p s) = true.
Proof.
  induction s as [|c s IH]; [reflexivity|]. simpl.
  destruct (p c) eqn:E; [|reflexivity]. simpl. now rewrite E.
Qed.

Lemma take_drop (k : nat) (s : string) : s = (Py.take k s ++ Py.drop k s)%string.
Proof.
  revert s. induction k as [|k IH]; intros s; [destruct s; reflexivity|].
  destruct s as [|c s]; [reflexivity|]. simpl. f_equal. apply IH.
Qed.

Lemma endswith_eq (s p : string) :
  Py.endswith s p = true ->
  s = (Py.take (String.length s - String.length p) s ++ p)%string.
Proof.
  unfold Py.endswith. intros H. apply andb_true_iff in H as [_ H].
  apply String.eqb_eq in H.
  rewrite (take_drop (String.length s - String.length p) s) at 1. now rewrite H.
Qed.

Lemma last_char_inj (x y : string) (a b : ascii) :
  (x ++ String a "")%string = (y ++ String b "")%string -> a = b.
Proof.
  revert y. induction x as [|c x IH]; intros y H.
  - destruct y as [|d y]; simpl in H; [congruence|].
    injection H as _ H. destruct y; discriminate.
  - destruct y as [|d y]; simpl in H.
    + injection H as _ H. destruct x; discriminate.
    + injection H as _ H. apply (IH y H).
Qed.

Lemma md_name_no_final_newline (x t : string) :
  Py.endswith (x ++ t) ".md" = true -> Py.endswith t (String newline "") = false.
Proof.
  intros H. destruct (Py.endswith t (String newline "")) eqn:E; [exfalso|reflexivity].
  apply endswith_eq in H, E. rewrite E in H at 1.
  set (t' := Py.take _ t) in H. set (y := Py.take _ (x ++ t)) in H.
  assert ((x ++ t' ++ String newline "")%string = ((x ++ t') ++ String newline "")%string)
    as E1 by (now rewrite string_app_assoc).
  assert ((y ++ ".md")%string = ((y ++ ".m") ++ "d")%string)
    as E2 by (now rewrite string_app_assoc).
  rewrite E1, E2 in H. apply last_char_inj in H. discriminate.
Qed.

Lemma match_after_prefix_name (pre0 n pre tok tl : string) :
  match_after_prefix pre0 n = Some (pre, tok, tl) ->
  Py.endswith n ".md" = true ->
  n = make_file_name pre tok tl /\ token_shape tok = true.
Proof.
  unfold match_after_prefix. intros H Hmd.
  destruct (Py.startswith n (pre0 ++ "-")) eqn:Es; [|discriminate].
  apply startswith_eq in Es. cbv zeta in H.
  assert (String.length (pre0 ++ "-") = String.length pre0 + 1)%nat as El
      by (rewrite string_length_app; reflexivity).
  rewrite El in Es.
  set (rest := Py.drop (String.length pre0 + 1) n) in *.
  set (tk := take_while Py.is_alnum rest) in *.
  set (after := Py.drop (String.length tk) rest) in *.
  pose proof (take_while_drop Py.is_alnum rest) as Er. fold tk in Er. fold after in Er.
  destruct (Py.is_ascii_digit (char_at 0 tk)) eqn:Ed; [|discriminate].
  destruct (Py.startswith after "-") eqn:Ea; [|discriminate].
  apply startswith_eq in Ea. cbn [String.length] in Ea.
  cbn [andb] in H.
  set (t := Py.drop 1 after) in *.
  assert (n = ((pre0 ++ "-" ++ tk ++ "-") ++ t)%string) as En.
  { rewrite Es, Er, Ea at 1. now rewrite !string_app_assoc. }
  assert (Py.endswith t (String newline "") = false) as Enl.
  { apply (md_name_no_final_newline (pre0 ++ "-" ++ tk ++ "-")). now rewrite <- En. }
  rewrite Enl in H.
  destruct (Py.endswith t ".md") eqn:Et; [|discriminate].
  apply endswith_eq in Et. cbn [String.length] in Et.
  destruct (_ && _) in H; [|discriminate]. injection H as <- <- <-.
  split.
  - unfold make_file_name. rewrite En, Et at 1. now rewrite !string_app_assoc.
  - unfold token_shape. rewrite Ed. apply take_while_all.
Qed.

Lemma match_name_name (n pre tok tl : string) :
  match_name n = Some (pre, tok, tl) ->
  Py.endswith n ".md" = true ->
  n = make_file_name pre tok tl /\ token_shape tok = true.
Proof.
  unfold match_name. destruct (match_after_prefix "SPEC-ENT" n) as [r|] eqn:E.
  - intros H Hmd. injection H as ->. exact (match_after_prefix_name _ _ _ _ _ E Hmd).
  - intros H Hmd. exact (match_after_prefix_name _ _ _ _ _ H Hmd).
Qed.

Lemma token_shape_parts (tok : string) :
  token_shape tok = true ->
  exists c r, tok = String c r /\ Py.is_ascii_digit c = true
              /\ Py.all_chars Py.is_alnum tok = true.
Proof.
  unfold token_shape. intros H. apply andb_true_iff in H as [Hd Ha].
  destruct tok as [|c r]; [discriminate|]. exists c, r. auto.
Qed.

Lemma match_after_prefix_shape (pre tok tl : string) :
  token_shape tok = true -> tl <> "" -> has_newline tl = false ->
  match_after_prefix pre (make_file_name pre tok tl) = Some (pre, tok, tl).
Proof.
  intros Htok Htl Hnl. unfold match_after_prefix, make_file_name.
  assert ((pre ++ "-" ++ tok ++ "-" ++ tl ++ ".md")%string
          = ((pre ++ "-") ++ tok ++ "-" ++ tl ++ ".md")%string) as E
      by (now rewrite string_app_assoc).
  rewrite E at 1. rewrite startswith_app.
  assert (String.length pre + 1 = String.length (pre ++ "-"))%nat as ->
      by (rewrite string_length_app; reflexivity).
  rewrite E, drop_app.
  pose proof Htok as Hs. unfold token_shape in Hs. apply andb_true_iff in Hs as [Hd Ha].
  change ("-" ++ tl ++ ".md")%string with (String "-" (tl ++ ".md")).
  rewrite take_while_app by auto.
  rewrite drop_app, Hd.
  cbn [Py.startswith Py.drop andb]. rewrite Ascii.eqb_refl. cbn [andb].
  rewrite not_endswith_newline, endswith_app.
  rewrite string_length_app. cbn [String.length].
  replace (String.length tl + 3 - 3)%nat with (String.length tl) by lia.
  rewrite take_app, Hnl.
  destruct tl as [|c r]; [congruence|]. reflexivity.
Qed.

Lemma match_name_shape (pre tok tl : string) :
  pre = OSS_PREFIX \/ pre = ENT_PREFIX ->
  token_shape tok = true -> tl <> "" -> has_newline tl = false ->
  match_name (make_file_name pre tok tl) = Some (pre, tok, tl).
Proof.
  intros Hpre Htok Htl Hnl. unfold match_name.
  destruct Hpre as [-> | ->].
  - assert (match_after_prefix "SPEC-ENT" (make_file_name OSS_PREFIX tok tl) = None) as ->.
    { destruct (token_shape_parts tok Htok) as (c & r & -> & Hc & _).
      unfold match_after_prefix, make_file_name, OSS_PREFIX.
      cbn [String.append Py.startswith].
      rewrite !Ascii.eqb_refl. cbn [andb].
      destruct (Ascii.eqb "E" c) eqn:Ec; [|reflexivity].
      apply Ascii.eqb_eq in Ec. subst c. discriminate Hc. }
    apply (match_after_prefix_shape OSS_PREFIX); assumption.
  - rewrite (match_after_prefix_shape ENT_PREFIX) by assumption. reflexivity.
Qed.

(** X1. The name pattern and the format of a file name are inverse to
    each other: a name made of a prefix of the two families, a token (a
    digit, then letters and digits) and a non-empty tail without a line
    break is read back as these three parts, and a name ending in [.md]
    that the pattern accepts is the name made of the parts it was read
    as. *)
Theorem file_name_round_trip :
  (forall pre tok tl,
      pre = OSS_PREFIX \/ pre = ENT_PREFIX ->
      token_shape tok = true -> tl <> "" -> has_newline tl = false ->
      match_name (make_file_name pre tok tl) = Some (pre, tok, tl))
  /\ (forall n pre tok tl,
        match_name n = Some (pre, tok, tl) -> Py.endswith n ".md" = true ->
        n = make_file_name pre tok tl
        /\ (pre = OSS_PREFIX \/ pre = ENT_PREFIX)
        /\ token_shape tok = true /\ tl <> "" /\ has_newline tl = false).
Proof.
  split.
  - apply match_name_shape.
  - intros n pre tok tl H Hmd.
    destruct (match_name_name _ _ _ _ H Hmd) as [En Hs].
    destruct (match_name_sound _ _ _ _ H) as (Hp & Ht & Hn). auto.
Qed.

Lemma iter_spec_files_in (fs : FS) (specs_root : Path) (s : SpecFile) :
  List.In s (iter_spec_files fs specs_root) <->
  exists e c rel,
    List.In e (entries fs)
    /\ PurePath.relative_to (epath e) specs_root = Some (c :: rel)
    /\ Py.endswith (PurePath.name (epath e)) ".md" = true
    /\ String.eqb (PurePath.name (PurePath.parent (epath e))) "analysis" = false
    /\ match_name (PurePath.name (epath e)) = Some (prefix s, token s, tail s)
    /\ path s = epath e /\ mtime s = emtime e.
Proof.
  unfold iter_spec_files, rglob_md. rewrite List.in_flat_map. split.
  - intros (e & He & Hs). apply List.filter_In in He as [He Hc].
    destruct (PurePath.relative_to (epath e) specs_root) as [[|c rel]|] eqn:Er;
      try discriminate.
    destruct (String.eqb _ "analysis") eqn:Ea; [destruct Hs|].
    destruct (match_name _) as [[[pre tok] tl]|] eqn:Em; [|destruct Hs].
    destruct Hs as [<-|[]]. exists e, c, rel. cbn. auto 10.
  - intros (e & c & rel & He & Er & Hmd & Ea & Em & Hp & Hm).
    exists e. split.
    + apply List.filter_In. split; [exact He|]. now rewrite Er.
    + rewrite Ea, Em. left. destruct s; cbn in *. now subst.
Qed.

Lemma entries_in (fs : FS) (e : Entry) :
  List.In e (entries fs) <->
  (exists f, List.In f (files fs) /\ e = file_entry f)
  \/ (exists d, List.In d (dirs fs) /\ e = dir_entry fs d).
Proof.
  unfold entries. rewrite List.in_app_iff, !List.in_map_iff. split.
  - intros [(f & <- & Hf)|(d & <- & Hd)]; [left|right]; eauto.
  - intros [(f & Hf & ->)|(d & Hd & ->)]; [left|right]; eauto.
Qed.

(** X2. What [iter_spec_files] yields: a record is yielded exactly when
    it stands for a regular file or a directory strictly below the
    registry root whose parent directory is not called [analysis] and
    whose name is made of the record's prefix ([SPEC] or [SPEC-ENT]),
    token and non-empty tail; the record carries the path and the
    modification time of that file or directory. *)
Theorem iter_spec_files_spec (fs : FS) (specs_root : Path) (s : SpecFile) :
  List.In s (iter_spec_files fs specs_root) <->
  exists c rel,
    ((exists f, List.In f (files fs) /\ path s = fpath f /\ mtime s = fmtime f)
     \/ (List.In (path s) (dirs fs) /\ mtime s = dir_mtime fs (path s)))
    /\ path s = specs_root ++ c :: rel
    /\ PurePath.name (PurePath.parent (path s)) <> "analysis"
    /\ PurePath.name (path s) = make_file_name (prefix s) (token s) (tail s)
    /\ (prefix s = OSS_PREFIX \/ prefix s = ENT_PREFIX)
    /\ token_shape (token s) = true
    /\ tail s <> "" /\ has_newline (tail s) = false.
Proof.
  rewrite iter_spec_files_in. split.
  - intros (e & c & rel & He & Er & Hmd & Ea & Em & Hp & Hm).
    exists c, rel. rewrite Hp, Hm.
    destruct (match_name_name _ _ _ _ Em Hmd) as [En Hs].
    destruct (match_name_sound _ _ _ _ Em) as (Hpre & Ht & Hn).
    apply relative_to_some in Er. apply String.eqb_neq in Ea.
    split; [|auto 12].
    apply entries_in in He as [(f & Hf & ->)|(d & Hd & ->)]; [left|right].
    + exists f. auto.
    + cbn. auto.
  - intros (c & rel & He & Er & Ea & En & Hpre & Hs & Ht & Hn).
    assert (exists e, List.In e (entries fs) /\ path s = epath e /\ mtime s = emtime e)
      as (e & Hin & Hp & Hm).
    { destruct He as [(f & Hf & Hp & Hm)|[Hd Hm]].
      - exists (file_entry f). split; [apply entries_in; left; eauto|]. auto.
      - exists (dir_entry fs (path s)). split; [apply entries_in; right; eauto|]. auto. }
    exists e, c, rel. rewrite <- Hp. split; [exact Hin|].
    split; [rewrite Er; apply relative_to_app|].
    split; [rewrite En; apply make_file_name_md|].
    split; [now apply String.eqb_neq|].
    split; [rewrite En; now apply match_name_shape|]. auto.
Qed.

(** ** Dates in tails *)

Lemma int_acc_bound (s : string) (a : N) :
  Py.all_chars Py.is_ascii_digit s = true ->
  (Py.int_acc a s < (a + 1) * 10 ^ N.of_nat (String.length s))%N.
Proof.
  revert a. induction s as [|c s IH]; intros a H.
  - cbn. lia.
  - cbn [Py.all_chars] in H. apply andb_true_iff in H as [Hc Hs].
    cbn [Py.int_acc String.length]. specialize (IH (10 * a + Py.digit_value c)%N Hs).
    assert (Py.digit_value c <= 9)%N as Hd.
    { unfold Py.is_ascii_digit in Hc. apply andb_true_iff in Hc as [_ Hc].
      apply N.leb_le in Hc. unfold Py.digit_value. lia. }
    rewrite Nat2N.inj_succ, N.pow_succ_r'.
    eapply N.lt_le_trans; [exact IH|]. nia.
Qed.

Lemma int_bound (s : string) :
  Py.all_chars Py.is_ascii_digit s = true ->
  (Py.int s < 10 ^ N.of_nat (String.length s))%N.
Proof.
  intros H. pose proof (int_acc_bound s 0 H) as Hb. unfold Py.int. lia.
Qed.

Lemma date_make_some (y m d : N) (dt : Date.t) :
  Date.make y m d = Some dt <->
  dt = Date.mk y m d
  /\ (1 <= y <= 9999)%N /\ (1 <= m <= 12)%N /\ (1 <= d <= Date.days_in_month y m)%N.
Proof.
  unfold Date.make.
  destruct (_ && _) eqn:E.
  - repeat (apply andb_true_iff in E as [E ?]).
    repeat match goal with H : (_ <=? _)%N = true |- _ => apply N.leb_le in H end.
    split; [intros Hmk; injection Hmk as <-; auto 10|intros [-> _]; reflexivity].
  - split; [discriminate|]. intros (_ & [? ?] & [? ?] & [? ?]).
    assert ((1 <=? y) && (y <=? 9999) && (1 <=? m) && (m <=? 12)
            && (1 <=? d) && (d <=? Date.days_in_month y m) = true)%N; [|congruence].
    repeat (apply andb_true_iff; split); apply N.leb_le; assumption.
Qed.

(** X3. [dated_key] is a date exactly when the tail starts with four
    digits, a dash, two digits, a dash, two digits and a dash that name
    a day of the calendar: a year from 1 on, a month from 1 to 12 and a
    day that the month has in that year (29 February in leap years
    only).  The date is the one written. *)
Theorem dated_key_spec (s : SpecFile) (dt : Date.t) :
  dated_key s = Some dt <->
  exists ys ms ds rest,
    tail s = (ys ++ "-" ++ ms ++ "-" ++ ds ++ "-" ++ rest)%string
    /\ String.length ys = 4%nat /\ Py.all_chars Py.is_ascii_digit ys = true
    /\ String.length ms = 2%nat /\ Py.all_chars Py.is_ascii_digit ms = true
    /\ String.length ds = 2%nat /\ Py.all_chars Py.is_ascii_digit ds = true
    /\ dt = Date.mk (Py.int ys) (Py.int ms) (Py.int ds)
    /\ (1 <= Py.int ys)%N
    /\ (1 <= Py.int ms <= 12)%N
    /\ (1 <= Py.int ds <= Date.days_in_month (Py.int ys) (Py.int ms))%N.
Proof.
  unfold dated_key. split.
  - destruct (match_date_fragment (tail s)) as [[[y m] d]|] eqn:E; [|discriminate].
    intros H. apply date_make_some in H as (-> & [Hy _] & Hm & Hd).
    unfold match_date_fragment in E.
    destruct (_ && _) eqn:C in E; [|discriminate]. injection E as <- <- <-.
    repeat (apply andb_true_iff in C as [C ?]).
    repeat match goal with H : (_ =? _)%nat = true |- _ => apply Nat.eqb_eq in H end.
    repeat match goal with H : Ascii.eqb _ _ = true |- _ => apply Ascii.eqb_eq in H end.
    exists (Py.take 4 (tail s)), (Py.take 2 (Py.drop 5 (tail s))),
      (Py.take 2 (Py.drop 8 (tail s))), (Py.drop 11 (tail s)).
    repeat split; try assumption; try apply Hm; try apply Hd.
    destruct (tail s) as [|c0 [|c1 [|c2 [|c3 [|c4 [|c5 [|c6 [|c7 [|c8 [|c9 [|c10 r]]]]]]]]]]];
      cbn in *; try discriminate; congruence.
  - intros (ys & ms & ds & rest & Et & Ly & Dy & Lm & Dm & Ld & Dd & -> & Hy & Hm & Hd).
    rewrite Et.
    assert (Py.int ys <= 9999)%N as Hy'.
    { pose proof (int_bound ys Dy) as Hb. rewrite Ly in Hb. cbn in Hb. lia. }
    assert (match_date_fragment (ys ++ "-" ++ ms ++ "-" ++ ds ++ "-" ++ rest)
            = Some (ys, ms, ds)) as ->.
    { clear - Ly Dy Lm Dm Ld Dd.
      destruct ys as [|a0 [|a1 [|a2 [|a3 [|? ?]]]]]; try discriminate.
      destruct ms as [|b0 [|b1 [|? ?]]]; try discriminate.
      destruct ds as [|d0 [|d1 [|? ?]]]; try discriminate.
      unfold match_date_fragment. cbn in *. rewrite Dy, Dm, Dd. reflexivity. }
    apply date_make_some. auto 10.
Qed.

(** ** The order of the tie-break *)

Lemma date_eqb_eq (a b : Date.t) : Date.eqb a b = true <-> a = b.
Proof.
  destruct a as [ya ma da], b as [yb mb db]. unfold Date.eqb. cbn. split.
  - intros H. apply andb_true_iff in H as [H Hd]. apply andb_true_iff in H as [Hy Hm].
    apply N.eqb_eq in Hy, Hm, Hd. congruence.
  - intros H. injection H as -> -> ->. now rewrite !N.eqb_refl.
Qed.

Lemma date_gtb_spec (a b : Date.t) :
  Date.gtb a b = true <->
  (Date.year b < Date.year a
   \/ (Date.year a = Date.year b
       /\ (Date.month b < Date.month a
           \/ (Date.month a = Date.month b /\ Date.day b < Date.day a))))%N.
Proof.
  destruct a as [ya ma da], b as [yb mb db]. unfold Date.gtb. cbn.
  destruct (N.eqb_spec ya yb); cbn; [|rewrite N.ltb_lt; lia].
  destruct (N.eqb_spec ma mb); cbn; rewrite N.ltb_lt; lia.
Qed.

Lemma date_gtb_total (a b : Date.t) :
  Date.eqb a b = false -> Date.gtb a b = true \/ Date.gtb b a = true.
Proof.
  intros H. rewrite !date_gtb_spec.
  assert (a <> b) as Hne by (intros E; apply date_eqb_eq in E; congruence).
  destruct a as [ya ma da], b as [yb mb db]. cbn.
  destruct (N.eq_dec ya yb) as [->|]; [|lia].
  destruct (N.eq_dec ma mb) as [->|]; [|lia].
  destruct (N.eq_dec da db) as [->|]; [congruence|lia].
Qed.

Lemma date_gtb_asym (a b : Date.t) : Date.gtb a b = true -> Date.gtb b a = false.
Proof.
  intros H. destruct (Date.gtb b a) eqn:E; [|reflexivity].
  apply date_gtb_spec in H, E. lia.
Qed.

Lemma date_gtb_trans (a b c : Date.t) :
  Date.gtb a b = true -> Date.gtb b c = true -> Date.gtb a c = true.
Proof. rewrite !date_gtb_spec. lia. Qed.

Lemma date_gtb_neq (a b : Date.t) : Date.gtb a b = true -> Date.eqb a b = false.
Proof.
  intros H. destruct (Date.eqb a b) eqn:E; [|reflexivity].
  apply date_eqb_eq in E. subst b. pose proof (date_gtb_asym _ _ H). congruence.
Qed.

Lemma Qgtb_lt (a b : Q) : Qgtb a b = true <-> (b < a)%Q.
Proof.
  unfold Qgtb. split; intros H.
  - apply Qgt_alt. destruct (a ?= b)%Q; [discriminate|discriminate|reflexivity].
  - apply Qgt_alt in H. now rewrite H.
Qed.

Lemma Qgtb_asym (a b : Q) : Qgtb a b = true -> Qgtb b a = false.
Proof.
  intros H. destruct (Qgtb b a) eqn:E; [|reflexivity].
  apply Qgtb_lt in H, E. exfalso. apply (Qlt_irrefl a). eapply Qlt_trans; eassumption.
Qed.

Lemma Qgtb_chain (x b r : Q) :
  Qgtb x b = true -> Qgtb r b = false -> Qgtb x r = true.
Proof.
  intros H1 H2. apply Qgtb_lt. apply Qgtb_lt in H1.
  assert (~ (b < r)%Q) as Hn by (intros H; apply Qgtb_lt in H; congruence).
  apply Qnot_lt_le in Hn. eapply Qle_lt_trans; eassumption.
Qed.

(** The order on the date and the time of two keys with the same first
    component. *)
Lemma dated_gt_asym (da db : Date.t) (ma mb : Q) :
  (if negb (Date.eqb da db) then Date.gtb da db else Qgtb ma mb) = true ->
  (if negb (Date.eqb db da) then Date.gtb db da else Qgtb mb ma) = false.
Proof.
  destruct (Date.eqb da db) eqn:E; cbn.
  - apply date_eqb_eq in E. subst db.
    assert (Date.eqb da da = true) as -> by now apply date_eqb_eq. cbn. apply Qgtb_asym.
  - intros H. assert (Date.eqb db da = false) as ->.
    { destruct (Date.eqb db da) eqn:E'; [|reflexivity].
      apply date_eqb_eq in E'. subst db.
      assert (Date.eqb da da = true) by now apply date_eqb_eq. congruence. }
    cbn. now apply date_gtb_asym.
Qed.

Lemma dated_gt_chain (dx db dr : Date.t) (mx mb mr : Q) :
  (if negb (Date.eqb dx db) then Date.gtb dx db else Qgtb mx mb) = true ->
  (if negb (Date.eqb dr db) then Date.gtb dr db else Qgtb mr mb) = false ->
  (if negb (Date.eqb dx dr) then Date.gtb dx dr else Qgtb mx mr) = true.
Proof.
  destruct (Date.eqb dx db) eqn:Exb; cbn.
  - apply date_eqb_eq in Exb. subst db.
    destruct (Date.eqb dr dx) eqn:Erx; cbn.
    + apply date_eqb_eq in Erx. subst dr.
      assert (Date.eqb dx dx = true) as -> by now apply date_eqb_eq. cbn. apply Qgtb_chain.
    + intros _ H. destruct (date_gtb_total _ _ Erx) as [H'|H']; [congruence|].
      rewrite (date_gtb_neq _ _ H'). exact H'.
  - intros Hx. destruct (Date.eqb dr db) eqn:Erb; cbn.
    + apply date_eqb_eq in Erb. subst dr. intros _. now rewrite Exb.
    + intros Hr. destruct (date_gtb_total _ _ Erb) as [H'|H']; [congruence|].
      pose proof (date_gtb_trans _ _ _ Hx H') as Ht.
      rewrite (date_gtb_neq _ _ Ht). exact Ht.
Qed.

Lemma key_gt_asym (a b : Key) : key_gt a b = true -> key_gt b a = false.
Proof.
  destruct a as [[pa da] ma], b as [[pb db] mb]. unfold key_gt.
  destruct pa, pb; cbn; try discriminate; try reflexivity; apply dated_gt_asym.
Qed.

Lemma key_gt_irrefl (a : Key) : key_gt a a = false.
Proof.
  destruct (key_gt a a) eqn:E; [|reflexivity].
  pose proof (key_gt_asym _ _ E). congruence.
Qed.

Lemma key_gt_chain (x b r : Key) :
  key_gt x b = true -> key_gt r b = false -> key_gt x r = true.
Proof.
  destruct x as [[px dx] mx], b as [[pb db] mb], r as [[pr dr] mr]. unfold key_gt.
  destruct px, pb, pr; cbn; try discriminate; try reflexivity; try apply dated_gt_chain.
Qed.

Lemma max_by_key_first_maximum (store : list SpecFile) (rest seen : list nat) (best : nat) :
  (forall r, List.In r seen ->
             key_gt (sort_key (obj store r)) (sort_key (obj store best)) = false) ->
  (exists before after,
      seen = before ++ best :: after
      /\ forall r, List.In r before ->
                   key_gt (sort_key (obj store best)) (sort_key (obj store r)) = true) ->
  let newest := max_by_key store best rest in
  (forall r, List.In r (seen ++ rest) ->
             key_gt (sort_key (obj store r)) (sort_key (obj store newest)) = false)
  /\ exists before after,
       seen ++ rest = before ++ newest :: after
       /\ forall r, List.In r before ->
                    key_gt (sort_key (obj store newest)) (sort_key (obj store r)) = true.
Proof.
  revert seen best. induction rest as [|x rest IH]; intros seen best Hmax Hfirst.
  - cbn. rewrite app_nil_r. auto.
  - cbn [max_by_key].
    replace (seen ++ x :: rest) with ((seen ++ [x]) ++ rest) by now rewrite <- app_assoc.
    destruct (key_gt (sort_key (obj store x)) (sort_key (obj store best))) eqn:E.
    + apply IH.
      * intros r Hr. apply in_app_or in Hr as [Hr|[<-|[]]].
        -- apply key_gt_asym. eapply key_gt_chain; [exact E|apply Hmax, Hr].
        -- apply key_gt_irrefl.
      * exists seen, []. split; [reflexivity|].
        intros r Hr. eapply key_gt_chain; [exact E|apply Hmax, Hr].
    + apply IH.
      * intros r Hr. apply in_app_or in Hr as [Hr|[<-|[]]]; [apply Hmax, Hr|exact E].
      * destruct Hfirst as (b & a & -> & Hb). exists b, (a ++ [x]).
        split; [now rewrite <- app_assoc|exact Hb].
Qed.

(** X4. The record that [max] selects in a group of any size: no
    member of the group has a larger key, and every member that comes
    before it in the group has a strictly smaller one (the first of the
    largest wins).  Hence a dated member is selected whenever the group
    has one, and in a group without dates the selected member has the
    latest modification time. *)
Theorem newest_is_first_maximum (store : list SpecFile) (first : nat) (rest : list nat) :
  let newest := max_by_key store first rest in
  (forall r, List.In r (first :: rest) ->
             key_gt (sort_key (obj store r)) (sort_key (obj store newest)) = false)
  /\ (exists before after,
         first :: rest = before ++ newest :: after
         /\ forall r, List.In r before ->
                      key_gt (sort_key (obj store newest)) (sort_key (obj store r)) = true)
  /\ (forall r, List.In r (first :: rest) ->
                dated_key (obj store r) <> None -> dated_key (obj store newest) <> None)
  /\ ((forall r, List.In r (first :: rest) -> dated_key (obj store r) = None) ->
      forall r, List.In r (first :: rest) ->
                (mtime (obj store r) <= mtime (obj store newest))%Q).
Proof.
  intros newest.
  destruct (max_by_key_first_maximum store rest [first] first) as [Hmax Hfirst].
  { intros r [<-|[]]. apply key_gt_irrefl. }
  { exists [], []. split; [reflexivity|]. intros r []. }
  fold newest in Hmax, Hfirst. cbn [app] in Hmax, Hfirst.
  split; [exact Hmax|]. split; [exact Hfirst|]. split.
  - intros r Hr Hd Hn. specialize (Hmax r Hr). unfold key_gt, sort_key in Hmax.
    rewrite Hn in Hmax. destruct (dated_key (obj store r)); [discriminate Hmax|congruence].
  - intros Hnone r Hr. specialize (Hmax r Hr). unfold key_gt, sort_key in Hmax.
    assert (List.In newest (first :: rest)) as Hin by apply max_by_key_in.
    rewrite (Hnone r Hr), (Hnone newest Hin) in Hmax. cbn in Hmax.
    apply Qnot_lt_le. intros Hlt. apply Qgtb_lt in Hlt. congruence.
Qed.

(** ** The numbers that a pass hands out *)

Lemma max_used_number_cons (s : SpecFile) (specs : list SpecFile) :
  max_used_number (s :: specs)
  = if Py.isdigit (token s) then N.max (Py.int (token s)) (max_used_number specs)
    else max_used_number specs.
Proof.
  unfold max_used_number, numeric_tokens. cbn [map List.filter].
  destruct (Py.isdigit (token s)); reflexivity.
Qed.

Lemma max_used_number_update (store store' : list SpecFile) (nr : nat) (l : list nat) :
  (forall r, r <> nr -> obj store' r = obj store r) ->
  Py.isdigit (token (obj store' nr)) = true ->
  (max_used_number (view store l) < Py.int (token (obj store' nr)))%N ->
  List.In nr l ->
  max_used_number (view store' l) = Py.int (token (obj store' nr)).
Proof.
  intros Hother Hd Hlt Hin. apply N.le_antisymm.
  - clear Hin. induction l as [|r l IH]; [cbn; lia|].
    unfold view in *. cbn [map] in *. rewrite max_used_number_cons in *.
    destruct (Nat.eq_dec r nr) as [->|Hne].
    + rewrite Hd. destruct (Py.isdigit (token (obj store nr))); lia.
    + rewrite (Hother r Hne). destruct (Py.isdigit (token (obj store r))); lia.
  - apply max_used_number_ge; [|exact Hd]. unfold view. apply List.in_map, Hin.
Qed.

Lemma renumber_all_numbers (scoped : list nat) (width : nat)
    (items : list (string * list nat)) :
  (forall item, List.In item items -> forall r, List.In r (snd item) -> List.In r scoped) ->
  forall store,
    (forall r, List.In r scoped -> (r < length store)%nat) ->
    let store' := renumber_all scoped width items store in
    let m := max_used_number (view store scoped) in
    let n := N.of_nat (count_conflicts items) in
    max_used_number (view store' scoped) = (m + n)%N
    /\ forall r, obj store' r = obj store r
                 \/ (Py.isdigit (token (obj store' r)) = true
                     /\ (m < Py.int (token (obj store' r)) <= m + n)%N).
Proof.
  induction items as [|item items IH]; intros Hin store Hlen; cbv zeta.
  - cbn. split; [lia|auto].
  - change (renumber_all scoped width (item :: items) store)
      with (renumber_all scoped width items (renumber_group scoped width store item)).
    assert (count_conflicts (item :: items)
            = ((if is_conflict item then 1 else 0) + count_conflicts items)%nat) as ->.
    { unfold count_conflicts. cbn [List.filter]. destruct (is_conflict item); reflexivity. }
    assert (forall item', List.In item' items ->
                          forall r, List.In r (snd item') -> List.In r scoped) as Hin'
        by (intros item' H; apply Hin; right; exact H).
    destruct (is_conflict item) eqn:Ec.
    + destruct (renumber_group_conflict scoped width store item Ec)
        as (nr & Hnr & Hl & Hother & Hself).
      set (store1 := renumber_group scoped width store item) in *.
      assert (List.In nr scoped) as Hs by (apply (Hin item); [left; reflexivity|exact Hnr]).
      destruct (Hself (Hlen nr Hs)) as (Htok & _).
      assert (Py.isdigit (token (obj store1 nr)) = true) as Hd
          by (rewrite Htok; apply isdigit_next_numeric_token).
      assert (Py.int (token (obj store1 nr)) = max_used_number (view store scoped) + 1)%N
        as Hint by (rewrite Htok; apply int_next_numeric_token).
      assert (max_used_number (view store1 scoped)
              = max_used_number (view store scoped) + 1)%N as Hm1.
      { rewrite <- Hint. apply (max_used_number_update store); auto. lia. }
      destruct (IH Hin' store1) as [Hmax Hrec].
      { intros r Hr. rewrite Hl. apply Hlen, Hr. }
      cbv zeta in Hmax, Hrec. rewrite Hm1 in Hmax, Hrec.
      split; [lia|]. intros r. destruct (Hrec r) as [E|[Hd' Hb]].
      * destruct (Nat.eq_dec r nr) as [->|Hne].
        -- right. rewrite E. split; [exact Hd|]. lia.
        -- left. rewrite E. apply Hother, Hne.
      * right. split; [exact Hd'|lia].
    + assert (renumber_group scoped width store item = store) as ->.
      { unfold renumber_group. unfold is_conflict in Ec.
        destruct (snd item) as [|a [|b l]]; try reflexivity. discriminate. }
      destruct (IH Hin' store Hlen) as [Hmax Hrec]. cbv zeta in Hmax, Hrec.
      split; [exact Hmax|exact Hrec].
Qed.

(** X5. A pass that returns hands out numbers without gaps: if it
    resolved [n] conflicts, the largest number among the all-digit
    tokens of the family is [n] more than before, and every record
    whose token changed carries an all-digit token whose number lies
    above the old largest number and not above the new one. *)
Theorem pass_numbers_without_gaps (root : Path) (pre : string) (dry : bool)
    (w w' : World) (n : nat) :
  resolve_conflicts_for_prefix root pre dry w = (w', inr n) ->
  let scoped := scoped_refs (heap w) pre in
  let m := max_used_number (view (heap w) scoped) in
  max_used_number (view (heap w') scoped) = (m + N.of_nat n)%N
  /\ forall r, token (obj (heap w') r) <> token (obj (heap w) r) ->
               Py.isdigit (token (obj (heap w') r)) = true
               /\ (m < Py.int (token (obj (heap w') r)) <= m + N.of_nat n)%N.
Proof.
  intros E. apply resolve_returns in E as (Hh & Hn & _). cbv zeta.
  rewrite Hh, Hn. unfold renumber_family.
  destruct (renumber_all_numbers (scoped_refs (heap w) pre)
              (family_width (view (heap w) (scoped_refs (heap w) pre)))
              (family_items (heap w) pre)) with (store := heap w) as [Hmax Hrec].
  - intros [t d] Hin r Hr.
    destruct (family_items_groups (heap w) pre) as (_ & Hm & _).
    destruct (Hm t d Hin) as [-> _]. unfold members in Hr.
    apply List.filter_In in Hr. tauto.
  - intros r Hr. apply scoped_refs_in in Hr. tauto.
  - cbv zeta in Hmax, Hrec. split; [exact Hmax|].
    intros r Hne. destruct (Hrec r) as [Eq|H]; [rewrite Eq in Hne; congruence|exact H].
Qed.

(** ** What a pass leaves of a record *)

Lemma in_firstn {A} (k : nat) (l : list A) (x : A) :
  List.In x (firstn k l) -> List.In x l.
Proof.
  intros H. rewrite <- (firstn_skipn k l). apply in_or_app. left. exact H.
Qed.

Lemma family_items_scoped (store : list SpecFile) (pre : string) (item : string * list nat) :
  List.In item (family_items store pre) ->
  forall r, List.In r (snd item) -> List.In r (scoped_refs store pre).
Proof.
  destruct item as [t d]. intros Hin r Hr.
  destruct (family_items_groups store pre) as (_ & Hm & _).
  destruct (Hm t d Hin) as [-> _]. unfold members in Hr.
  apply List.filter_In in Hr. tauto.
Qed.

Lemma renumber_all_frame (scoped : list nat) (width : nat)
    (items : list (string * list nat)) :
  (forall item, List.In item items -> forall r, List.In r (snd item) -> List.In r scoped) ->
  forall store,
    (forall r, List.In r scoped -> (r < length store)%nat) ->
    let store' := renumber_all scoped width items store in
    length store' = length store
    /\ forall r,
         (~ List.In r scoped -> obj store' r = obj store r)
         /\ prefix (obj store' r) = prefix (obj store r)
         /\ tail (obj store' r) = tail (obj store r)
         /\ mtime (obj store' r) = mtime (obj store r)
         /\ PurePath.parent (path (obj store' r)) = PurePath.parent (path (obj store r))
         /\ (base_name (obj store r)
             = make_file_name (prefix (obj store r)) (token (obj store r)) (tail (obj store r)) ->
             base_name (obj store' r)
             = make_file_name (prefix (obj store' r)) (token (obj store' r))
                 (tail (obj store' r))).
Proof.
  induction items as [|item items IH]; intros Hin store Hlen; cbv zeta.
  - cbn. split; [reflexivity|]. intros r. auto 10.
  - change (renumber_all scoped width (item :: items) store)
      with (renumber_all scoped width items (renumber_group scoped width store item)).
    assert (forall item', List.In item' items ->
                          forall r, List.In r (snd item') -> List.In r scoped) as Hin'
        by (intros item' H; apply Hin; right; exact H).
    assert (length (renumber_group scoped width store item) = length store
            /\ forall r,
                 (~ List.In r scoped -> obj (renumber_group scoped width store item) r
                                        = obj store r)
                 /\ prefix (obj (renumber_group scoped width store item) r)
                    = prefix (obj store r)
                 /\ tail (obj (renumber_group scoped width store item) r) = tail (obj store r)
                 /\ mtime (obj (renumber_group scoped width store item) r)
                    = mtime (obj store r)
                 /\ PurePath.parent (path (obj (renumber_group scoped width store item) r))
                    = PurePath.parent (path (obj store r))
                 /\ (base_name (obj store r)
                     = make_file_name (prefix (obj store r)) (token (obj store r))
                         (tail (obj store r)) ->
                     base_name (obj (renumber_group scoped width store item) r)
                     = make_file_name (prefix (obj (renumber_group scoped width store item) r))
                         (token (obj (renumber_group scoped width store item) r))
                         (tail (obj (renumber_group scoped width store item) r))))
      as [Hl1 Hstep].
    { unfold renumber_group.
      destruct (snd item) as [|a [|b l]] eqn:Ed;
        [split; [reflexivity|intros r; auto 10]..|].
      set (nr := max_by_key store a (b :: l)).
      assert (List.In nr scoped) as Hs.
      { apply (Hin item); [left; reflexivity|]. rewrite Ed. apply max_by_key_in. }
      split; [now rewrite set_path_length, set_token_length|].
      intros r. destruct (Nat.eq_dec r nr) as [->|Hne].
      - rewrite obj_renumbered by (apply Hlen, Hs). cbn [prefix tail mtime path token].
        split; [intros Hn; contradiction|]. repeat split.
        + unfold PurePath.parent, PurePath.with_name. apply removelast_last.
        + intros _. unfold base_name, PurePath.name, PurePath.with_name. cbn [path].
          apply last_last.
      - rewrite obj_renumbered_other by congruence. auto 10. }
    destruct (IH Hin' (renumber_group scoped width store item)) as [Hl Hrec].
    { intros r Hr. rewrite Hl1. apply Hlen, Hr. }
    cbv zeta in Hl, Hrec. split; [congruence|]. intros r.
    destruct (Hrec r) as (H1 & H2 & H3 & H4 & H5 & H6).
    destruct (Hstep r) as (G1 & G2 & G3 & G4 & G5 & G6).
    split; [intros Hn; rewrite H1, G1; auto|].
    split; [congruence|]. split; [congruence|]. split; [congruence|].
    split; [congruence|]. intros Hw. apply H6, G6, Hw.
Qed.

(** X6. What a pass, finished or cut short by an exception, leaves of
    the records: as many as before; a record of another prefix is
    untouched; prefix, tail and modification time never change; the
    path stays in the same directory; and a record whose file name was
    made of its prefix, token and tail is so named afterwards. *)
Theorem pass_keeps_records_in_place (root : Path) (pre : string) (dry : bool) (w : World) :
  let w' := fst (resolve_conflicts_for_prefix root pre dry w) in
  length (heap w') = length (heap w)
  /\ forall r,
       (prefix (obj (heap w) r) <> pre -> obj (heap w') r = obj (heap w) r)
       /\ prefix (obj (heap w') r) = prefix (obj (heap w) r)
       /\ tail (obj (heap w') r) = tail (obj (heap w) r)
       /\ mtime (obj (heap w') r) = mtime (obj (heap w) r)
       /\ PurePath.parent (path (obj (heap w') r)) = PurePath.parent (path (obj (heap w) r))
       /\ (base_name (obj (heap w) r)
           = make_file_name (prefix (obj (heap w) r)) (token (obj (heap w) r))
               (tail (obj (heap w) r)) ->
           base_name (obj (heap w') r)
           = make_file_name (prefix (obj (heap w') r)) (token (obj (heap w') r))
               (tail (obj (heap w') r))).
Proof.
  cbv zeta. destruct (resolve_any root pre dry w) as (k & Hh & _). rewrite Hh.
  destruct (renumber_all_frame (scoped_refs (heap w) pre)
              (family_width (view (heap w) (scoped_refs (heap w) pre)))
              (firstn k (family_items (heap w) pre))) with (store := heap w)
    as [Hl Hrec].
  - intros item Hin. apply (family_items_scoped (heap w) pre). eapply in_firstn, Hin.
  - intros r Hr. apply scoped_refs_in in Hr. tauto.
  - cbv zeta in Hl, Hrec. split; [exact Hl|]. intros r.
    destruct (Hrec r) as (H1 & H2). split; [|exact H2].
    intros Hp. apply H1. intros Hin. apply scoped_refs_in in Hin. tauto.
Qed.

(** ** Moving a document *)

Lemma rename_preconditions (specs_root : Path) (pre : string) (scoped : list nat)
    (width : nat) (first second : nat) (rest : list nat) (w : World) :
  wf_disk (disk w) -> in_sync specs_root w ->
  scoped = scoped_refs (heap w) pre ->
  (forall r, List.In r (first :: second :: rest) -> List.In r scoped) ->
  let newest := obj (heap w) (max_by_key (heap w) first (second :: rest)) in
  let new_token := next_numeric_token (view (heap w) scoped) width in
  let new_path :=
    PurePath.with_name (path newest)
      (make_file_name (prefix newest) new_token (tail newest)) in
  (exists f0, Fs.find_file (disk w) (path newest) = Some f0
              /\ scan_path specs_root (fpath f0) <> [])
  /\ Fs.is_dir (disk w) new_path = false
  /\ Fs.is_file (disk w) new_path = false.
Proof.
  intros [Hnd Hdirs] Hsync Hscoped Hdupes.
  unfold in_sync in Hsync. rewrite iter_spec_files_keys in Hsync by exact Hdirs.
  set (nr := max_by_key (heap w) first (second :: rest)).
  intros newest new_token new_path.
  assert (List.In nr scoped) as Hnrs by (apply Hdupes, max_by_key_in).
  assert ((nr < length (heap w))%nat /\ prefix newest = pre) as [Hlt Hpre]
      by (rewrite Hscoped in Hnrs; apply scoped_refs_in in Hnrs; exact Hnrs).
  assert (Py.isdigit new_token = true) as Hdig by apply isdigit_next_numeric_token.
  destruct (keys_after_rename specs_root (map fpath (files (disk w))) (heap w) nr new_token
              Hnd Hsync Hlt Hdig) as (Hsrc & Hscan & _).
  fold newest in Hsrc, Hscan.
  assert (scan_path specs_root new_path = [(new_path, prefix newest, new_token, tail newest)])
    as Hscan'.
  { apply (scan_path_renamed specs_root (path newest) (prefix newest) (token newest));
      [|exact Hdig]. rewrite Hscan. left. reflexivity. }
  split; [|split].
  - apply List.in_map_iff in Hsrc as (f & Ef & Hf).
    destruct (find_file_of_in _ _ Hf) as [f0 Hf0]. rewrite Ef in Hf0.
    exists f0. split; [exact Hf0|].
    destruct (find_file_some _ _ _ Hf0) as [_ ->]. rewrite Hscan. discriminate.
  - unfold Fs.is_dir. destruct (existsb _ (dirs (disk w))) eqn:Ed; [exfalso|reflexivity].
    apply List.existsb_exists in Ed as (d & Hd & Ed). apply path_eqb_eq in Ed. subst d.
    specialize (Hdirs _ Hd).
    assert (PurePath.name new_path
            = make_file_name (prefix newest) new_token (tail newest)) as En
        by (unfold PurePath.name, new_path, PurePath.with_name; apply last_last).
    rewrite En, make_file_name_md in Hdirs. discriminate.
  - unfold Fs.is_file. destruct (Fs.find_file (disk w) new_path) as [g|] eqn:Eg;
      [exfalso|reflexivity].
    destruct (find_file_some _ _ _ Eg) as [Hg Hpg].
    assert (List.In (new_path, prefix newest, new_token, tail newest)
              (map record_key (heap w))) as Hk.
    { rewrite <- Hsync. apply List.in_flat_map. exists new_path.
      split; [rewrite <- Hpg; apply List.in_map, Hg|rewrite Hscan'; left; reflexivity]. }
    apply List.in_map_iff in Hk as (s2 & Ek & Hs2).
    injection Ek as _ Epre Etok _.
    destruct (heap_lookup_obj _ _ Hs2) as (r2 & Hr2 & Eo).
    apply (next_numeric_token_fresh (view (heap w) scoped) width s2); [|exact Etok].
    rewrite <- Eo. unfold view. apply List.in_map. rewrite Hscoped.
    apply scoped_refs_in. split; [exact Hr2|]. rewrite Eo. congruence.
Qed.

(** X7. When a conflict is resolved on a well-formed disk with the
    records in step, the document to move is a file on the disk and the
    path it is to be moved to names nothing, neither a file nor a
    directory: the move overwrites nothing.  The new path differs from
    the old one and lies in the same directory. *)
Theorem rename_target_is_free (specs_root : Path) (pre : string)
    (first second : nat) (rest : list nat) (width : nat) (w : World) :
  wf_disk (disk w) -> in_sync specs_root w ->
  (forall r, List.In r (first :: second :: rest) ->
             List.In r (scoped_refs (heap w) pre)) ->
  let newest := obj (heap w) (max_by_key (heap w) first (second :: rest)) in
  let new_token := next_numeric_token (view (heap w) (scoped_refs (heap w) pre)) width in
  let new_path :=
    PurePath.with_name (path newest)
      (make_file_name (prefix newest) new_token (tail newest)) in
  Fs.is_file (disk w) (path newest) = true
  /\ Fs.exists_ (disk w) new_path = false
  /\ new_path <> path newest
  /\ PurePath.parent new_path = PurePath.parent (path newest).
Proof.
  intros Hwf Hs Hd newest new_token new_path.
  destruct (rename_preconditions specs_root pre (scoped_refs (heap w) pre) width
              first second rest w Hwf Hs eq_refl Hd) as ((f0 & Hf0 & _) & Hdir & Hfile).
  fold newest in Hf0, Hdir, Hfile. fold new_token in Hdir, Hfile.
  fold new_path in Hdir, Hfile.
  assert (Fs.is_file (disk w) (path newest) = true) as Hsrc
      by (unfold Fs.is_file; now rewrite Hf0).
  split; [exact Hsrc|]. split; [unfold Fs.exists_; now rewrite Hdir, Hfile|].
  split; [intros E; rewrite E in Hfile; congruence|].
  unfold new_path, PurePath.parent, PurePath.with_name. apply removelast_last.
Qed.

Lemma resolve_group_apply_places (root specs_root : Path) (pre : string)
    (scoped : list nat) (width cc : nat) (tok : string) (first second : nat)
    (rest : list nat) (w : World) :
  wf_disk (disk w) -> in_sync specs_root w -> specs_text specs_root (disk w) ->
  scoped = scoped_refs (heap w) pre ->
  (forall r, List.In r (first :: second :: rest) -> List.In r scoped) ->
  exists w',
    resolve_group root pre false scoped width cc (tok, first :: second :: rest) w
    = (w', inr (S cc))
    /\ evolves specs_root w w'
    /\ scoped = scoped_refs (heap w') pre
    /\ map (fun f => PurePath.parent (fpath f)) (files (disk w'))
       = map (fun f => PurePath.parent (fpath f)) (files (disk w)).
Proof.
  intros Hwf Hs Ht Hsc Hd.
  destruct (resolve_group_apply_in_sync root specs_root pre scoped width cc tok
              first second rest w Hwf Hs Ht Hsc Hd) as (w' & E & Hev & Hsc').
  exists w'. split; [exact E|]. split; [exact Hev|]. split; [exact Hsc'|].
  destruct (rename_preconditions specs_root pre scoped width first second rest w
              Hwf Hs Hsc Hd) as ((f0 & Hf0 & Hscan) & Hdir & Hfile).
  destruct (find_file_some _ _ _ Hf0) as [Hin0 _].
  destruct (Ht f0 Hin0 Hscan) as [c0 Hc0].
  destruct (resolve_group_apply root pre scoped width cc tok first second rest w f0 c0
              (proj1 Hwf) Hf0 Hc0 Hdir Hfile) as (w'' & E' & Hfiles & _).
  rewrite E in E'. injection E' as <-.
  transitivity (map (fun pd => PurePath.parent (fst pd))
                  (map path_and_data (files (disk w')))).
  { rewrite map_map. reflexivity. }
  rewrite Hfiles, map_map. apply List.map_ext. intros f. unfold resolved_file.
  destruct (PurePath.eqb (fpath f) _) eqn:Ep; [|reflexivity].
  apply path_eqb_eq in Ep. rewrite Ep. cbn [fst].
  unfold PurePath.parent, PurePath.with_name. apply removelast_last.
Qed.

Lemma for_each_apply_places (root specs_root : Path) (pre : string)
    (scoped : list nat) (width : nat) (items : list (string * list nat)) :
  (forall t d, List.In (t, d) items -> forall r, List.In r d -> List.In r scoped) ->
  forall (cc : nat) (w : World),
    wf_disk (disk w) -> in_sync specs_root w -> specs_text specs_root (disk w) ->
    scoped = scoped_refs (heap w) pre ->
    exists w' n,
      for_each items cc (resolve_group root pre false scoped width) w = (w', inr n)
      /\ evolves specs_root w w'
      /\ map (fun f => PurePath.parent (fpath f)) (files (disk w'))
         = map (fun f => PurePath.parent (fpath f)) (files (disk w)).
Proof.
  induction items as [|[t d] items IH]; intros Hin cc w Hwf Hs Ht Hsc.
  - exists w, cc. split; [reflexivity|]. split; [|reflexivity].
    apply evolves_refl; assumption.
  - assert (forall t' d', List.In (t', d') items ->
                          forall r, List.In r d' -> List.In r scoped) as Hin'
        by (intros t' d' H; apply (Hin t' d'); right; exact H).
    cbn [for_each]. unfold bind at 1.
    destruct d as [|a [|b rest]].
    + cbn. apply IH; assumption.
    + cbn. apply IH; assumption.
    + destruct (resolve_group_apply_places root specs_root pre scoped width cc t a b rest w
                  Hwf Hs Ht Hsc (Hin t _ (or_introl eq_refl)))
        as (w1 & E1 & Hev & Hsc1 & Hp1).
      rewrite E1.
      pose proof Hev as (Hwf1 & Hs1 & _ & Ht1 & _).
      destruct (IH Hin' (S cc) w1 Hwf1 Hs1 (Ht1 _ Ht) Hsc1) as (w' & n & E & Hev' & Hp').
      exists w', n. split; [exact E|]. split; [eapply evolves_trans; eassumption|].
      congruence.
Qed.

(** X8. A pass in apply mode over a family, on a well-formed disk whose
    documents decode and with the records in step, returns; afterwards
    a scan of the disk finds the records as they are in memory (path,
    prefix, token and tail, in the same order), each path still names
    one file, every file is in the directory it was in, the directories
    are the same and the documents of the registry still decode. *)
Theorem apply_pass_keeps_disk_in_step (root specs_root : Path) (pre : string) (w : World) :
  wf_disk (disk w) -> in_sync specs_root w -> specs_text specs_root (disk w) ->
  exists w' n,
    resolve_conflicts_for_prefix root pre false w = (w', inr n)
    /\ map record_key (iter_spec_files (disk w') specs_root) = map record_key (heap w')
    /\ List.NoDup (map fpath (files (disk w')))
    /\ map (fun f => PurePath.parent (fpath f)) (files (disk w'))
       = map (fun f => PurePath.parent (fpath f)) (files (disk w))
    /\ dirs (disk w') = dirs (disk w)
    /\ specs_text specs_root (disk w').
Proof.
  intros Hwf Hs Ht.
  destruct (for_each_apply_places root specs_root pre (scoped_refs (heap w) pre)
              (family_width (view (heap w) (scoped_refs (heap w) pre)))
              (family_items (heap w) pre)) with (cc := 0%nat) (w := w)
    as (w' & n & E & (Hwf' & Hs' & Hd' & Ht' & _) & Hp); try assumption.
  - intros t d Hin. apply (family_items_scoped (heap w) pre (t, d) Hin).
  - reflexivity.
  - exists w', n. split; [exact E|]. split; [exact Hs'|]. split; [apply Hwf'|].
    split; [exact Hp|]. split; [exact Hd'|]. apply Ht', Ht.
Qed.

(** ** The walk of the repository *)

Lemma walk_step (root : Path) (old new : string) (dry : bool) (now : Q) (f : File)
    (c : nat) :
  (if walked root f then visit_file old new dry now f c else (f, c))
  = (if rewritten root old new f && negb dry then rewrite_file old new now f else f,
     if rewritten root old new f then S c else c).
Proof.
  unfold rewritten, is_scanned_text, visit_file, rewrite_file, substitute.
  destruct (walked root f); [|reflexivity]. cbn [andb].
  destruct (str_in _ TEXT_EXTENSIONS); [|reflexivity]. cbn [negb andb].
  destruct (fdata f) as [content|raw]; cbn [decode]; [|reflexivity].
  destruct (String.eqb _ content); cbn [negb andb]; [reflexivity|].
  destruct dry; reflexivity.
Qed.

Lemma walk_files_spec (root : Path) (old new : string) (dry : bool) (now : Q)
    (fl : list File) (c : nat) :
  walk_files root old new dry now fl c
  = (map (fun f => if rewritten root old new f && negb dry
                   then rewrite_file old new now f else f) fl,
     (c + length (List.filter (rewritten root old new) fl))%nat).
Proof.
  revert c. induction fl as [|f fl IH]; intros c.
  - cbn. f_equal. lia.
  - cbn [walk_files]. rewrite walk_step.
    rewrite IH. cbn [map List.filter].
    destruct (rewritten root old new f); cbn [length]; f_equal; lia.
Qed.

Lemma replace_go_skip (old new : string) (k : nat) (s : string) :
  Py.replace_go old new k s = Py.replace_go old new 0 (Py.drop k s).
Proof.
  revert k. induction s as [|c s IH]; intros k.
  - destruct k; reflexivity.
  - destruct k as [|k]; [reflexivity|]. cbn [Py.replace_go Py.drop]. apply IH.
Qed.

Lemma drop_length_le (k : nat) (s : string) :
  (String.length (Py.drop k s) <= String.length s)%nat.
Proof.
  revert s. induction k as [|k IH]; intros s; [destruct s; cbn; lia|].
  destruct s as [|c s]; cbn; [lia|]. specialize (IH s). lia.
Qed.

(** Replacing a string by itself changes nothing. *)
Lemma replace_same (old c : string) : Py.replace old old c = c.
Proof.
  unfold Py.replace. destruct old as [|a old'].
  - induction c as [|x c IH]; [reflexivity|]. cbn. now rewrite IH.
  - remember (String.length c) as n eqn:En. revert c En.
    induction n as [n IH] using lt_wf_ind. intros c En.
    destruct c as [|x c]; [reflexivity|].
    cbn [Py.replace_go].
    destruct (Py.startswith (String x c) (String a old')) eqn:Es.
    + rewrite replace_go_skip. cbn [String.length].
      replace (S (String.length old') - 1)%nat with (String.length old') by lia.
      pose proof (startswith_eq _ _ Es) as E. cbn [String.length Py.drop] in E.
      rewrite (IH (String.length (Py.drop (String.length old') c))) by
        (try reflexivity; subst n; cbn [String.length];
         pose proof (drop_length_le (String.length old') c); lia).
      symmetry. exact E.
    + f_equal. apply (IH (String.length c)); [subst n; cbn; lia|reflexivity].
Qed.

Lemma rewritten_true (root : Path) (old new : string) (f : File) :
  rewritten root old new f = true ->
  walked root f = true
  /\ str_in (Py.lower (PurePath.suffix (fpath f))) TEXT_EXTENSIONS = true
  /\ old <> new
  /\ exists c, fdata f = Text c /\ Py.contains old c = true.
Proof.
  unfold rewritten, is_scanned_text. intros H.
  apply andb_true_iff in H as [H Hc]. apply andb_true_iff in H as [Hw He].
  destruct (fdata f) as [c|raw]; [|discriminate].
  apply negb_true_iff, String.eqb_neq in Hc.
  split; [exact Hw|]. split; [exact He|]. split.
  - intros ->. apply Hc, replace_same.
  - exists c. split; [reflexivity|].
    destruct (Py.contains old c) eqn:E; [reflexivity|].
    exfalso. apply Hc, replace_absent, E.
Qed.

(** X9. [replace_in_text_files] never raises.  It returns the number of
    files that the walk reaches with a text extension, that decode and
    whose content the substitution changes, the same number in both
    modes; in apply mode these files, and no others, receive the
    substituted content and the time of the write, and in a dry run
    every file stays as it is.  Such a file is not below a skipped
    directory, and the old name occurs in it and differs from the new
    one. *)
Theorem replace_in_text_files_spec (root : Path) (old new : string) (dry : bool)
    (w : World) :
  replace_in_text_files root old new dry w
  = ({| heap := heap w;
        disk := {| dirs := dirs (disk w);
                   files := map (fun f => if rewritten root old new f && negb dry
                                          then rewrite_file old new (clock (disk w)) f
                                          else f) (files (disk w));
                   clock := clock (disk w);
                   dir_mtime := dir_mtime (disk w) |};
        out := out w |},
     inr (length (List.filter (rewritten root old new) (files (disk w)))))
  /\ forall f,
       rewritten root old new f = true ->
       walked root f = true
       /\ str_in (Py.lower (PurePath.suffix (fpath f))) TEXT_EXTENSIONS = true
       /\ old <> new
       /\ exists c, fdata f = Text c /\ Py.contains old c = true.
Proof.
  split; [|apply rewritten_true].
  rewrite replace_in_text_files_run, walk_files_spec. reflexivity.
Qed.

(** ** The identifier inside the renamed document *)

Lemma find_file_write_same (fs : FS) (p : Path) (s : string) (f : File) :
  Fs.find_file fs p = Some f ->
  List.find (fun g => PurePath.eqb (fpath g) p) (map (Fs.write_file (clock fs) p s) (files fs))
  = Some {| fpath := fpath f; fdata := Text s; fmtime := clock fs |}.
Proof.
  unfold Fs.find_file. induction (files fs) as [|g fl IH]; [discriminate|].
  cbn [List.find map].
  assert (fpath (Fs.write_file (clock fs) p s g) = fpath g) as Ep
      by (unfold Fs.write_file; destruct (PurePath.eqb (fpath g) p); reflexivity).
  rewrite Ep. destruct (PurePath.eqb (fpath g) p) eqn:E.
  - intros H. injection H as <-. unfold Fs.write_file. now rewrite E.
  - exact IH.
Qed.

Lemma find_file_write_other (fs : FS) (p q : Path) (s : string) :
  q <> p ->
  List.find (fun g => PurePath.eqb (fpath g) q) (map (Fs.write_file (clock fs) p s) (files fs))
  = Fs.find_file fs q.
Proof.
  intros Hne. unfold Fs.find_file. induction (files fs) as [|g fl IH]; [reflexivity|].
  cbn [List.find map].
  assert (fpath (Fs.write_file (clock fs) p s g) = fpath g) as Ep
      by (unfold Fs.write_file; destruct (PurePath.eqb (fpath g) p); reflexivity).
  rewrite Ep. destruct (PurePath.eqb (fpath g) q) eqn:E; [|exact IH].
  unfold Fs.write_file.
  assert (PurePath.eqb (fpath g) p = false) as ->; [|reflexivity].
  destruct (PurePath.eqb (fpath g) p) eqn:E'; [|reflexivity].
  apply path_eqb_eq in E, E'. congruence.
Qed.

(** X10. [replace_in_file]: on a path that names no file it raises
    [FileNotFoundError], or [IsADirectoryError] for a directory, and on
    a file that does not decode [UnicodeDecodeError], each time leaving
    everything as it was.  On a text file it returns whether the
    substitution changes the content, the same answer in both modes; in
    a dry run, or when nothing changes, nothing is written; otherwise
    the file reads as the substituted content afterwards and every
    other path names what it named. *)
Theorem replace_in_file_spec (p : Path) (old new : string) (dry : bool) (w : World) :
  (Fs.find_file (disk w) p = None ->
   replace_in_file p old new dry w
   = (w, inl (if Fs.is_dir (disk w) p then IsADirectoryError else FileNotFoundError)))
  /\ (forall f raw,
        Fs.find_file (disk w) p = Some f -> fdata f = Undecodable raw ->
        replace_in_file p old new dry w = (w, inl UnicodeDecodeError))
  /\ (forall f c,
        Fs.find_file (disk w) p = Some f -> fdata f = Text c ->
        exists w',
          replace_in_file p old new dry w
          = (w', inr (negb (String.eqb (Py.replace old new c) c)))
          /\ heap w' = heap w /\ out w' = out w
          /\ map fpath (files (disk w')) = map fpath (files (disk w))
          /\ dirs (disk w') = dirs (disk w)
          /\ (dry = true \/ Py.replace old new c = c -> w' = w)
          /\ (dry = false ->
              Fs.read_text (disk w') p = inr (Py.replace old new c)
              /\ forall q, q <> p -> Fs.find_file (disk w') q = Fs.find_file (disk w) q)).
Proof.
  unfold replace_in_file, read_text, io, bind. cbn [fst snd]. unfold Fs.read_text.
  split; [|split].
  - intros ->. destruct (Fs.is_dir (disk w) p); reflexivity.
  - intros f raw -> ->. reflexivity.
  - intros f c Hf Hc. rewrite Hf, Hc. cbn [decode].
    destruct (String.eqb (Py.replace old new c) c) eqn:E.
    + exists w. cbn [negb]. do 6 (split; [reflexivity|]).
      intros _. split; [|reflexivity].
      rewrite Hf, Hc. cbn [decode]. apply String.eqb_eq in E. now rewrite E.
    + cbn [negb]. destruct dry; cbn [negb when].
      * exists w. do 6 (split; [reflexivity|]). discriminate.
      * unfold write_text, io, bind, put_disk, ret. unfold Fs.write_text.
        assert (Fs.is_file (disk w) p = true) as -> by (unfold Fs.is_file; now rewrite Hf).
        eexists. split; [reflexivity|]. cbn [heap out disk files dirs].
        split; [reflexivity|]. split; [reflexivity|]. split.
        { rewrite map_map. apply List.map_ext. intros g. unfold Fs.write_file.
          destruct (PurePath.eqb (fpath g) p); reflexivity. }
        split; [reflexivity|]. split.
        { intros [H|H]; [discriminate|]. apply String.eqb_neq in E. contradiction. }
        intros _. split.
        { unfold Fs.find_file. cbn [files].
          rewrite (find_file_write_same (disk w) p _ f Hf). reflexivity. }
        intros q Hq. unfold Fs.find_file at 1. cbn [files].
        apply find_file_write_other, Hq.
Qed.

(** ** The count in the summary *)

Lemma updated_line_no_conflict (line : string) :
  is_updated_line line = true -> is_conflict_line line = false.
Proof.
  unfold is_updated_line, is_conflict_line. destruct line as [|c r]; [discriminate|].
  cbn [Py.startswith]. intros H. apply andb_true_iff in H as [H _].
  apply Ascii.eqb_eq in H. subst c. reflexivity.
Qed.

Lemma conflict_lines_report (l : list string) :
  List.filter is_conflict_line (report_lines l) = List.filter is_conflict_line l.
Proof.
  unfold report_lines. induction l as [|x l IH]; [reflexivity|].
  cbn [List.filter]. destruct (is_updated_line x) eqn:E; cbn [negb List.filter].
  - rewrite (updated_line_no_conflict x E). exact IH.
  - destruct (is_conflict_line x); now rewrite IH.
Qed.

Lemma conflict_lines_announce (pre : string) (scoped : list nat) (width : nat)
    (items : list (string * list nat)) (store : list SpecFile) :
  length (List.filter is_conflict_line (announce_all pre scoped width items store))
  = count_conflicts items.
Proof.
  revert store. induction items as [|item items IH]; intros store; [reflexivity|].
  cbn [announce_all]. rewrite List.filter_app, length_app, IH.
  unfold count_conflicts. cbn [List.filter]. unfold announce_group, is_conflict.
  destruct (snd item) as [|a [|b l]]; reflexivity.
Qed.

Lemma scan_root_conflict_lines (root : Path) (dry : bool) (total : nat)
    (specs_root : Path) (w w' : World) (n : nat) :
  scan_root root dry total specs_root w = (w', inr n) ->
  (length (List.filter is_conflict_line (out w')) + total
   = length (List.filter is_conflict_line (out w)) + n)%nat.
Proof.
  intros E. apply scan_root_returns in E. cbv zeta in E.
  rewrite <- (conflict_lines_report (out w')), <- (conflict_lines_report (out w)).
  destruct E as [(_ & -> & _ & ->)|(_ & _ & -> & ->)].
  - rewrite List.filter_app, length_app. cbn. lia.
  - rewrite !List.filter_app, !length_app.
    unfold announce_family. rewrite !conflict_lines_announce.
    unfold family_items. cbn. lia.
Qed.

Lemma for_each_scan_root_conflict_lines (root : Path) (dry : bool) (roots : list Path) :
  forall (total : nat) (w w' : World) (n : nat),
    for_each roots total (scan_root root dry) w = (w', inr n) ->
    (length (List.filter is_conflict_line (out w')) + total
     = length (List.filter is_conflict_line (out w)) + n)%nat.
Proof.
  induction roots as [|r roots IH]; intros total w w' n E.
  - cbn in E. injection E as <- <-. reflexivity.
  - cbn [for_each] in E. unfold bind at 1 in E.
    destruct (scan_root root dry total r w) as [w1 [e|n1]] eqn:E1; [discriminate|].
    apply scan_root_conflict_lines in E1. apply IH in E. lia.
Qed.

(** X11. The number in the summary is the number of conflict lines
    printed: a run that exits with status 0 ends its output with the
    summary line of a total that equals the number of lines starting
    with [Conflict ] before it, and the last line is [No spec number
    conflicts found.] exactly when that number is 0. *)
Theorem summary_counts_conflict_lines (fs : FS) (repo_root : Path) (apply : bool)
    (w : World) :
  run fs repo_root apply = (w, inr 0%nat) ->
  exists lines total,
    out w = lines ++ [summary_line total (negb apply)]
    /\ total = length (List.filter is_conflict_line lines)
    /\ (total = 0%nat <-> List.last (out w) "" = no_conflicts_line).
Proof.
  unfold run, main. unfold bind at 1. unfold get_disk at 1. cbn [disk].
  destruct (find_specs_root fs repo_root) as [|r roots]; [intros E; discriminate E|].
  unfold bind at 1.
  destruct (for_each (r :: roots) 0%nat (scan_root repo_root (negb apply)) _)
    as [w1 [e|total]] eqn:E1; [discriminate|].
  apply for_each_scan_root_conflict_lines in E1. cbn [out List.filter length] in E1.
  intros E. exists (out w1), total.
  assert (out w = out w1 ++ [summary_line total (negb apply)]) as Eo.
  { unfold summary_line. unfold bind in E.
    destruct (total =? 0)%nat; cbn in E; injection E as <-; reflexivity. }
  split; [exact Eo|]. split; [lia|].
  rewrite Eo, last_last. unfold summary_line.
  destruct (Nat.eqb_spec total 0) as [->|Hne]; [tauto|].
  split; [contradiction|]. intros H. exfalso. revert H.
  unfold resolved_line, no_conflicts_line. cbn. discriminate.
Qed.

(** ** A registry without conflicts *)

Lemma scan_root_clean (root : Path) (dry : bool) (total : nat) (specs_root : Path)
    (w : World) :
  (forall pre, pre = OSS_PREFIX \/ pre = ENT_PREFIX ->
     (max_group_size (family_tokens (iter_spec_files (disk w) specs_root) pre) <= 1)%nat) ->
  scan_root root dry total specs_root w
  = ({| heap := iter_spec_files (disk w) specs_root; disk := disk w;
        out := out w ++ [registry_line (disk w) specs_root] |}, inr total).
Proof.
  intros H. unfold registry_line.
  destruct (iter_spec_files (disk w) specs_root) as [|s0 l] eqn:Es.
  - unfold scan_root. unfold bind at 1. unfold get_disk at 1. rewrite Es. reflexivity.
  - rewrite scan_root_nonempty by (rewrite Es; discriminate). rewrite Es.
    unfold bind at 1. unfold print at 1. cbn [heap disk out].
    unfold bind at 1. rewrite resolve_no_conflict by (apply H; auto).
    unfold bind at 1. rewrite resolve_no_conflict by (apply H; auto).
    unfold ret. f_equal. f_equal. lia.
Qed.

Lemma for_each_scan_root_clean (root : Path) (dry : bool) (roots : list Path) :
  forall (total : nat) (w : World),
    roots <> [] ->
    (forall r pre, List.In r roots -> pre = OSS_PREFIX \/ pre = ENT_PREFIX ->
       (max_group_size (family_tokens (iter_spec_files (disk w) r) pre) <= 1)%nat) ->
    for_each roots total (scan_root root dry) w
    = ({| heap := iter_spec_files (disk w) (List.last roots []); disk := disk w;
          out := out w ++ map (registry_line (disk w)) roots |}, inr total).
Proof.
  induction roots as [|r roots IH]; intros total w Hne H; [congruence|].
  cbn [for_each]. unfold bind at 1.
  rewrite scan_root_clean by (intros pre Hp; apply H; [left; reflexivity|exact Hp]).
  destruct roots as [|r' roots'].
  - cbn. reflexivity.
  - rewrite IH; [|discriminate|intros r0 pre Hr Hp; cbn [disk]; apply H; [right; exact Hr|exact Hp]].
    cbn [disk out heap]. rewrite <- app_assoc. reflexivity.
Qed.

(** X12. On a repository with a registry root in which no two documents
    of a family share a token, a run in either mode exits with status
    0, leaves the disk as it is, also with [--apply], and prints one
    line per registry root followed by [No spec number conflicts
    found.]. *)
Theorem clean_registry_is_left_alone (fs : FS) (repo_root : Path) (apply : bool) :
  find_specs_root fs repo_root <> [] ->
  (forall r pre, List.In r (find_specs_root fs repo_root) ->
     pre = OSS_PREFIX \/ pre = ENT_PREFIX ->
     (max_group_size (family_tokens (iter_spec_files fs r) pre) <= 1)%nat) ->
  run fs repo_root apply
  = ({| heap := iter_spec_files fs (List.last (find_specs_root fs repo_root) []);
        disk := fs;
        out := map (registry_line fs) (find_specs_root fs repo_root)
                 ++ [no_conflicts_line] |}, inr 0%nat).
Proof.
  intros Hne H. unfold run, main. unfold bind at 1. unfold get_disk at 1. cbn [disk].
  destruct (find_specs_root fs repo_root) as [|r roots] eqn:Er; [congruence|].
  unfold bind at 1. rewrite for_each_scan_root_clean by (cbn [disk]; assumption).
  reflexivity.
Qed.

(** ** A preview that runs to its end *)

Lemma resolve_group_dry (root : Path) (pre : string)
    (scoped : list nat) (width cc : nat) (tok : string) (first second : nat)
    (rest : list nat) (w : World) (f : File) (c : string) :
  let newest := obj (heap w) (max_by_key (heap w) first (second :: rest)) in
  Fs.find_file (disk w) (path newest) = Some f ->
  fdata f = Text c ->
  exists w',
    resolve_group root pre true scoped width cc (tok, first :: second :: rest) w
    = (w', inr (S cc))
    /\ heap w' = renumber_group scoped width (heap w) (tok, first :: second :: rest)
    /\ disk w' = disk w.
Proof.
  intros newest Hf Hc.
  destruct (resolve_group_conflict root pre true scoped width cc tok first second rest w)
    as (d' & extra & res & E & _ & _ & Hd).
  assert (exists w', resolve_group root pre true scoped width cc
                       (tok, first :: second :: rest) w = (w', inr (S cc))) as [w' E'].
  { unfold resolve_group. unfold bind at 1. unfold get_heap at 1. fold newest.
    unfold bind at 1. unfold print at 1. unfold bind at 1.
    rewrite replace_in_text_files_run. cbn [heap disk out].
    rewrite walk_files_dry, fs_eta.
    unfold bind at 1. unfold print at 1. cbn [heap disk out].
    unfold bind at 1. unfold replace_in_file. unfold bind at 1.
    unfold read_text, io. cbn [disk]. unfold Fs.read_text. rewrite Hf, Hc. cbn [decode].
    destruct (String.eqb _ c); cbn; eexists; reflexivity. }
  exists w'. split; [exact E'|]. rewrite E' in E. injection E as -> <-.
  cbn [heap disk]. split; [reflexivity|]. apply Hd. reflexivity.
Qed.

Lemma for_each_dry_returns (root : Path) (pre : string) (store0 : list SpecFile)
    (scoped : list nat) (width : nat) (fs : FS) :
  List.NoDup scoped ->
  (forall r, List.In r scoped -> (r < length store0)%nat) ->
  (forall r, List.In r scoped ->
     exists f c, Fs.find_file fs (path (obj store0 r)) = Some f /\ fdata f = Text c) ->
  forall (items : list (string * list nat)) (cc : nat) (w : World),
    disk w = fs ->
    loop_inv store0 scoped (heap w) items ->
    exists w',
      for_each items cc (resolve_group root pre true scoped width) w
      = (w', inr (cc + count_conflicts items)%nat)
      /\ disk w' = fs.
Proof.
  intros Hnd Hrange Hread.
  induction items as [|[t d] items IH]; intros cc w Hdisk Hinv.
  - exists w. split; [|exact Hdisk].
    replace (cc + count_conflicts [])%nat with cc by (unfold count_conflicts; cbn; lia).
    reflexivity.
  - cbn [for_each]. unfold bind at 1.
    destruct (is_conflict (t, d)) eqn:Ec.
    + assert (count_conflicts ((t, d) :: items) = S (count_conflicts items)) as ->
          by (unfold count_conflicts; cbn [List.filter]; rewrite Ec; reflexivity).
      pose proof Hinv as (_ & Hobj & _ & Hrem & _).
      destruct (Hrem t d (or_introl eq_refl)) as (Ed & _ & Hcount).
      destruct d as [|first [|second rest]]; try discriminate Ec.
      set (nr := max_by_key (heap w) first (second :: rest)).
      assert (List.In nr (first :: second :: rest)) as Hnr by apply max_by_key_in.
      assert (List.In nr scoped /\ token (obj (heap w) nr) = t) as [Hs Htok].
      { rewrite Ed in Hnr. apply List.filter_In in Hnr as [Hs Ht].
        apply String.eqb_eq in Ht. auto. }
      assert (obj (heap w) nr = obj store0 nr) as Esame.
      { destruct (Hobj nr) as [E|(_ & _ & _ & _ & _ & Hzero & _)]; [exact E|exfalso].
        rewrite Htok, <- Hcount in Hzero.
        assert (2 <= group_count scoped (heap w) t)%nat; [|lia].
        unfold group_count, members. rewrite <- Ed. cbn. lia. }
      destruct (Hread nr Hs) as (f & c & Hf & Hc).
      destruct (resolve_group_dry root pre scoped width cc t first second rest w f c)
        as (w1 & E1 & Hh1 & Hd1).
      { fold nr. rewrite Esame, Hdisk. exact Hf. }
      { exact Hc. }
      rewrite E1.
      destruct (IH (S cc) w1) as (w' & E & Hd').
      { congruence. }
      { rewrite Hh1. apply (loop_inv_conflict store0 scoped width Hnd Hrange); assumption. }
      exists w'. split; [|exact Hd']. rewrite E.
      replace (S cc + count_conflicts items)%nat with (cc + S (count_conflicts items))%nat
        by lia.
      reflexivity.
    + assert (count_conflicts ((t, d) :: items) = count_conflicts items) as ->
          by (unfold count_conflicts; cbn [List.filter]; rewrite Ec; reflexivity).
      destruct (resolve_group_skip root pre true scoped width cc (t, d) w Ec) as (-> & _).
      apply IH; [exact Hdisk|].
      eapply (loop_inv_skip store0 scoped); eassumption.
Qed.

Lemma resolve_dry_returns (root : Path) (pre : string) (w : World) :
  (forall r, List.In r (scoped_refs (heap w) pre) ->
     exists f c, Fs.find_file (disk w) (path (obj (heap w) r)) = Some f
                 /\ fdata f = Text c) ->
  exists w',
    resolve_conflicts_for_prefix root pre true w
    = (w', inr (count_conflicts (family_items (heap w) pre)))
    /\ disk w' = disk w.
Proof.
  intros H. unfold resolve_conflicts_for_prefix, bind at 1, get_heap at 1.
  apply (for_each_dry_returns root pre (heap w) (scoped_refs (heap w) pre) _ (disk w)).
  - apply scoped_refs_NoDup.
  - intros r Hr. apply scoped_refs_in in Hr. tauto.
  - exact H.
  - reflexivity.
  - apply loop_inv_start, family_items_groups.
Qed.

Lemma obj_in (store : list SpecFile) (r : nat) :
  (r < length store)%nat -> List.In (obj store r) store.
Proof.
  intros H. apply list_elem_of_In. unfold obj.
  apply list_elem_of_lookup_total_2. exact H.
Qed.

Lemma scanned_record_readable (fs : FS) (specs_root : Path) (s : SpecFile) :
  specs_are_files specs_root fs ->
  specs_text specs_root fs ->
  List.In s (iter_spec_files fs specs_root) ->
  exists f c, Fs.find_file fs (path s) = Some f /\ fdata f = Text c.
Proof.
  intros Hfiles Ht Hs.
  assert (List.In (record_key s) (map record_key (iter_spec_files fs specs_root))) as Hk
      by (apply List.in_map, Hs).
  rewrite iter_spec_files_entries in Hk. apply List.in_flat_map in Hk as (p & Hp & Hk).
  destruct (scan_path_in _ _ _ Hk) as (c0 & rel & pre & tok & tl & Ek & Hscan & _).
  unfold record_key in Ek. injection Ek as Epath _ _ _.
  apply List.in_map_iff in Hp as (e & Ee & He).
  apply entries_in in He as [(g & Hg & ->)|(d & Hd & ->)].
  - cbn in Ee.
    destruct (find_file_of_in _ _ Hg) as [f Hf]. rewrite Ee, <- Epath in Hf.
    destruct (find_file_some _ _ _ Hf) as [Hin Hfp].
    destruct (Ht f Hin) as [c Hc]; [rewrite Hfp, Epath, Hscan; discriminate|].
    eauto.
  - cbn in Ee. subst d. rewrite (Hfiles p Hd) in Hk. destruct Hk.
Qed.

Lemma scan_root_dry_returns (root : Path) (total : nat) (specs_root : Path) (w : World) :
  specs_are_files specs_root (disk w) ->
  specs_text specs_root (disk w) ->
  exists w' n,
    scan_root root true total specs_root w = (w', inr n) /\ disk w' = disk w.
Proof.
  intros Hfiles Ht.
  destruct (iter_spec_files (disk w) specs_root) as [|s0 l] eqn:Es.
  - eexists _, total. split.
    { unfold scan_root. unfold bind at 1. unfold get_disk at 1. rewrite Es. reflexivity. }
    reflexivity.
  - rewrite scan_root_nonempty by (rewrite Es; discriminate).
    unfold bind at 1. unfold print at 1. cbn [heap disk out].
    set (specs := iter_spec_files (disk w) specs_root).
    set (w0 := {| heap := specs; disk := disk w;
                  out := out w ++ [scanning_line specs_root] |}).
    assert (forall r, (r < length specs)%nat ->
              exists f c, Fs.find_file (disk w) (path (obj specs r)) = Some f
                          /\ fdata f = Text c) as Hread.
    { intros r Hr.
      apply (scanned_record_readable (disk w) specs_root); [exact Hfiles|exact Ht|].
      apply obj_in, Hr. }
    destruct (resolve_dry_returns root OSS_PREFIX w0) as (w1 & E1 & Hd1).
    { intros r Hr. apply scoped_refs_in in Hr as [Hr _]. apply Hread, Hr. }
    destruct (resolve_dry_returns root ENT_PREFIX w1) as (w2 & E2 & Hd2).
    { intros r Hr. apply scoped_refs_in in Hr as [Hr Hp].
      pose proof E1 as Eh. apply resolve_returns in Eh as (Hh & _).
      change (heap w0) with specs in Hh.
      destruct (renumber_family_inv OSS_PREFIX specs) as (Hlen & Hobj & _).
      rewrite Hh in Hr, Hp |- *. rewrite Hd1. cbn [disk].
      destruct (Hobj r) as [E|(Hin & Hpre & _)].
      - rewrite E. apply Hread. now rewrite <- Hlen.
      - exfalso. apply scoped_refs_in in Hin as [_ Hin]. rewrite Hpre, Hin in Hp.
        discriminate Hp. }
    eexists w2, _. split.
    { unfold bind at 1. rewrite E1. unfold bind at 1. rewrite E2. reflexivity. }
    rewrite Hd2, Hd1. reflexivity.
Qed.

Lemma for_each_scan_root_dry (root : Path) (roots : list Path) :
  forall (total : nat) (w : World),
    (forall r, List.In r roots -> specs_are_files r (disk w)) ->
    (forall r, List.In r roots -> specs_text r (disk w)) ->
    exists w' n,
      for_each roots total (scan_root root true) w = (w', inr n) /\ disk w' = disk w.
Proof.
  induction roots as [|r roots IH]; intros total w Hf Ht.
  - exists w, total. split; reflexivity.
  - destruct (scan_root_dry_returns root total r w (Hf r (or_introl eq_refl))
                (Ht r (or_introl eq_refl)))
      as (w1 & n1 & E1 & Hd1).
    destruct (IH n1 w1) as (w' & n & E & Hd).
    { intros r' Hr'. rewrite Hd1. apply Hf. right. exact Hr'. }
    { intros r' Hr'. rewrite Hd1. apply Ht. right. exact Hr'. }
    exists w', n. split; [|congruence].
    cbn [for_each]. unfold bind at 1. rewrite E1. exact E.
Qed.

(** X13. A preview runs to its end on every repository whose registry
    records stand for regular files that decode: it raises nothing,
    leaves the disk as it is and exits with status 0, or 1 when there is
    no registry root.  (A directory that is named like a document is a
    record as well; the run that selects it ends with the exception of
    [document_directory_aborts_preview].) *)
Theorem preview_run_completes (fs : FS) (repo_root : Path) :
  (forall r, List.In r (find_specs_root fs repo_root) -> specs_are_files r fs) ->
  (forall r, List.In r (find_specs_root fs repo_root) -> specs_text r fs) ->
  exists w,
    run fs repo_root false
    = (w, inr (match find_specs_root fs repo_root with [] => 1 | _ => 0 end)%nat)
    /\ disk w = fs.
Proof.
  intros Hf Ht. unfold run, main. unfold bind at 1. unfold get_disk at 1. cbn [disk negb].
  destruct (find_specs_root fs repo_root) as [|r roots] eqn:Er.
  - eexists. split; reflexivity.
  - destruct (for_each_scan_root_dry repo_root (r :: roots) 0%nat
                {| heap := []; disk := fs; out := [] |} Hf Ht) as (w1 & n & E & Hd).
    unfold bind at 1. rewrite E. unfold bind at 1.
    destruct (n =? 0)%nat; cbn; eexists; (split; [reflexivity|]); exact Hd.
Qed.

(** A directory with the name of a document is scanned as a record; when
    the tie-break selects it, the run ends where the script reads the
    document, in either mode. *)
Lemma document_directory_aborts_preview :
  map path (iter_spec_files document_directory the_specs_root)
  = [ ["repo"; ".ai"; "specs"; "SPEC-003-a.md"];
      ["repo"; ".ai"; "specs"; "SPEC-003-z.md"] ]
  /\ snd (run document_directory ["repo"] false) = inl IsADirectoryError
  /\ snd (run document_directory ["repo"] true) = inl IsADirectoryError
  /\ out (fst (run document_directory ["repo"] false))
     = [ "Scanning /repo/.ai/specs";
         "Conflict SPEC-003: move newest SPEC-003-z.md -> SPEC-004-z.md";
         "  Updated filename references in 0 text file(s)" ].
Proof. repeat split; reflexivity. Qed.

(** ** The order in which the groups are taken *)

Lemma string_compare_lt_trans (a b c : string) :
  String.compare a b = Lt -> String.compare b c = Lt -> String.compare a c = Lt.
Proof.
  revert b c. induction a as [|x a IH]; intros [|y b] [|z c]; cbn; try discriminate; auto.
  unfold Ascii.compare.
  destruct (N.compare_spec (N_of_ascii x) (N_of_ascii y)) as [Exy|Hxy|Hxy];
    try discriminate;
    destruct (N.compare_spec (N_of_ascii y) (N_of_ascii z)) as [Eyz|Hyz|Hyz];
    try discriminate; intros H1 H2.
  - rewrite Exy, Eyz, N.compare_refl. eapply IH; eassumption.
  - rewrite Exy. now apply N.compare_lt_iff in Hyz as ->.
  - rewrite <- Eyz. now apply N.compare_lt_iff in Hxy as ->.
  - assert (N_of_ascii x < N_of_ascii z)%N as H by lia.
    now apply N.compare_lt_iff in H as ->.
Qed.

Lemma item_lt_trans (a b c : string * list nat) :
  item_lt a b = true -> item_lt b c = true -> item_lt a c = true.
Proof.
  unfold item_lt, String.ltb.
  destruct (String.compare (fst a) (fst b)) eqn:E1; try discriminate.
  destruct (String.compare (fst b) (fst c)) eqn:E2; try discriminate.
  now rewrite (string_compare_lt_trans _ _ _ E1 E2).
Qed.

Lemma item_lt_total (a b : string * list nat) :
  fst a <> fst b -> item_lt a b = false -> item_lt b a = true.
Proof.
  unfold item_lt, String.ltb. intros Hne H.
  rewrite (String.compare_antisym (fst b) (fst a)).
  destruct (String.compare (fst a) (fst b)) eqn:E; [|discriminate H|reflexivity].
  apply String.compare_eq_iff in E. contradiction.
Qed.

Lemma insert_sorted_sorted (x : string * list nat) (l : list (string * list nat)) :
  StronglySorted (fun a b => item_lt a b = true) l ->
  ~ List.In (fst x) (map fst l) ->
  StronglySorted (fun a b => item_lt a b = true) (insert_sorted x l).
Proof.
  induction l as [|y l IH]; intros Hs Hx; cbn.
  - constructor; constructor.
  - apply StronglySorted_inv in Hs as [Hs Hy].
    destruct (item_lt x y) eqn:E.
    + constructor; [constructor; assumption|]. constructor; [exact E|].
      eapply List.Forall_impl; [|exact Hy]. intros z Hz. eapply item_lt_trans; eassumption.
    + constructor.
      * apply IH; [exact Hs|]. intros H. apply Hx. right. exact H.
      * assert (item_lt y x = true) as Hyx.
        { apply item_lt_total; [|exact E]. intros H. apply Hx. left. symmetry. exact H. }
        apply List.Forall_forall. intros z Hz.
        apply (Permutation_in _ (insert_sorted_perm x l)) in Hz as [<-|Hz]; [exact Hyx|].
        rewrite List.Forall_forall in Hy. apply Hy, Hz.
Qed.

Lemma sorted_sorted (l : list (string * list nat)) :
  List.NoDup (map fst l) ->
  StronglySorted (fun a b => item_lt a b = true) (sorted l).
Proof.
  unfold sorted.
  assert (forall acc,
             StronglySorted (fun a b => item_lt a b = true) acc ->
             List.NoDup (map fst (l ++ acc)) ->
             StronglySorted (fun a b => item_lt a b = true)
               (fold_left (fun acc x => insert_sorted x acc) l acc)) as H.
  { induction l as [|x l IH]; intros acc Hs Hnd; [exact Hs|].
    cbn [fold_left]. cbn [app map] in Hnd. apply List.NoDup_cons_iff in Hnd as [Hx Hnd].
    apply IH.
    - apply insert_sorted_sorted; [exact Hs|]. intros H. apply Hx.
      rewrite map_app. apply in_or_app. right. exact H.
    - eapply Permutation_NoDup; [|constructor; [exact Hx|exact Hnd]].
      change (fst x :: map fst (l ++ acc)) with (map fst (x :: l ++ acc)).
      apply Permutation_map.
      etransitivity; [apply Permutation_middle|].
      apply Permutation_app_head. symmetry. apply insert_sorted_perm. }
  intros Hnd. apply H; [constructor|now rewrite app_nil_r].
Qed.

(** X14. The loop takes the groups of a family in strictly ascending
    order of their tokens, compared as strings; each token has one
    group, a group is not empty and holds the records of the family
    with that token in the order of the scan, and every record of the
    family is in the group of its token. *)
Theorem groups_in_token_order (store : list SpecFile) (pre : string) :
  StronglySorted (fun a b => String.ltb (fst a) (fst b) = true) (family_items store pre)
  /\ List.NoDup (map fst (family_items store pre))
  /\ (forall t d, List.In (t, d) (family_items store pre) ->
        d <> []
        /\ d = List.filter (fun r => String.eqb (token (obj store r)) t)
                 (scoped_refs store pre))
  /\ (forall r, List.In r (scoped_refs store pre) ->
        List.In (token (obj store r)) (map fst (family_items store pre))).
Proof.
  destruct (family_items_groups store pre) as (Hnd & Hm & Hk).
  split; [|split; [exact Hnd|split; [|exact Hk]]].
  - unfold family_items. apply sorted_sorted.
    destruct (group_by_token_groups store (scoped_refs store pre)) as (H & _). exact H.
  - intros t d Hin. destruct (Hm t d Hin) as [-> Hne]. split; [exact Hne|reflexivity].
Qed.


(** ** The identifiers of [validate_naming.py] *)

Lemma contains_iff (x s : string) :
  Py.contains x s = true <-> exists a b, s = (a ++ x ++ b)%string.
Proof.
  split.
  - induction s as [|c s IH]; cbn [Py.contains]; intros H.
    + rewrite orb_false_r in H. apply startswith_eq in H. exists "", (Py.drop (String.length x) "").
      exact H.
    + apply orb_true_iff in H as [H|H].
      * apply startswith_eq in H. exists "", (Py.drop (String.length x) (String c s)). exact H.
      * destruct (IH H) as (a & b & ->). exists (String c a), b. reflexivity.
  - intros (a & b & ->). induction a as [|c a IH].
    + cbn [String.append]. destruct (x ++ b)%string eqn:E; cbn [Py.contains];
        rewrite <- E, startswith_app; reflexivity.
    + cbn [String.append Py.contains]. rewrite IH. apply orb_true_r.
Qed.

Lemma contains_trans (x y s : string) :
  Py.contains x y = true -> Py.contains y s = true -> Py.contains x s = true.
Proof.
  rewrite !contains_iff. intros (a & b & ->) (a' & b' & ->).
  exists (a' ++ a)%string, (b ++ b')%string. now rewrite !string_app_assoc.
Qed.

Lemma take_while_nonid (s : string) :
  head (Py.drop (String.length (take_while is_id_char s)) s) = None
  \/ exists c, head (Py.drop (String.length (take_while is_id_char s)) s) = Some c
               /\ is_id_char c = false.
Proof.
  induction s as [|c s IH]; [left; reflexivity|]. cbn [take_while].
  destruct (is_id_char c) eqn:E; [exact IH|]. right. exists c. auto.
Qed.

Lemma take_length_le (k : nat) (s : string) :
  (k <= String.length s)%nat -> String.length (Py.take k s) = k.
Proof.
  revert s. induction k as [|k IH]; intros s H; [destruct s; reflexivity|].
  destruct s as [|c s]; cbn in *; [lia|]. rewrite IH; lia.
Qed.

Lemma all_chars_take (p : ascii -> bool) (k : nat) (s : string) :
  Py.all_chars p s = true -> Py.all_chars p (Py.take k s) = true.
Proof.
  revert s. induction k as [|k IH]; intros s H; [destruct s; reflexivity|].
  destruct s as [|c s]; [reflexivity|]. cbn in *.
  apply andb_true_iff in H as [-> H]. now apply IH.
Qed.

Lemma last_boundary_le (prev : ascii) (run : string) (after : option ascii) (k : nat) :
  last_boundary prev run after = Some k -> (k <= String.length run)%nat.
Proof.
  revert prev k. induction run as [|c r IH]; intros prev k; cbn [last_boundary].
  - destruct (boundary _ _); intros H; inversion H. cbn. lia.
  - destruct (last_boundary c r after) as [j|] eqn:E.
    + intros H. injection H as <-. apply IH in E. cbn. lia.
    + destruct (boundary _ _); intros H; inversion H. lia.
Qed.

(** What a match of the pattern is made of. *)
Lemma match_id_sound (prev : option ascii) (s : string) (g1 g2 g3 : string) (len : nat) :
  match_id prev s = Some ((g1, g2, g3), len) ->
  exists rest,
    s = ((g1 ++ "." ++ g2 ++ "." ++ g3) ++ rest)%string
    /\ len = String.length (g1 ++ "." ++ g2 ++ "." ++ g3)
    /\ g1 <> "" /\ g2 <> "" /\ g3 <> ""
    /\ Py.all_chars is_id_char g1 = true
    /\ Py.all_chars is_id_char g2 = true
    /\ Py.all_chars is_id_char g3 = true.
Proof.
  unfold match_id. destruct (boundary prev (head s)); [|discriminate].
  cbv zeta.
  pose proof (take_while_drop is_id_char s) as E1.
  pose proof (take_while_all is_id_char s) as A1.
  destruct (take_while is_id_char s) as [|a1 r1] eqn:G1; [discriminate|].
  destruct (Py.drop _ s) as [|d1 s1'] eqn:D1; [discriminate|].
  destruct (Ascii.eqb_spec d1 ".") as [->|Hd1];
    [|destruct d1 as [[] [] [] [] [] [] [] []]; try discriminate; congruence].
  pose proof (take_while_drop is_id_char s1') as E2.
  pose proof (take_while_all is_id_char s1') as A2.
  destruct (take_while is_id_char s1') as [|a2 r2] eqn:G2; [discriminate|].
  destruct (Py.drop _ s1') as [|d2 s2'] eqn:D2; [discriminate|].
  destruct (Ascii.eqb_spec d2 ".") as [->|Hd2];
    [|destruct d2 as [[] [] [] [] [] [] [] []]; try discriminate; congruence].
  pose proof (take_while_drop is_id_char s2') as E3.
  pose proof (take_while_all is_id_char s2') as A3.
  destruct (take_while is_id_char s2') as [|c r] eqn:G3; [discriminate|].
  destruct (last_boundary c r _) as [k|] eqn:Lb; [|discriminate].
  intros H. injection H as <- <- <- <-.
  apply last_boundary_le in Lb.
  exists (Py.drop k r ++ Py.drop (String.length (String c r)) s2')%string.
  split; [|split].
  - rewrite E1 at 1. rewrite E2 at 1. rewrite E3 at 1.
    rewrite (take_drop k r) at 1. cbn [String.append]. rewrite !string_app_assoc.
    cbn [String.append]. rewrite !string_app_assoc. reflexivity.
  - rewrite ?string_length_app. cbn [String.length]. rewrite ?string_length_app.
    cbn [String.length]. rewrite take_length_le by exact Lb. lia.
  - repeat split; try discriminate; try assumption.
    cbn [Py.all_chars] in *. apply andb_true_iff in A3 as [-> A3]. now apply all_chars_take.
Qed.

Lemma contains_tail (x s : string) (c : ascii) :
  Py.contains x s = true -> Py.contains x (String c s) = true.
Proof. intros H. cbn [Py.contains]. rewrite H. apply orb_true_r. Qed.

Lemma findall_ids_sound (s : string) :
  forall (prev : option ascii) (skip : nat) (g1 g2 g3 : string),
    List.In (g1, g2, g3) (findall_ids prev skip s) ->
    g1 <> "" /\ g2 <> "" /\ g3 <> ""
    /\ Py.all_chars is_id_char g1 = true
    /\ Py.all_chars is_id_char g2 = true
    /\ Py.all_chars is_id_char g3 = true
    /\ Py.contains (g1 ++ "." ++ g2 ++ "." ++ g3) s = true.
Proof.
  induction s as [|c r IH]; intros prev skip g1 g2 g3 Hin; [destruct Hin|].
  assert (forall p k, List.In (g1, g2, g3) (findall_ids p k r) ->
            g1 <> "" /\ g2 <> "" /\ g3 <> ""
            /\ Py.all_chars is_id_char g1 = true
            /\ Py.all_chars is_id_char g2 = true
            /\ Py.all_chars is_id_char g3 = true
            /\ Py.contains (g1 ++ "." ++ g2 ++ "." ++ g3) (String c r) = true) as Hrest.
  { intros p k H. destruct (IH p k g1 g2 g3 H) as (H1 & H2 & H3 & A1 & A2 & A3 & Hc).
    repeat split; try assumption. apply contains_tail, Hc. }
  cbn [findall_ids] in Hin. destruct skip as [|k]; [|exact (Hrest _ _ Hin)].
  destruct (match_id prev (String c r)) as [[[[h1 h2] h3] len]|] eqn:E;
    [|exact (Hrest _ _ Hin)].
  destruct Hin as [Heq|Hin]; [|exact (Hrest _ _ Hin)].
  injection Heq as -> -> ->.
  destruct (match_id_sound _ _ _ _ _ _ E) as (rest & Es & _ & H1 & H2 & H3 & A1 & A2 & A3).
  repeat split; try assumption.
  apply contains_iff. exists "", rest. exact Es.
Qed.

(** X15. Whatever [validate_naming] reports is an identifier of the
    text: three non-empty parts of lower-case letters, digits and
    dashes joined by dots, whose middle part ends in [s] and is not one
    of the nine singular words that end in [s]; and it occurs in the
    text as it is reported. *)
Theorem naming_violations_sound (content v : string) :
  List.In v (naming_violations content) ->
  exists module entity action,
    v = (module ++ "." ++ entity ++ "." ++ action)%string
    /\ module <> "" /\ entity <> "" /\ action <> ""
    /\ Py.all_chars is_id_char module = true
    /\ Py.all_chars is_id_char entity = true
    /\ Py.all_chars is_id_char action = true
    /\ Py.endswith entity "s" = true
    /\ str_in entity common_singular_s = false
    /\ Py.contains v content = true.
Proof.
  unfold naming_violations. intros H. apply List.in_flat_map in H as ([[m e] a] & Hin & Hv).
  destruct (Py.endswith e "s") eqn:Es; [|destruct Hv].
  destruct (str_in e common_singular_s) eqn:Ec; [destruct Hv|].
  destruct Hv as [<-|[]].
  destruct (findall_ids_sound _ _ _ _ _ _ Hin) as (H1 & H2 & H3 & A1 & A2 & A3 & Hc).
  exists m, e, a. auto 12.
Qed.

(** X16. A text in which no [s] is followed by a dot has no
    violation. *)
Theorem no_plural_no_violation (content : string) :
  Py.contains "s." content = false -> naming_violations content = [].
Proof.
  intros H. destruct (naming_violations content) as [|v l] eqn:E; [reflexivity|exfalso].
  destruct (naming_violations_sound content v) as (m & e & a & -> & _ & _ & _ & _ & _ & _
                                                    & Hs & _ & Hc).
  { rewrite E. left. reflexivity. }
  assert (Py.contains "s." content = true); [|congruence].
  eapply contains_trans; [|exact Hc].
  apply endswith_eq in Hs. apply contains_iff.
  exists (m ++ "." ++ Py.take (String.length e - String.length "s") e)%string, a.
  rewrite Hs at 1. rewrite ?string_app_assoc. cbn [String.append].
  rewrite ?string_app_assoc. reflexivity.
Qed.

(** ** Identifiers that are checked *)

Lemma plain_is_id (c : ascii) : is_plain_char c = true -> is_id_char c = true.
Proof.
  unfold is_plain_char, is_id_char. intros H. apply orb_true_iff in H as [H|H];
    rewrite H; rewrite ?orb_true_r; reflexivity.
Qed.

Lemma plain_is_word (c : ascii) : is_plain_char c = true -> is_word_char c = true.
Proof.
  unfold is_plain_char, is_word_char, Py.is_alnum, Py.is_ascii_alpha. cbv zeta.
  intros H. apply orb_true_iff in H as [H|H]; rewrite H; rewrite ?orb_true_r; reflexivity.
Qed.

Lemma all_plain_all_id (s : string) :
  Py.all_chars is_plain_char s = true -> Py.all_chars is_id_char s = true.
Proof.
  induction s as [|c s IH]; [reflexivity|]. cbn. intros H.
  apply andb_true_iff in H as [Hc Hs]. now rewrite (plain_is_id c Hc), IH.
Qed.

Lemma separator_spec (c : ascii) :
  is_separator c = true ->
  is_word_char c = false /\ is_id_char c = false /\ c <> "."%char.
Proof.
  unfold is_separator. intros H. apply andb_true_iff in H as [H Hd].
  apply andb_true_iff in H as [Hw Hi].
  apply negb_true_iff in Hw, Hi, Hd. apply Ascii.eqb_neq in Hd. auto.
Qed.

Lemma take_while_stop (p : ascii -> bool) (x rest : string) (c : ascii) :
  p c = false -> take_while p (x ++ String c rest) = take_while p x.
Proof.
  intros Hc. induction x as [|d x IH]; cbn; [now rewrite Hc|].
  destruct (p d); [now rewrite IH|reflexivity].
Qed.

Lemma take_while_length (p : ascii -> bool) (x : string) :
  (String.length (take_while p x) <= String.length x)%nat.
Proof.
  induction x as [|d x IH]; cbn; [lia|]. destruct (p d); cbn; lia.
Qed.

Lemma drop_app_le (k : nat) (x y : string) :
  (k <= String.length x)%nat -> Py.drop k (x ++ y) = (Py.drop k x ++ y)%string.
Proof.
  revert x. induction k as [|k IH]; intros x H; [reflexivity|].
  destruct x as [|d x]; cbn in *; [lia|]. apply IH. lia.
Qed.

Lemma drop_drop_length (k : nat) (x : string) :
  (k <= String.length x)%nat ->
  String.length (Py.drop k x) = (String.length x - k)%nat.
Proof.
  revert x. induction k as [|k IH]; intros x H; [destruct x; cbn; lia|].
  destruct x as [|d x]; cbn in *; [lia|]. apply IH. lia.
Qed.

(** An attempt of the pattern does not look beyond a separator. *)
Lemma match_id_local (prev : option ascii) (x rest : string) (c : ascii) :
  is_separator c = true ->
  match_id prev (x ++ String c rest) = match_id prev (x ++ String c "").
Proof.
  intros Hsep. destruct (separator_spec c Hsep) as (Hw & Hi & Hd).
  assert (forall y r, head (y ++ String c r) = head (y ++ String c "")) as Hhead
      by (intros [|d y] r; reflexivity).
  unfold match_id. rewrite (Hhead x rest).
  destruct (boundary prev _); [|reflexivity]. cbv zeta.
  rewrite !take_while_stop by exact Hi.
  rewrite !drop_app_le by apply take_while_length.
  destruct (take_while is_id_char x) as [|a1 r1] eqn:G1; [reflexivity|].
  destruct (Py.drop (String.length (String a1 r1)) x) as [|d1 x1]; cbn [String.append].
  { destruct c as [[] [] [] [] [] [] [] []]; try reflexivity. congruence. }
  destruct d1 as [[] [] [] [] [] [] [] []]; try reflexivity.
  rewrite !take_while_stop by exact Hi.
  rewrite !drop_app_le by apply take_while_length.
  destruct (take_while is_id_char x1) as [|a2 r2] eqn:G2; [reflexivity|].
  destruct (Py.drop (String.length (String a2 r2)) x1) as [|d2 x2]; cbn [String.append].
  { destruct c as [[] [] [] [] [] [] [] []]; try reflexivity. congruence. }
  destruct d2 as [[] [] [] [] [] [] [] []]; try reflexivity.
  rewrite !take_while_stop by exact Hi.
  destruct (take_while is_id_char x2) as [|a3 r3] eqn:G3; [reflexivity|].
  assert (S (String.length r3) <= String.length x2)%nat as Hle.
  { pose proof (take_while_length is_id_char x2) as H. rewrite G3 in H. exact H. }
  rewrite !drop_app_le by exact Hle. rewrite Hhead. reflexivity.
Qed.

Lemma prefix_before_separator (q : ascii -> bool) (text r0 x rest : string) (c : ascii) :
  (text ++ r0)%string = (x ++ String c rest)%string ->
  Py.all_chars q text = true -> q c = false ->
  (String.length text <= String.length x)%nat.
Proof.
  revert x. induction text as [|d text IH]; intros x E Hall Hc; [cbn; lia|].
  cbn [Py.all_chars] in Hall. apply andb_true_iff in Hall as [Hd Hall].
  destruct x as [|e x]; cbn in E.
  - injection E as -> _. congruence.
  - injection E as _ E. cbn. specialize (IH x E Hall Hc). lia.
Qed.

Lemma match_id_at_separator (prev : option ascii) (c : ascii) (r : string) :
  is_id_char c = false -> match_id prev (String c r) = None.
Proof.
  intros H. unfold match_id. destruct (boundary _ _); [|reflexivity].
  cbn [take_while]. rewrite H. reflexivity.
Qed.

Lemma all_chars_app (p : ascii -> bool) (x y : string) :
  Py.all_chars p (x ++ y) = Py.all_chars p x && Py.all_chars p y.
Proof.
  induction x as [|c x IH]; [reflexivity|]. cbn. rewrite IH. apply andb_assoc.
Qed.

Lemma all_id_all_id_or_dot (s : string) :
  Py.all_chars is_id_char s = true -> Py.all_chars id_or_dot s = true.
Proof.
  induction s as [|c s IH]; [reflexivity|]. cbn. intros H.
  apply andb_true_iff in H as [Hc Hs]. unfold id_or_dot at 1. now rewrite Hc, IH.
Qed.

(** The search for matches starts afresh after a separator. *)
Lemma findall_ids_split (x rest : string) (c : ascii) :
  is_separator c = true ->
  forall (prev : option ascii) (skip : nat),
    (skip <= String.length x)%nat ->
    findall_ids prev skip (x ++ String c rest)
    = findall_ids prev skip (x ++ String c "") ++ findall_ids (Some c) 0 rest.
Proof.
  intros Hsep. destruct (separator_spec c Hsep) as (Hw & Hi & Hd).
  induction x as [|d x IH]; intros prev skip Hskip.
  - cbn in Hskip. assert (skip = 0%nat) as -> by lia.
    cbn [String.append findall_ids]. rewrite !match_id_at_separator by exact Hi.
    reflexivity.
  - cbn [String.append findall_ids]. destruct skip as [|k].
    + change (String d (x ++ String c rest)) with ((String d x) ++ String c rest)%string.
      change (String d (x ++ String c "")) with ((String d x) ++ String c "")%string.
      rewrite match_id_local by exact Hsep.
      destruct (match_id prev (String d x ++ String c "")) as [[[[g1 g2] g3] len]|] eqn:E.
      * cbn [app]. f_equal. apply IH.
        destruct (match_id_sound _ _ _ _ _ _ E) as (r0 & Es & -> & _ & _ & _ & A1 & A2 & A3).
        assert (String.length (g1 ++ "." ++ g2 ++ "." ++ g3) <= String.length (String d x))%nat;
          [|cbn [String.length] in *; lia].
        apply (prefix_before_separator id_or_dot _ r0 _ "" c); [now rewrite Es| |].
        -- rewrite !all_chars_app. cbn [Py.all_chars].
           rewrite !all_id_all_id_or_dot by assumption. reflexivity.
        -- unfold id_or_dot. rewrite Hi. cbn.
           destruct (Ascii.eqb_spec c "."); [contradiction|reflexivity].
      * apply IH. lia.
    + apply IH. cbn in Hskip. lia.
Qed.

Lemma take_while_whole (p : ascii -> bool) (s : string) :
  Py.all_chars p s = true -> take_while p s = s.
Proof.
  induction s as [|c s IH]; [reflexivity|]. cbn. intros H.
  apply andb_true_iff in H as [-> H]. now rewrite IH.
Qed.

Lemma take_whole (s : string) : Py.take (String.length s) s = s.
Proof. induction s as [|c s IH]; [reflexivity|]. cbn. now rewrite IH. Qed.

Lemma last_boundary_plain (c : ascii) (r : string) (after : option ascii) :
  Py.all_chars is_plain_char (String c r) = true -> is_word after = false ->
  last_boundary c r after = Some (String.length r).
Proof.
  revert c. induction r as [|d r IH]; intros c H Ha.
  - cbn in *. rewrite andb_true_r in H. unfold boundary. cbn [is_word].
    now rewrite (plain_is_word c H), Ha.
  - cbn [Py.all_chars] in H. apply andb_true_iff in H as [_ H].
    cbn [last_boundary String.length]. now rewrite (IH d H Ha).
Qed.

Lemma string_app_nil_r (s : string) : (s ++ "")%string = s.
Proof. induction s as [|c s IH]; [reflexivity|]. cbn. now rewrite IH. Qed.

(** A plainly written identifier that stands free is matched. *)
Lemma match_id_plain (prev : option ascii) (m e a after : string) :
  is_word prev = false ->
  m <> "" -> e <> "" -> a <> "" ->
  Py.all_chars is_plain_char m = true ->
  Py.all_chars is_plain_char e = true ->
  Py.all_chars is_plain_char a = true ->
  (after = "" \/ exists c r, after = String c r /\ is_word_char c = false
                             /\ is_id_char c = false) ->
  exists len,
    match_id prev ((m ++ "." ++ e ++ "." ++ a) ++ after) = Some ((m, e, a), len).
Proof.
  intros Hprev Hm He Ha Pm Pe Pa Hafter.
  assert (is_id_char "." = false) as Hdot by reflexivity.
  unfold match_id. rewrite ?string_app_assoc. cbn [String.append].
  rewrite ?string_app_assoc. cbn [String.append].
  destruct m as [|c1 m']; [congruence|]. cbn [String.append head].
  assert (boundary prev (Some c1) = true) as ->.
  { unfold boundary. rewrite Hprev. cbn [is_word xorb].
    cbn [Py.all_chars] in Pm. apply andb_true_iff in Pm as [Pm _].
    apply (plain_is_word c1 Pm). }
  cbv zeta.
  change (String c1 (m' ++ String "." (e ++ String "." (a ++ after))))
    with ((String c1 m') ++ String "." (e ++ String "." (a ++ after)))%string.
  rewrite take_while_app by (auto using all_plain_all_id).
  rewrite drop_app.
  destruct e as [|c2 e']; [congruence|].
  change (String c2 e' ++ String "." (a ++ after))%string
    with ((String c2 e') ++ String "." (a ++ after))%string.
  rewrite take_while_app by (auto using all_plain_all_id).
  rewrite drop_app.
  destruct a as [|c3 a']; [congruence|].
  assert (take_while is_id_char (String c3 a' ++ after) = String c3 a') as ->.
  { destruct Hafter as [->|(c & r & -> & _ & Hc)].
    - rewrite string_app_nil_r. apply take_while_whole, all_plain_all_id, Pa.
    - apply take_while_app; [apply all_plain_all_id, Pa|exact Hc]. }
  change (S (String.length a')) with (String.length (String c3 a')).
  rewrite drop_app.
  rewrite last_boundary_plain; [|exact Pa|].
  - rewrite take_whole. eexists. reflexivity.
  - destruct Hafter as [->|(c & r & -> & Hc & _)]; [reflexivity|exact Hc].
Qed.

Lemma split_at_dot (x x' y y' : string) :
  Py.all_chars is_id_char x = true -> Py.all_chars is_id_char x' = true ->
  (x ++ String "." y)%string = (x' ++ String "." y')%string -> x = x' /\ y = y'.
Proof.
  revert x'. induction x as [|c x IH]; intros [|c' x'] Hx Hx' E; cbn in *.
  - injection E as ->. auto.
  - injection E as <- _. discriminate Hx'.
  - injection E as -> _. discriminate Hx.
  - injection E as -> E.
    apply andb_true_iff in Hx as [_ Hx]. apply andb_true_iff in Hx' as [_ Hx'].
    destruct (IH x' Hx Hx' E) as [-> ->]. auto.
Qed.

Lemma findall_ids_plain (prev : option ascii) (m e a after : string) :
  is_word prev = false ->
  m <> "" -> e <> "" -> a <> "" ->
  Py.all_chars is_plain_char m = true ->
  Py.all_chars is_plain_char e = true ->
  Py.all_chars is_plain_char a = true ->
  (after = "" \/ exists c r, after = String c r /\ is_word_char c = false
                             /\ is_id_char c = false) ->
  List.In (m, e, a) (findall_ids prev 0 ((m ++ "." ++ e ++ "." ++ a) ++ after)).
Proof.
  intros Hprev Hm He Ha Pm Pe Pa Hafter.
  destruct (match_id_plain prev m e a after Hprev Hm He Ha Pm Pe Pa Hafter) as [len E].
  destruct ((m ++ "." ++ e ++ "." ++ a) ++ after)%string as [|c r] eqn:Es.
  - destruct m; [congruence|discriminate Es].
  - cbn [findall_ids]. rewrite E. left. reflexivity.
Qed.

(** X17. An identifier written with lower-case letters and digits only,
    that stands at the start of the text or after a character that is
    no word character, no dash and no dot, and at the end of the text
    or before a character that is no word character and no dash, is
    checked whatever else the text holds: it is among the violations
    exactly when its middle part ends in [s] and is not one of the nine
    singular words. *)
Theorem plain_identifier_is_checked (before after m e a : string) :
  (before = "" \/ exists b c, before = (b ++ String c "")%string /\ is_separator c = true) ->
  (after = "" \/ exists c r, after = String c r /\ is_word_char c = false
                             /\ is_id_char c = false) ->
  m <> "" -> e <> "" -> a <> "" ->
  Py.all_chars is_plain_char m = true ->
  Py.all_chars is_plain_char e = true ->
  Py.all_chars is_plain_char a = true ->
  (List.In (m ++ "." ++ e ++ "." ++ a)%string
     (naming_violations (before ++ (m ++ "." ++ e ++ "." ++ a) ++ after))
   <-> Py.endswith e "s" = true /\ str_in e common_singular_s = false).
Proof.
  intros Hbefore Hafter Hm He Ha Pm Pe Pa. split.
  - intros H. apply naming_violations_sound in H
      as (m' & e' & a' & Ev & _ & _ & _ & A1 & A2 & _ & Hs & Hc & _).
    cbn [String.append] in Ev.
    apply split_at_dot in Ev as [_ Ev]; [|apply all_plain_all_id, Pm|exact A1].
    apply split_at_dot in Ev as [-> _]; [|apply all_plain_all_id, Pe|exact A2].
    auto.
  - intros [Hs Hc]. unfold naming_violations. apply List.in_flat_map.
    exists (m, e, a). split; [|rewrite Hs, Hc; left; reflexivity].
    destruct Hbefore as [->|(b & c & -> & Hsep)].
    + cbn [String.append]. apply findall_ids_plain; auto.
    + rewrite string_app_assoc. cbn [String.append].
      rewrite findall_ids_split by (auto; lia). apply in_or_app. right.
      apply findall_ids_plain; auto.
      cbn [is_word]. apply (separator_spec c Hsep).
Qed.

(** ** The check of a file *)

Lemma for_each_print (f : string -> string) (l : list string) (w : World) :
  for_each l tt (fun _ v => print (f v)) w
  = ({| heap := heap w; disk := disk w; out := out w ++ map f l |}, inr tt).
Proof.
  revert w. induction l as [|v l IH]; intros w.
  - cbn. rewrite app_nil_r, world_eta. reflexivity.
  - cbn [for_each map]. unfold bind at 1. unfold print at 1. rewrite IH.
    cbn [heap disk out]. now rewrite <- app_assoc.
Qed.

(** The lines that report the result of the check of a text. *)
Lemma validate_naming_text (p : Path) (w : World) (f : File) (c : string) :
  Fs.find_file (disk w) p = Some f -> fdata f = Text c ->
  validate_naming p w
  = ({| heap := heap w; disk := disk w;
        out := out w ++ match naming_violations c with
                        | [] => [no_violations_line]
                        | vs => violations_header :: map violation_line vs
                        end |},
     inr (match naming_violations c with [] => true | _ => false end)).
Proof.
  intros Hf Hc. unfold validate_naming. unfold bind at 1. unfold get_disk at 1.
  assert (Fs.exists_ (disk w) p = true) as ->.
  { unfold Fs.exists_, Fs.is_file. rewrite Hf. apply orb_true_r. }
  cbn [negb]. unfold bind at 1. unfold read_text, io. unfold Fs.read_text.
  rewrite Hf, Hc. cbn [decode].
  destruct (naming_violations c) as [|v vs]; [reflexivity|].
  unfold bind at 1. unfold print at 1. unfold bind at 1.
  rewrite for_each_print. unfold ret. cbn [heap disk out].
  rewrite <- app_assoc. reflexivity.
Qed.

(** X18. [validate_naming] on a path that names nothing prints that the
    file was not found and returns [False]; on a directory it raises
    [IsADirectoryError] and on a file that does not decode
    [UnicodeDecodeError], printing nothing; on a text it prints one
    line when there is no violation and returns [True], and otherwise
    the header and one line per violation in the order of the text and
    returns [False].  It never changes the disk. *)
Theorem validate_naming_spec (p : Path) (w : World) :
  (Fs.exists_ (disk w) p = false ->
   validate_naming p w
   = ({| heap := heap w; disk := disk w; out := out w ++ [file_not_found_line p] |},
      inr false))
  /\ (Fs.find_file (disk w) p = None -> Fs.is_dir (disk w) p = true ->
      validate_naming p w = (w, inl IsADirectoryError))
  /\ (forall f raw,
        Fs.find_file (disk w) p = Some f -> fdata f = Undecodable raw ->
        validate_naming p w = (w, inl UnicodeDecodeError))
  /\ (forall f c,
        Fs.find_file (disk w) p = Some f -> fdata f = Text c ->
        validate_naming p w
        = ({| heap := heap w; disk := disk w;
              out := out w ++ match naming_violations c with
                              | [] => [no_violations_line]
                              | vs => violations_header :: map violation_line vs
                              end |},
           inr (match naming_violations c with [] => true | _ => false end)))
  /\ disk (fst (validate_naming p w)) = disk w.
Proof.
  split; [|split; [|split; [|split]]].
  - intros H. unfold validate_naming. unfold bind at 1. unfold get_disk at 1.
    rewrite H. reflexivity.
  - intros Hf Hd. unfold validate_naming. unfold bind at 1. unfold get_disk at 1.
    unfold Fs.exists_. rewrite Hd. cbn [orb negb].
    unfold bind at 1. unfold read_text, io. unfold Fs.read_text. now rewrite Hf, Hd.
  - intros f raw Hf Hr. unfold validate_naming. unfold bind at 1. unfold get_disk at 1.
    assert (Fs.exists_ (disk w) p = true) as ->.
    { unfold Fs.exists_, Fs.is_file. rewrite Hf. apply orb_true_r. }
    cbn [negb]. unfold bind at 1. unfold read_text, io. unfold Fs.read_text.
    now rewrite Hf, Hr.
  - apply validate_naming_text.
  - destruct (Fs.find_file (disk w) p) as [f|] eqn:Hf.
    + destruct (fdata f) as [c|raw] eqn:Hd.
      * now rewrite (validate_naming_text p w f c Hf Hd).
      * unfold validate_naming. unfold bind at 1. unfold get_disk at 1.
        assert (Fs.exists_ (disk w) p = true) as ->.
        { unfold Fs.exists_, Fs.is_file. rewrite Hf. apply orb_true_r. }
        cbn [negb]. unfold bind at 1. unfold read_text, io. unfold Fs.read_text.
        now rewrite Hf, Hd.
    + unfold validate_naming. unfold bind at 1. unfold get_disk at 1.
      unfold Fs.exists_, Fs.is_file. rewrite Hf. rewrite orb_false_r.
      destruct (Fs.is_dir (disk w) p) eqn:Hd; cbn [negb]; [|reflexivity].
      unfold bind at 1. unfold read_text, io. unfold Fs.read_text. now rewrite Hf, Hd.
Qed.

(** X19. The exit status of the script, when it does not end in an
    exception, is 0 or 1, and it is 0 exactly when the argument is
    there and names a text without violations. *)
Theorem validate_naming_exit_status (arg : option Path) (w : World) (status : nat) :
  snd (validate_naming_main arg w) = inr status ->
  (status = 0%nat \/ status = 1%nat)
  /\ (status = 0%nat <->
      exists p f c,
        arg = Some p /\ Fs.find_file (disk w) p = Some f /\ fdata f = Text c
        /\ naming_violations c = []).
Proof.
  destruct arg as [p|]; cbn [validate_naming_main].
  - unfold bind at 1.
    destruct (Fs.find_file (disk w) p) as [f|] eqn:Hf.
    + destruct (fdata f) as [c|raw] eqn:Hd.
      * rewrite (validate_naming_text p w f c Hf Hd).
        destruct (naming_violations c) as [|v vs] eqn:Ev; cbn; intros H; injection H as <-.
        -- split; [auto|]. split; [|reflexivity]. intros _. exists p, f, c. auto.
        -- split; [auto|]. split; [discriminate|].
           intros (p' & f' & c' & Ep & Hf' & Hd' & Hv). injection Ep as <-.
           rewrite Hf in Hf'. injection Hf' as <-. rewrite Hd in Hd'. injection Hd' as <-.
           congruence.
      * destruct (validate_naming_spec p w) as (_ & _ & Hu & _).
        rewrite (Hu f raw Hf Hd). discriminate.
    + destruct (Fs.is_dir (disk w) p) eqn:Hdir.
      * destruct (validate_naming_spec p w) as (_ & Hi & _).
        rewrite (Hi Hf Hdir). discriminate.
      * destruct (validate_naming_spec p w) as (Hn & _).
        rewrite Hn by (unfold Fs.exists_, Fs.is_file; now rewrite Hf, Hdir).
        cbn. intros H. injection H as <-. split; [auto|]. split; [discriminate|].
        intros (p' & f' & c' & Ep & Hf' & _). injection Ep as <-. congruence.
  - cbn. intros H. injection H as <-. split; [auto|]. split; [discriminate|].
    intros (p' & f' & c' & Ep & _). discriminate.
Qed.

(** * The theorems at work on the example repositories *)

Lemma dated_and_undated_wf : wf_disk dated_and_undated.
Proof.
  split.
  - cbn. repeat constructor; cbn; intuition discriminate.
  - intros d [<-|[<-|[<-|[]]]]; reflexivity.
Defined.

Lemma dated_and_undated_text (r : Path) :
  List.In r (find_specs_root dated_and_undated ["repo"]) ->
  specs_text r dated_and_undated.
Proof.
  intros _ f [<-|[<-|[]]] _; eexists; reflexivity.
Defined.

Lemma next_numeric_token_spec_witness :
  allocated_number [] = 1%N
  /\ next_numeric_token (iter_spec_files two_conflicts the_specs_root) 3 = "003".
Proof.
  split.
  - apply (proj1 (proj2 (proj2 (proj2 (proj2 (next_numeric_token_spec [] 3)))))).
    reflexivity.
  - rewrite (proj1 (next_numeric_token_spec
                      (iter_spec_files two_conflicts the_specs_root) 3)).
    reflexivity.
Defined.

Lemma new_tokens_collision_free_witness :
  token (obj (heap (fst (resolve_conflicts_for_prefix ["repo"] "SPEC" false
                           (scanned two_conflicts the_specs_root)))) 1)
  <> token (obj (heap (fst (resolve_conflicts_for_prefix ["repo"] "SPEC" false
                              (scanned two_conflicts the_specs_root)))) 3).
Proof.
  apply (proj1 (new_tokens_collision_free ["repo"] "SPEC" false
                  (scanned two_conflicts the_specs_root)) 1%nat 3%nat).
  - lia.
  - vm_compute. discriminate.
  - vm_compute. discriminate.
Defined.

Lemma dated_record_is_renumbered_witness :
  max_by_key (heap (scanned dated_and_undated the_specs_root)) 0 [1%nat] = 0%nat
  /\ max_by_key (heap (scanned dated_and_undated the_specs_root)) 1 [0%nat] = 0%nat.
Proof.
  split.
  - apply (dated_record_is_renumbered ["repo"] "SPEC" true [0%nat; 1%nat] 3 0 "003"
             0 1 [0%nat; 1%nat] (scanned dated_and_undated the_specs_root)).
    + lia.
    + vm_compute. lia.
    + vm_compute. discriminate.
    + reflexivity.
    + left. reflexivity.
  - apply (dated_record_is_renumbered ["repo"] "SPEC" true [0%nat; 1%nat] 3 0 "003"
             0 1 [1%nat; 0%nat] (scanned dated_and_undated the_specs_root)).
    + lia.
    + vm_compute. lia.
    + vm_compute. discriminate.
    + reflexivity.
    + right. reflexivity.
Defined.

Lemma repeated_apply_converges_witness :
  (1 <= max_group_size (family_tokens (heap (scanned dated_and_undated the_specs_root))
                          "SPEC") - 1)%nat
  /\ max_group_size
       (family_tokens
          (iter_spec_files (apply_runs ["repo"] 1 dated_and_undated) the_specs_root) "SPEC")
     = 1%nat.
Proof.
  split.
  - apply (proj1 (proj2 (repeated_apply_converges "SPEC")) 1%nat
             (heap (scanned dated_and_undated the_specs_root))
             (heap (fst (resolve_conflicts_for_prefix ["repo"] "SPEC" false
                           (scanned dated_and_undated the_specs_root))))).
    eapply passes_more.
    + vm_compute. lia.
    + exists ["repo"], (scanned dated_and_undated the_specs_root),
        (fst (resolve_conflicts_for_prefix ["repo"] "SPEC" false
                (scanned dated_and_undated the_specs_root))), 1%nat.
      split; [reflexivity|]. split; [vm_compute; reflexivity|reflexivity].
    + apply Permutation_refl.
    + apply passes_none.
  - apply (proj1 (proj2 (proj2 (proj2 (proj2 (repeated_apply_converges "SPEC")))
                          dated_and_undated ["repo"] the_specs_root
                          dated_and_undated_wf dated_and_undated_text
                          (or_introl eq_refl) (or_introl eq_refl) 1%nat))).
    vm_compute. lia.
Defined.

Lemma resolved_conflict_rewrites_witness :
  exists w',
    resolve_group ["repo"] "SPEC" false [0%nat; 1%nat; 2%nat] 1 0 ("1", [0%nat; 1%nat])
      (scanned one_digit_tokens the_specs_root) = (w', inr 1%nat)
    /\ map path_and_data (files (disk w'))
       = [ (["repo"; ".ai"; "specs"; "SPEC-1-a.md"], Text "a");
           (["repo"; ".ai"; "specs"; "SPEC-10-b.md"], Text "# SPEC-100-b.md");
           (["repo"; ".ai"; "specs"; "SPEC-9-c.md"], Text "c") ].
Proof.
  destruct (resolved_conflict_rewrites ["repo"] "SPEC" [0%nat; 1%nat; 2%nat] 1 0 "1" 0 1 []
              (scanned one_digit_tokens the_specs_root)
              {| fpath := ["repo"; ".ai"; "specs"; "SPEC-1-b.md"];
                 fdata := Text "# SPEC-1-b.md"; fmtime := 2 |}
              "# SPEC-1-b.md") as (w' & E & Hfiles & _).
  - vm_compute. repeat (constructor; [simpl; intuition discriminate|]). constructor.
  - reflexivity.
  - reflexivity.
  - reflexivity.
  - reflexivity.
  - exists w'. split; [exact E|]. rewrite Hfiles. reflexivity.
Defined.

Lemma exit_status_witness :
  run specs_is_a_file ["repo"] true
  = ({| heap := []; disk := specs_is_a_file; out := [no_roots_line] |}, inr 1%nat).
Proof.
  apply (proj1 (exit_status specs_is_a_file ["repo"] true)).
  intros p [<-|[<-|[]]]; reflexivity.
Defined.

Lemma preview_renumbers_like_apply_witness :
  heap (fst (resolve_conflicts_for_prefix ["repo"] "SPEC" true
               (scanned self_reference the_specs_root)))
  = heap (fst (resolve_conflicts_for_prefix ["repo"] "SPEC" false
                 (scanned self_reference the_specs_root))).
Proof.
  apply (preview_renumbers_like_apply ["repo"] "SPEC"
           (scanned self_reference the_specs_root) (scanned self_reference the_specs_root)
           (fst (resolve_conflicts_for_prefix ["repo"] "SPEC" true
                   (scanned self_reference the_specs_root)))
           (fst (resolve_conflicts_for_prefix ["repo"] "SPEC" false
                   (scanned self_reference the_specs_root)))
           1%nat 1%nat eq_refl); vm_compute; reflexivity.
Defined.

Lemma undecodable_spec_aborts_run_witness :
  snd (run undecodable_spec ["repo"] false) = inl UnicodeDecodeError
  /\ snd (run undecodable_spec ["repo"] true) = inl UnicodeDecodeError.
Proof.
  split.
  - apply (undecodable_spec_aborts_run undecodable_spec ["repo"] false the_specs_root
             [] [] [] "003" 0 1 []
             {| fpath := ["repo"; ".ai"; "specs"; "SPEC-003-b.md"];
                fdata := Undecodable [Byte.xff; Byte.xfe]; fmtime := 2 |}
             [Byte.xff; Byte.xfe]).
    + reflexivity.
    + vm_compute. reflexivity.
    + intros item [].
    + reflexivity.
    + reflexivity.
  - apply (undecodable_spec_aborts_run undecodable_spec ["repo"] true the_specs_root
             [] [] [] "003" 0 1 []
             {| fpath := ["repo"; ".ai"; "specs"; "SPEC-003-b.md"];
                fdata := Undecodable [Byte.xff; Byte.xfe]; fmtime := 2 |}
             [Byte.xff; Byte.xfe]).
    + reflexivity.
    + vm_compute. reflexivity.
    + intros item [].
    + reflexivity.
    + reflexivity.
Defined.

Lemma preview_and_apply_report_alike_witness :
  heap (fst (run self_reference ["repo"] false))
  = heap (fst (run self_reference ["repo"] true)).
Proof.
  apply (preview_and_apply_report_alike self_reference ["repo"] the_specs_root
           (fst (run self_reference ["repo"] false))
           (fst (run self_reference ["repo"] true)) 0%nat 0%nat);
    vm_compute; reflexivity.
Defined.


(** ** The further properties at work *)

Lemma file_name_round_trip_witness :
  match_name (make_file_name "SPEC-ENT" "014a" "2024-01-05-intro")
  = Some ("SPEC-ENT", "014a", "2024-01-05-intro")
  /\ "SPEC-007-x.md" = make_file_name "SPEC" "007" "x".
Proof.
  split.
  - apply (proj1 file_name_round_trip);
      [right; reflexivity|reflexivity|discriminate|reflexivity].
  - apply (proj2 file_name_round_trip "SPEC-007-x.md" "SPEC" "007" "x"); reflexivity.
Defined.

Lemma iter_spec_files_spec_witness :
  List.In {| path := ["repo"; ".ai"; "specs"; "SPEC-003-z.md"]; prefix := "SPEC";
             token := "003"; tail := "z"; mtime := 3 |}
    (iter_spec_files document_directory the_specs_root).
Proof.
  apply (proj2 (iter_spec_files_spec document_directory the_specs_root _)).
  exists "SPEC-003-z.md", [].
  split; [right; split; [do 3 right; left; reflexivity|reflexivity]|].
  split; [reflexivity|]. split; [discriminate|]. split; [reflexivity|].
  split; [left; reflexivity|]. split; [reflexivity|]. split; [discriminate|reflexivity].
Defined.

Lemma dated_key_spec_witness :
  dated_key {| path := []; prefix := "SPEC"; token := "003";
               tail := "2024-02-29-leap"; mtime := 0 |}
  = Some (Date.mk 2024 2 29).
Proof.
  apply (proj2 (dated_key_spec _ _)).
  exists "2024", "02", "29", "leap". cbn.
  repeat split; try reflexivity; vm_compute; discriminate.
Defined.

Lemma newest_is_first_maximum_witness :
  key_gt (sort_key (obj (heap (scanned dated_and_undated the_specs_root)) 1%nat))
    (sort_key (obj (heap (scanned dated_and_undated the_specs_root))
                 (max_by_key (heap (scanned dated_and_undated the_specs_root)) 0 [1%nat])))
  = false.
Proof.
  apply (proj1 (newest_is_first_maximum
                  (heap (scanned dated_and_undated the_specs_root)) 0 [1%nat])).
  right. left. reflexivity.
Defined.

Lemma pass_numbers_without_gaps_witness :
  max_used_number
    (view (heap (fst (resolve_conflicts_for_prefix ["repo"] "SPEC" true
                        (scanned two_conflicts the_specs_root))))
       (scoped_refs (heap (scanned two_conflicts the_specs_root)) "SPEC"))
  = (max_used_number
       (view (heap (scanned two_conflicts the_specs_root))
          (scoped_refs (heap (scanned two_conflicts the_specs_root)) "SPEC"))
     + N.of_nat 2)%N.
Proof.
  refine (proj1 (pass_numbers_without_gaps ["repo"] "SPEC" true
                   (scanned two_conflicts the_specs_root)
                   (fst (resolve_conflicts_for_prefix ["repo"] "SPEC" true
                           (scanned two_conflicts the_specs_root))) 2 _)).
  vm_compute. reflexivity.
Defined.

Lemma pass_keeps_records_in_place_witness :
  base_name (obj (heap (fst (resolve_conflicts_for_prefix ["repo"] "SPEC" false
                              (scanned two_conflicts the_specs_root)))) 1%nat)
  = make_file_name
      (prefix (obj (heap (fst (resolve_conflicts_for_prefix ["repo"] "SPEC" false
                                 (scanned two_conflicts the_specs_root)))) 1%nat))
      (token (obj (heap (fst (resolve_conflicts_for_prefix ["repo"] "SPEC" false
                                (scanned two_conflicts the_specs_root)))) 1%nat))
      (tail (obj (heap (fst (resolve_conflicts_for_prefix ["repo"] "SPEC" false
                               (scanned two_conflicts the_specs_root)))) 1%nat)).
Proof.
  apply (proj2 (pass_keeps_records_in_place ["repo"] "SPEC" false
                  (scanned two_conflicts the_specs_root)) 1%nat).
  reflexivity.
Defined.

Lemma dated_and_undated_in_sync :
  in_sync the_specs_root (scanned dated_and_undated the_specs_root).
Proof. reflexivity. Defined.

Lemma rename_target_is_free_witness :
  Fs.exists_ dated_and_undated
    ["repo"; ".ai"; "specs"; "SPEC-004-2024-01-05-intro.md"] = false.
Proof.
  apply (rename_target_is_free the_specs_root "SPEC" 0 1 [] 3
           (scanned dated_and_undated the_specs_root)
           dated_and_undated_wf dated_and_undated_in_sync).
  intros r [<-|[<-|[]]]; vm_compute; auto.
Defined.

Lemma apply_pass_keeps_disk_in_step_witness :
  exists w' n,
    resolve_conflicts_for_prefix ["repo"] "SPEC" false
      (scanned dated_and_undated the_specs_root) = (w', inr n)
    /\ map record_key (iter_spec_files (disk w') the_specs_root) = map record_key (heap w')
    /\ List.NoDup (map fpath (files (disk w')))
    /\ map (fun f => PurePath.parent (fpath f)) (files (disk w'))
       = map (fun f => PurePath.parent (fpath f)) (files dated_and_undated)
    /\ dirs (disk w') = dirs dated_and_undated
    /\ specs_text the_specs_root (disk w').
Proof.
  apply (apply_pass_keeps_disk_in_step ["repo"] the_specs_root "SPEC"
           (scanned dated_and_undated the_specs_root)
           dated_and_undated_wf dated_and_undated_in_sync
           (dated_and_undated_text the_specs_root (or_introl eq_refl))).
Defined.

Lemma replace_in_text_files_spec_witness :
  walked ["repo"]
    {| fpath := ["repo"; "ai"; "specs"; "SPEC-001-x.md"];
       fdata := Text "see SPEC-003-b.md"; fmtime := 1 |} = true.
Proof.
  apply (proj2 (replace_in_text_files_spec ["repo"] "SPEC-003-b.md" "SPEC-004-b.md" false
                  (scanned two_roots the_specs_root))
           {| fpath := ["repo"; "ai"; "specs"; "SPEC-001-x.md"];
              fdata := Text "see SPEC-003-b.md"; fmtime := 1 |}).
  reflexivity.
Defined.

Lemma replace_in_file_spec_witness :
  replace_in_file ["repo"; "missing.md"] "a" "b" false
    (scanned dated_and_undated the_specs_root)
  = (scanned dated_and_undated the_specs_root, inl FileNotFoundError).
Proof.
  apply (proj1 (replace_in_file_spec ["repo"; "missing.md"] "a" "b" false
                  (scanned dated_and_undated the_specs_root))).
  reflexivity.
Defined.

Lemma summary_counts_conflict_lines_witness :
  exists lines total,
    out (fst (run two_conflicts ["repo"] true)) = lines ++ [summary_line total false]
    /\ total = length (List.filter is_conflict_line lines)
    /\ (total = 0%nat <->
        List.last (out (fst (run two_conflicts ["repo"] true))) "" = no_conflicts_line).
Proof.
  apply (summary_counts_conflict_lines two_conflicts ["repo"] true
           (fst (run two_conflicts ["repo"] true))).
  vm_compute. reflexivity.
Defined.

Lemma clean_registry_is_left_alone_witness :
  disk (fst (run clean_registry ["repo"] true)) = clean_registry.
Proof.
  rewrite (clean_registry_is_left_alone clean_registry ["repo"] true).
  - reflexivity.
  - discriminate.
  - intros r pre [<-|[]] [->| ->]; vm_compute; lia.
Defined.

Lemma preview_run_completes_witness :
  exists w,
    run dated_and_undated ["repo"] false
    = (w, inr (match find_specs_root dated_and_undated ["repo"] with
               | [] => 1 | _ => 0 end)%nat)
    /\ disk w = dated_and_undated.
Proof.
  apply (preview_run_completes dated_and_undated ["repo"]).
  - intros r [<-|[]] d [<-|[<-|[<-|[]]]]; reflexivity.
  - exact dated_and_undated_text.
Defined.

Lemma groups_in_token_order_witness :
  [0%nat; 1%nat]
  = List.filter
      (fun r => String.eqb (token (obj (heap (scanned two_conflicts the_specs_root)) r)) "001")
      (scoped_refs (heap (scanned two_conflicts the_specs_root)) "SPEC").
Proof.
  apply (proj1 (proj2 (proj2 (groups_in_token_order
                                (heap (scanned two_conflicts the_specs_root)) "SPEC")))
           "001" [0%nat; 1%nat]).
  vm_compute. left. reflexivity.
Defined.


Lemma naming_violations_sound_witness :
  exists module entity action,
    "sales.orders.created" = (module ++ "." ++ entity ++ "." ++ action)%string
    /\ module <> "" /\ entity <> "" /\ action <> ""
    /\ Py.all_chars is_id_char module = true
    /\ Py.all_chars is_id_char entity = true
    /\ Py.all_chars is_id_char action = true
    /\ Py.endswith entity "s" = true
    /\ str_in entity common_singular_s = false
    /\ Py.contains "sales.orders.created" "Emits `sales.orders.created`." = true.
Proof.
  apply (naming_violations_sound "Emits `sales.orders.created`." "sales.orders.created").
  vm_compute. left. reflexivity.
Defined.

Lemma no_plural_no_violation_witness :
  naming_violations "Emit `order.item.created` and `order.statuses-x.changed` now" = [].
Proof. apply no_plural_no_violation. reflexivity. Defined.

Lemma plain_identifier_is_checked_witness :
  List.In "sales.orders.created"
    (naming_violations ("Emits `" ++ ("sales" ++ "." ++ "orders" ++ "." ++ "created")
                          ++ "` twice.")).
Proof.
  apply (proj2 (plain_identifier_is_checked "Emits `" "` twice." "sales" "orders" "created"
                  (or_intror (ex_intro _ "Emits " (ex_intro _ "`"%char (conj eq_refl eq_refl))))
                  (or_intror (ex_intro _ "`"%char
                                (ex_intro _ " twice." (conj eq_refl (conj eq_refl eq_refl)))))
                  ltac:(discriminate) ltac:(discriminate) ltac:(discriminate)
                  eq_refl eq_refl eq_refl)).
  split; reflexivity.
Defined.

Lemma validate_naming_spec_witness :
  validate_naming ["repo"; "missing.md"] {| heap := []; disk := naming_examples; out := [] |}
  = ({| heap := []; disk := naming_examples;
        out := [] ++ [file_not_found_line ["repo"; "missing.md"]] |}, inr false).
Proof.
  apply (proj1 (validate_naming_spec ["repo"; "missing.md"]
                  {| heap := []; disk := naming_examples; out := [] |})).
  reflexivity.
Defined.

Lemma validate_naming_exit_status_witness :
  (0 = 0 \/ 0 = 1)%nat
  /\ (0%nat = 0%nat <->
      exists p f c,
        Some ["repo"; "good.md"] = Some p
        /\ Fs.find_file (disk {| heap := []; disk := naming_examples; out := [] |}) p = Some f
        /\ fdata f = Text c /\ naming_violations c = []).
Proof.
  apply (validate_naming_exit_status (Some ["repo"; "good.md"])
           {| heap := []; disk := naming_examples; out := [] |} 0).
  vm_compute. reflexivity.
Defined.
